(** * magento-mcp: signing, plan store, idempotency ledger and guardrails

    A shallow embedding of the core of the Magento MCP server:
    - [MagentoRestClient.buildOAuthHeader] and [rfc3986Encode]
      (src/client/magentoRest.ts),
    - [PlanStore] and [IdempotencyLedger] (src/session),
    - [Guardrails] (src/validation/guardrails.ts),
    - the [catalog.commit_bulk_update] handler (src/actions/catalog.ts),
    and, in the second part of the definitions,
    - the rest of [MagentoRestClient]: URLs, query strings, search
      parameters, headers, the four request methods and [handleResponse],
    - the other guardrails, [PlanStore.create], the ledger file,
    - [SessionStore], the audit log and the tool wrapper (src/index.ts),
    - the rate limiter and [cache.purge_by_url] (src/actions/cache.ts),
    - the [catalog.prepare_bulk_update] handler and its product search.

    JavaScript strings are sequences of UTF-16 code units, JavaScript numbers
    are IEEE 754 binary64 floats, [Map]s are finite maps, and a thrown
    exception is the [Throw] case of an outcome. *)

From Stdlib Require Import List NArith ZArith Bool String Ascii Lia Floats.
From Stdlib Require Import DecimalString HexadecimalString DecimalNat DecimalFacts.
From stdpp Require Import base option list sorting gmap.

Local Open Scope N_scope.

(** ** JavaScript strings *)

(** A string value is its sequence of UTF-16 code units (each below 65536). *)
Definition jsstring : Type := list N.

(** The code units of an ASCII literal. *)
Definition js (s : string) : jsstring :=
  map N_of_ascii (list_ascii_of_string s).
Arguments js s%_string.

(** [a + b] on strings. *)
Definition cat (a b : jsstring) : jsstring := a ++ b.
Infix "+++" := cat (at level 60, right associativity).

(** [parts.join(sep)]. *)
Fixpoint join (sep : jsstring) (parts : list jsstring) : jsstring :=
  match parts with
  | [] => []
  | [p] => p
  | p :: rest => p ++ sep ++ join sep rest
  end.

(** Comparison of two strings by code units, the order of [<] on strings and
    of [Array.prototype.sort] without a comparator. *)
Fixpoint str_compare (a b : jsstring) : comparison :=
  match a, b with
  | [], [] => Eq
  | [], _ :: _ => Lt
  | _ :: _, [] => Gt
  | x :: a', y :: b' =>
      match N.compare x y with
      | Eq => str_compare a' b'
      | c => c
      end
  end.

Definition str_leb (a b : jsstring) : bool :=
  match str_compare a b with Gt => false | _ => true end.

(** Stable insertion into a list sorted by [leb]. *)
Fixpoint insert_sorted {A} (leb : A -> A -> bool) (x : A) (l : list A) : list A :=
  match l with
  | [] => [x]
  | y :: l' => if leb x y then x :: l else y :: insert_sorted leb x l'
  end.

(** [array.sort(cmp)]: a stable sort. *)
Definition sort_by {A} (leb : A -> A -> bool) (l : list A) : list A :=
  foldr (insert_sorted leb) [] l.

(** [keys.sort()] on an array of strings. *)
Definition sort_strings (l : list jsstring) : list jsstring := sort_by str_leb l.

(** [String(n)] for a non-negative integer. *)
Definition nat_toString (n : nat) : jsstring :=
  js (DecimalString.NilZero.string_of_uint (Nat.to_uint n)).

(** [s.toUpperCase()], on the ASCII range (the only range it is applied to
    here: hexadecimal digits). *)
Definition toUpperCase (s : jsstring) : jsstring :=
  map (fun c => if (97 <=? c) && (c <=? 122) then c - 32 else c) s.

(** [n.toString(16)] for a non-negative integer. *)
Definition toString16 (n : N) : jsstring :=
  js (HexadecimalString.NilZero.string_of_uint (N.to_hex_uint n)).

(** White space and line terminators, as [String.prototype.trim] removes them. *)
Definition isWhiteSpace (c : N) : bool :=
  (9 <=? c) && (c <=? 13) || (c =? 32) || (c =? 160) || (c =? 5760)
  || (8192 <=? c) && (c <=? 8202) || (c =? 8232) || (c =? 8233)
  || (c =? 8239) || (c =? 8287) || (c =? 12288) || (c =? 65279).

Fixpoint trimStart (s : jsstring) : jsstring :=
  match s with
  | c :: s' => if isWhiteSpace c then trimStart s' else s
  | [] => []
  end.

(** [s.trim()]. *)
Definition trim (s : jsstring) : jsstring :=
  rev (trimStart (rev (trimStart s))).

(** ** Percent-encoding *)

(** The characters [encodeURIComponent] leaves alone:
    letters, digits and [- _ . ! ~ * ' ( )]. *)
Definition uriUnreserved (c : N) : bool :=
  (65 <=? c) && (c <=? 90) || (97 <=? c) && (c <=? 122)
  || (48 <=? c) && (c <=? 57)
  || (c =? 45) || (c =? 95) || (c =? 46) || (c =? 33) || (c =? 126)
  || (c =? 42) || (c =? 39) || (c =? 40) || (c =? 41).

Definition isHighSurrogate (c : N) : bool := (55296 <=? c) && (c <=? 56319).
Definition isLowSurrogate (c : N) : bool := (56320 <=? c) && (c <=? 57343).

(** The UTF-8 octets of a code point. *)
Definition utf8 (cp : N) : list N :=
  if cp <? 128 then [cp]
  else if cp <? 2048 then [192 + cp / 64; 128 + cp mod 64]
  else if cp <? 65536 then
    [224 + cp / 4096; 128 + (cp / 64) mod 64; 128 + cp mod 64]
  else
    [240 + cp / 262144; 128 + (cp / 4096) mod 64;
     128 + (cp / 64) mod 64; 128 + cp mod 64].

Definition hexDigit (d : N) : N := if d <? 10 then 48 + d else 55 + d.

(** One octet as [%XX], upper-case hexadecimal. *)
Definition percentOctet (b : N) : jsstring :=
  [37; hexDigit (b / 16); hexDigit (b mod 16)].

Definition percentOctets (bs : list N) : jsstring :=
  concat (map percentOctet bs).

(** [encodeURIComponent(s)]; [None] is the [URIError] it throws on an
    unpaired surrogate. *)
Fixpoint encodeURIComponent (s : jsstring) : option jsstring :=
  match s with
  | [] => Some []
  | c :: rest =>
      if uriUnreserved c then cons c <$> encodeURIComponent rest
      else if isLowSurrogate c then None
      else if isHighSurrogate c then
        match rest with
        | d :: rest' =>
            if isLowSurrogate d then
              app (percentOctets (utf8 (65536 + (c - 55296) * 1024 + (d - 56320))))
                <$> encodeURIComponent rest'
            else None
        | [] => None
        end
      else app (percentOctets (utf8 c)) <$> encodeURIComponent rest
  end.

(** The invariant of the string type: every code unit is below 65536. *)
Definition validString (s : jsstring) : Prop := Forall (fun c => c < 65536) s.

(** [s.isWellFormed()]: no surrogate without its pair. *)
Fixpoint isWellFormed (s : jsstring) : bool :=
  match s with
  | [] => true
  | c :: rest =>
      if isLowSurrogate c then false
      else if isHighSurrogate c then
        match rest with
        | d :: rest' => isLowSurrogate d && isWellFormed rest'
        | [] => false
        end
      else isWellFormed rest
  end.

(** The characters of the class [[!'()*]]. *)
Definition isSubDelim (c : N) : bool :=
  (c =? 33) || (c =? 39) || (c =? 40) || (c =? 41) || (c =? 42).

(** [s.replace(/[!'()*]/g, c => '%' + c.charCodeAt(0).toString(16).toUpperCase())]. *)
Definition replaceSubDelims (s : jsstring) : jsstring :=
  concat (map (fun c => if isSubDelim c
                        then js "%" +++ toUpperCase (toString16 c)
                        else [c]) s).

(** [MagentoRestClient.rfc3986Encode]. *)
Definition rfc3986Encode (str : jsstring) : option jsstring :=
  replaceSubDelims <$> encodeURIComponent str.

(** ** Objects with string properties *)

(** A [Record<string, string>] as the list of its own properties, in the
    order in which [Object.keys] and [Object.entries] list them. *)
Definition strmap : Type := list (jsstring * jsstring).

(** [o[k]], [None] for [undefined]. *)
Fixpoint obj_get {V} (k : jsstring) (o : list (jsstring * V)) : option V :=
  match o with
  | [] => None
  | (k', v) :: o' => if decide (k' = k) then Some v else obj_get k o'
  end.

(** The array index a property name denotes, if it is one: the decimal
    numeral, without a leading zero, of an integer from 0 to 2^32 - 2. *)
Definition arrayIndex (k : jsstring) : option N :=
  match k with
  | [] => None
  | c :: rest =>
      if forallb (fun d => (48 <=? d) && (d <=? 57)) k
         && (negb (c =? 48) || bool_decide (rest = []))
      then
        let n := fold_left (fun acc d => acc * 10 + (d - 48)) k 0 in
        if n <? 4294967295 then Some n else None
      else None
  end.

(** Whether a new property [k] is listed before the existing property [k']:
    the array indices come first, in ascending order, and the other names
    follow in the order in which they were created. *)
Definition listedBefore (k k' : jsstring) : bool :=
  match arrayIndex k, arrayIndex k' with
  | Some n, Some n' => n <? n'
  | Some _, None => true
  | None, _ => false
  end.

(** Whether [o] has the own property [k]. *)
Definition obj_has {V} (k : jsstring) (o : list (jsstring * V)) : bool :=
  bool_decide (is_Some (obj_get k o)).

(** A new value for the existing property [k], which keeps its place. *)
Fixpoint obj_update {V} (k : jsstring) (v : V) (o : list (jsstring * V))
  : list (jsstring * V) :=
  match o with
  | [] => []
  | (k', v') :: o' =>
      if decide (k' = k) then (k, v) :: o' else (k', v') :: obj_update k v o'
  end.

(** The new property [k], at its place among the own properties. *)
Fixpoint obj_insert {V} (k : jsstring) (v : V) (o : list (jsstring * V))
  : list (jsstring * V) :=
  match o with
  | [] => [(k, v)]
  | (k', v') :: o' =>
      if listedBefore k k' then (k, v) :: o else (k', v') :: obj_insert k v o'
  end.

(** The definition of the own property [k], as an object literal and a
    spread make it. *)
Definition obj_define {V} (k : jsstring) (v : V) (o : list (jsstring * V))
  : list (jsstring * V) :=
  if obj_has k o then obj_update k v o else obj_insert k v o.

(** [o[k] = v] on an ordinary object. Where [o] has no own property
    [__proto__], the assignment to that name reaches the setter of
    [Object.prototype] and makes no property: a string is ignored, an object
    becomes the prototype. *)
Definition obj_set {V} (k : jsstring) (v : V) (o : list (jsstring * V))
  : list (jsstring * V) :=
  if obj_has k o then obj_update k v o
  else if decide (k = js "__proto__") then o
  else obj_insert k v o.

(** [Object.keys(o)]. *)
Definition obj_keys {V} (o : list (jsstring * V)) : list jsstring := map fst o.

(** [for (const [key, value] of Object.entries(src)) dst[key] = value]. *)
Definition obj_assign {V} (dst src : list (jsstring * V)) : list (jsstring * V) :=
  fold_left (fun acc kv => obj_set (fst kv) (snd kv) acc) src dst.

(** [{ ...dst, ...src }]: every property of [src] defined on a copy of
    [dst]. *)
Definition obj_spread {V} (dst src : list (jsstring * V)) : list (jsstring * V) :=
  fold_left (fun acc kv => obj_define (fst kv) (snd kv) acc) src dst.

(** A string property read where a string is expected: a missing property
    reads as [undefined], whose string conversion is ["undefined"]. *)
Definition str_prop (o : strmap) (k : jsstring) : jsstring :=
  default (js "undefined") (obj_get k o).

(** A string value that [encodeURIComponent] accepts, and a map of them. *)
Definition goodString (s : jsstring) : Prop :=
  validString s /\ isWellFormed s = true.

Definition goodMap (o : strmap) : Prop :=
  Forall (fun kv => goodString (fst kv) /\ goodString (snd kv)) o.

(** ** OAuth 1.0 request signing (src/client/magentoRest.ts) *)

Record OAuthCredentials : Type := {
  consumerKey : jsstring;
  consumerSecret : jsstring;
  token : jsstring;
  tokenSecret : jsstring;
}.

Definition goodCredentials (oauth : OAuthCredentials) : Prop :=
  goodString (consumerKey oauth) /\ goodString (consumerSecret oauth)
  /\ goodString (token oauth) /\ goodString (tokenSecret oauth).

(** The methods the client signs with: [get], [post], [put], [delete]. *)
Inductive HttpMethod : Type := GET | POST | PUT | DELETE.

Definition methodName (m : HttpMethod) : jsstring :=
  match m with
  | GET => js "GET" | POST => js "POST" | PUT => js "PUT" | DELETE => js "DELETE"
  end.

(** [mapM] over [option]: the first [None] wins. *)
Fixpoint traverse {A B} (f : A -> option B) (l : list A) : option (list B) :=
  match l with
  | [] => Some []
  | x :: l' => y ← f x; ys ← traverse f l'; Some (y :: ys)
  end.

Section Signing.

(** [crypto.createHmac('sha256', key).update(msg).digest('base64')]. *)
Variable hmacSha256Base64 : jsstring -> jsstring -> jsstring.

(** The [oauthParams] object literal. *)
Definition oauthParams (oauth : OAuthCredentials) (nonce timestamp : jsstring)
  : strmap :=
  [ (js "oauth_consumer_key", consumerKey oauth);
    (js "oauth_nonce", nonce);
    (js "oauth_signature_method", js "HMAC-SHA256");
    (js "oauth_timestamp", timestamp);
    (js "oauth_token", token oauth);
    (js "oauth_version", js "1.0") ].

(** [allParams]: a copy of [oauthParams] with the query parameters assigned
    over it. *)
Definition allParams (oauth : OAuthCredentials) (nonce timestamp : jsstring)
    (queryParams : option strmap) : strmap :=
  match queryParams with
  | Some q => obj_assign (oauthParams oauth nonce timestamp) q
  | None => oauthParams oauth nonce timestamp
  end.

(** [Object.keys(allParams).sort().map(k => enc(k) + '=' + enc(allParams[k])).join('&')]. *)
Definition paramString (all : strmap) : option jsstring :=
  join (js "&") <$>
    traverse (fun k =>
                ek ← rfc3986Encode k;
                ev ← rfc3986Encode (str_prop all k);
                Some (ek +++ js "=" +++ ev))
             (sort_strings (obj_keys all)).

(** [method.toUpperCase() + '&' + enc(baseUrl) + '&' + enc(paramString)]. *)
Definition signatureBaseString (method : HttpMethod) (baseUrl : jsstring)
    (all : strmap) : option jsstring :=
  ps ← paramString all;
  eu ← rfc3986Encode baseUrl;
  eps ← rfc3986Encode ps;
  Some (toUpperCase (methodName method) +++ js "&" +++ eu +++ js "&" +++ eps).

(** [enc(consumerSecret) + '&' + enc(tokenSecret)]. *)
Definition signingKey (oauth : OAuthCredentials) : option jsstring :=
  cs ← rfc3986Encode (consumerSecret oauth);
  ts ← rfc3986Encode (tokenSecret oauth);
  Some (cs +++ js "&" +++ ts).

(** The [signature] constant. *)
Definition oauthSignature (oauth : OAuthCredentials) (nonce timestamp : jsstring)
    (method : HttpMethod) (baseUrl : jsstring) (queryParams : option strmap)
  : option jsstring :=
  base ← signatureBaseString method baseUrl
           (allParams oauth nonce timestamp queryParams);
  key ← signingKey oauth;
  Some (hmacSha256Base64 key base).

(** [authParams = { ...oauthParams, oauth_signature: signature }]. *)
Definition authParams (oauth : OAuthCredentials) (nonce timestamp : jsstring)
    (method : HttpMethod) (baseUrl : jsstring) (queryParams : option strmap)
  : option strmap :=
  signature ← oauthSignature oauth nonce timestamp method baseUrl queryParams;
  Some (obj_define (js "oauth_signature") signature
          (oauthParams oauth nonce timestamp)).

(** ['OAuth ' + Object.entries(authParams).map(([k, v]) => k + '="' + enc(v) + '"').join(', ')]. *)
Definition renderOAuthHeader (fields : strmap) : option jsstring :=
  cat (js "OAuth ") <$> (join (js ", ") <$>
    traverse (fun kv =>
                ev ← rfc3986Encode (snd kv);
                Some (fst kv +++ [61; 34] +++ ev +++ [34]))
             fields).

(** [MagentoRestClient.buildOAuthHeader], with the random nonce
    ([crypto.randomBytes(32).toString('hex')]) and the clock reading
    ([Math.floor(Date.now() / 1000).toString()]) as arguments.
    [None] stands for a [URIError] raised while encoding. *)
Definition buildOAuthHeader (oauth : OAuthCredentials)
    (nonce timestamp : jsstring) (method : HttpMethod) (baseUrl : jsstring)
    (queryParams : option strmap) : option jsstring :=
  fields ← authParams oauth nonce timestamp method baseUrl queryParams;
  renderOAuthHeader fields.

End Signing.

(** Follows the spec's words (section 4.1, step 4), for comparison with
    [paramString]: every key and value percent-encoded, the entries sorted by
    encoded key and then encoded value, joined as [key=value] with [&]. *)
Definition pair_leb (a b : jsstring * jsstring) : bool :=
  match str_compare (fst a) (fst b) with
  | Lt => true
  | Gt => false
  | Eq => str_leb (snd a) (snd b)
  end.

(** The orders behind [str_leb], [<] on strings and [pair_leb]. *)
Definition str_le (a b : jsstring) : Prop := str_leb a b = true.
Definition str_lt (a b : jsstring) : Prop := str_compare a b = Lt.
Definition pair_le (p q : jsstring * jsstring) : Prop := pair_leb p q = true.

(** The encoding of one parameter, and how it is written. *)
Definition encodePair (kv : jsstring * jsstring) : option (jsstring * jsstring) :=
  ek ← rfc3986Encode (fst kv); ev ← rfc3986Encode (snd kv); Some (ek, ev).

Definition writePair (kv : jsstring * jsstring) : jsstring :=
  fst kv +++ js "=" +++ snd kv.

Definition spec_paramString (all : strmap) : option jsstring :=
  encoded ← traverse (fun kv =>
                        ek ← rfc3986Encode (fst kv);
                        ev ← rfc3986Encode (snd kv);
                        Some (ek, ev)) all;
  Some (join (js "&")
          (map (fun kv => fst kv +++ js "=" +++ snd kv)
               (sort_by pair_leb encoded))).

(** Follows the spec's words (section 4.1, steps 2, 3 and 5 to 8), for
    comparison with [buildOAuthHeader]. The protocol parameters: consumer
    key, nonce, signature method, time stamp, access token, version. *)
Definition spec_protocolParams (oauth : OAuthCredentials)
    (nonce timestamp : jsstring) : list (jsstring * jsstring) :=
  [ (js "oauth_consumer_key", consumerKey oauth);
    (js "oauth_nonce", nonce);
    (js "oauth_signature_method", js "HMAC-SHA256");
    (js "oauth_timestamp", timestamp);
    (js "oauth_token", token oauth);
    (js "oauth_version", js "1.0") ].

(** The names of the protocol parameters. *)
Definition spec_protocolNames : list jsstring :=
  [ js "oauth_consumer_key"; js "oauth_nonce"; js "oauth_signature_method";
    js "oauth_timestamp"; js "oauth_token"; js "oauth_version" ].

(** Whether a list of strings is in strictly ascending order. *)
Fixpoint ascending (l : list jsstring) : bool :=
  match l with
  | a :: l' =>
      match l' with
      | b :: _ =>
          match str_compare a b with Lt => ascending l' | _ => false end
      | [] => true
      end
  | [] => true
  end.

(** Whether parameter names, sorted as they are, are also in ascending
    order once they are encoded: sorting the names before or after encoding
    them then gives the same order. *)
Definition namesInOrder (names : list jsstring) : bool :=
  match traverse rfc3986Encode (sort_strings names) with
  | Some encoded => ascending encoded
  | None => false
  end.

(** The signature base string: the method in upper case, the encoded URL
    and the encoded parameter string of step 4, joined with [&]. *)
Definition spec_baseString (method : jsstring) (baseUrl : jsstring)
    (params : list (jsstring * jsstring)) : option jsstring :=
  ps ← spec_paramString params;
  eu ← rfc3986Encode baseUrl;
  eps ← rfc3986Encode ps;
  Some (toUpperCase method ++ js "&" ++ eu ++ js "&" ++ eps).

(** The signing key: the encoded consumer secret, [&], the encoded token
    secret. *)
Definition spec_signingKey (oauth : OAuthCredentials) : option jsstring :=
  cs ← rfc3986Encode (consumerSecret oauth);
  ts ← rfc3986Encode (tokenSecret oauth);
  Some (cs ++ js "&" ++ ts).

(** The signature a verifier computes for a request: the keyed hash of the
    base string that the protocol parameters, with the nonce and the time
    stamp of the header, and the query parameters give. *)
Definition spec_signature (hmac : jsstring -> jsstring -> jsstring)
    (oauth : OAuthCredentials) (nonce timestamp : jsstring) (method : jsstring)
    (baseUrl : jsstring) (query : list (jsstring * jsstring)) : option jsstring :=
  base ← spec_baseString method baseUrl
           (spec_protocolParams oauth nonce timestamp ++ query);
  key ← spec_signingKey oauth;
  Some (hmac key base).

(** One [key="value"] of the header. *)
Definition spec_headerField (k v : jsstring) : jsstring :=
  k ++ js "=" ++ [34] ++ v ++ [34].

(** The header: [OAuth] and, separated by commas, the protocol parameters
    and the signature, each with its value percent-encoded. The arguments
    are the encoded consumer key, nonce, time stamp, token and signature. *)
Definition spec_header (key nonce timestamp tok signature : jsstring) : jsstring :=
  js "OAuth "
  ++ join (js ", ")
       [ spec_headerField (js "oauth_consumer_key") key;
         spec_headerField (js "oauth_nonce") nonce;
         spec_headerField (js "oauth_signature_method") (js "HMAC-SHA256");
         spec_headerField (js "oauth_timestamp") timestamp;
         spec_headerField (js "oauth_token") tok;
         spec_headerField (js "oauth_version") (js "1.0");
         spec_headerField (js "oauth_signature") signature ].

(** ** JavaScript values, exceptions *)

#[warnings="-register-all"]
Inductive JsValue : Type :=
| JUndefined
| JNull
| JBool (b : bool)
| JNumber (x : float)
| JString (s : jsstring)
| JArray (items : list JsValue)
| JObject (props : list (jsstring * JsValue)).

(** A [Record<string, unknown>] received as call parameters. *)
Abbreviation Params := (gmap jsstring JsValue).

(** [params[k]]. *)
Definition prop (params : Params) (k : jsstring) : JsValue :=
  default JUndefined (params !! k).

(** [v === true]. *)
Definition isTrue (v : JsValue) : bool :=
  match v with JBool true => true | _ => false end.

(** Truthiness, as [!v] and [if (v)] test it. *)
Definition truthy (v : JsValue) : bool :=
  match v with
  | JUndefined | JNull => false
  | JBool b => b
  | JNumber x => negb (PrimFloat.eqb x 0 || PrimFloat.is_nan x)
  | JString s => negb (bool_decide (s = []))
  | JArray _ | JObject _ => true
  end.

(** [typeof v === 'string']. *)
Definition isString (v : JsValue) : bool :=
  match v with JString _ => true | _ => false end.

(** The cast [(v as string)] of a value already known to be a string. *)
Definition asString (v : JsValue) : jsstring :=
  match v with JString s => s | _ => [] end.

(** [v[k]] for a key that names no built-in property: only an object has
    it, and [undefined] is read everywhere else. *)
Definition member (v : JsValue) (k : jsstring) : JsValue :=
  match v with
  | JObject props => default JUndefined (obj_get k props)
  | _ => JUndefined
  end.

(** The conversion of a value to a string, by [String(v)], a template or
    an argument that must be a string; [valueToString] is the conversion of
    a value that is not a string. *)
Definition toStr (valueToString : JsValue -> jsstring) (v : JsValue) : jsstring :=
  match v with JString s => s | _ => valueToString v end.

(** The code points of a string, as its iterator yields them: a surrogate
    pair is one of them. *)
Fixpoint codePoints (s : jsstring) : list jsstring :=
  match s with
  | [] => []
  | c :: s1 =>
      match s1 with
      | d :: s2 =>
          if isHighSurrogate c && isLowSurrogate d
          then [c; d] :: codePoints s2
          else [c] :: codePoints s1
      | [] => [[c]]
      end
  end.

(** What [for (const x of v)] runs over; [None] when [v] is not iterable. *)
Definition iterate (v : JsValue) : option (list JsValue) :=
  match v with
  | JArray items => Some items
  | JString s => Some (map JString (codePoints s))
  | _ => None
  end.

(** [v.length] of an array or a string. *)
Definition lengthOf (v : JsValue) : nat :=
  match v with
  | JArray items => length items
  | JString s => length s
  | _ => 0%nat
  end.

(** The own enumerable properties of a value, as a spread copies them:
    those of an object, the elements of an array and the code units of a
    string under their indices, and none of any other value. *)
Definition ownEntries (v : JsValue) : list (jsstring * JsValue) :=
  match v with
  | JObject props => props
  | JArray items => imap (fun i x => (nat_toString i, x)) items
  | JString s => imap (fun i c => (nat_toString i, JString [c])) s
  | _ => []
  end.

(** What a call can throw. *)
Inductive Exn : Type :=
| GuardrailError (code message : jsstring) (details : option JsValue)
| ZodError
| JsError (message : jsstring).

Inductive Outcome (A : Type) : Type :=
| Ok (a : A)
| Throw (e : Exn).
Arguments Ok {A} a.
Arguments Throw {A} e.

(** ** Configuration (src/config/index.ts) and risk tiers (src/protocol/types.ts) *)

Inductive RiskTier : Type := Safe | Risk | Critical.

(** The numeric value of an enum member. *)
Definition tierNum (t : RiskTier) : nat :=
  match t with Safe => 1 | Risk => 2 | Critical => 3 end.

Record McpConfig : Type := {
  maxSkusPerBulkCommit : float;
  maxCouponQtyPerGeneration : float;
  priceChangeThresholdPercent : float;
  maxDiscountPercent : float;
  tier2ConfirmationRequired : bool;
  planExpiryMinutes : float;
}.

Definition defaultConfig : McpConfig := {|
  maxSkusPerBulkCommit := 500;
  maxCouponQtyPerGeneration := 1000;
  priceChangeThresholdPercent := 50;
  maxDiscountPercent := 50;
  tier2ConfirmationRequired := true;
  planExpiryMinutes := 30;
|}.

Definition CONFIRMATION_REQUIRED : jsstring := js "CONFIRMATION_REQUIRED".

(** ** Guardrails (src/validation/guardrails.ts) *)

Module Guardrails.

Definition confirmMessage (riskTier : RiskTier) : jsstring :=
  js "This action requires confirm: true and a reason string (Risk Tier "
  +++ nat_toString (tierNum riskTier) +++ js ").".

Definition reasonMessage : jsstring :=
  js "A non-empty reason string is required for Tier 2+ operations.".

(** [Guardrails.requireConfirmation]. *)
Definition requireConfirmation (config : McpConfig) (riskTier : RiskTier)
    (params : Params) : Outcome unit :=
  if (tierNum Risk <=? tierNum riskTier)%nat && tier2ConfirmationRequired config
  then
    if negb (isTrue (prop params (js "confirm"))) then
      Throw (GuardrailError CONFIRMATION_REQUIRED (confirmMessage riskTier) None)
    else
      let reason := prop params (js "reason") in
      if negb (truthy reason) || negb (isString reason)
         || (length (trim (asString reason)) =? 0)%nat
      then Throw (GuardrailError CONFIRMATION_REQUIRED reasonMessage None)
      else Ok tt
  else Ok tt.

Section PriceCheck.

(** [x.toFixed(1)] and the string conversion of a number in a template. *)
Variable toFixed1 : float -> jsstring.
Variable numberToString : float -> jsstring.

(** The percentage the check computes:
    [Math.abs((newPrice - currentPrice) / currentPrice) * 100]. *)
Definition pctChange (currentPrice newPrice : float) : float :=
  (PrimFloat.abs ((newPrice - currentPrice) / currentPrice) * 100)%float.

Definition priceWarning (config : McpConfig) (pct : float) : jsstring :=
  js "Price change of " +++ toFixed1 pct +++ js "% exceeds the "
  +++ numberToString (priceChangeThresholdPercent config)
  +++ js "% threshold warning.".

(** [Guardrails.checkPriceChangeThreshold]; [None] is [null]. *)
Definition checkPriceChangeThreshold (config : McpConfig)
    (currentPrice newPrice : float) : option jsstring :=
  if PrimFloat.eqb currentPrice 0 then None
  else
    let pct := pctChange currentPrice newPrice in
    if PrimFloat.ltb (priceChangeThresholdPercent config) pct
    then Some (priceWarning config pct)
    else None.

End PriceCheck.

End Guardrails.

(** ** Plans and the plan store (src/session/planStore.ts) *)

(** [BulkPlan]. The payload is [unknown]: the store is shared by the
    handlers of every family, and each keeps what it needs there. The two
    ISO 8601 time stamps are held as the instants they denote, in
    milliseconds since the epoch, which is what [new Date(s)] reads back
    from them. *)
Record BulkPlan : Type := {
  plan_id : jsstring;
  action : jsstring;
  created_at : Z;
  expires_at : Z;
  payload : JsValue;
  affected_count : nat;
  sample_diffs : option (list JsValue);
  warnings : option (list jsstring);
}.

Abbreviation Plans := (gmap jsstring BulkPlan).

Module PlanStore.

(** [new Date(plan.expires_at) < now]. *)
Definition expired (now : Z) (plan : BulkPlan) : bool :=
  (expires_at plan <? now)%Z.

(** [PlanStore.get]; [now] is the clock reading of [new Date()]. *)
Definition get (now : Z) (planId : jsstring) (plans : Plans)
  : option BulkPlan * Plans :=
  match plans !! planId with
  | None => (None, plans)
  | Some plan =>
      if expired now plan then (None, delete planId plans)
      else (Some plan, plans)
  end.

(** [PlanStore.consume]. *)
Definition consume (now : Z) (planId : jsstring) (plans : Plans)
  : option BulkPlan * Plans :=
  let '(plan, plans1) := get now planId plans in
  match plan with
  | Some _ => (plan, delete planId plans1)
  | None => (plan, plans1)
  end.

(** [PlanStore.cleanup]: the number of plans removed and what is left. *)
Definition cleanup (now : Z) (plans : Plans) : nat * Plans :=
  (size (filter (fun kv => expired now (snd kv) = true) plans),
   filter (fun kv => expired now (snd kv) = false) plans).

End PlanStore.

(** ** The idempotency ledger (src/session/idempotencyLedger.ts) *)

Record IdempotencyEntry : Type := {
  key : jsstring;
  entry_action : jsstring;
  entry_created_at : Z;
  result_summary : jsstring;
}.

Abbreviation Entries := (gmap jsstring IdempotencyEntry).

Module IdempotencyLedger.

(** [IdempotencyLedger.has]. *)
Definition has (k : jsstring) (entries : Entries) : bool :=
  bool_decide (is_Some (entries !! k)).

(** [IdempotencyLedger.get]. *)
Definition get (k : jsstring) (entries : Entries) : option IdempotencyEntry :=
  entries !! k.

(** The first statement of [IdempotencyLedger.record]:
    [this.entries.set(key, entry)]. The call of [persist()] that follows
    it works on the file system, which is with the state of the server
    below. *)
Definition record (now : Z) (k action resultSummary : jsstring)
    (entries : Entries) : Entries :=
  <[ k := {| key := k;
             entry_action := action;
             entry_created_at := now;
             result_summary := resultSummary |} ]> entries.

End IdempotencyLedger.

(** ** The commit handler (src/actions/catalog.ts) *)

(** What [CommitPlanSchema.parse] returns; [confirm] is the literal [true]. *)
Record CommitPlan : Type := {
  v_plan_id : jsstring;
  v_reason : jsstring;
  idempotency_key : option jsstring;
}.

(** The arguments of one [client.put(endpoint, body, storeCode)]; the store
    code is whatever value the handler read from the payload. *)
Record PutRequest : Type := {
  endpoint : jsstring;
  body : JsValue;
  storeCode : JsValue;
}.

(** The two shapes of the handler's return value; an entry of [errors] is
    [{ sku, error }]. *)
Inductive CommitResult : Type :=
| AlreadyCompleted (message previous_result : jsstring)
| Committed (message : jsstring) (success_count error_count : nat)
            (errors : option (list (JsValue * jsstring))).

(** A computation over a state that may throw. *)
Definition M (S A : Type) : Type := S -> Outcome A * S.

Definition ret {S A} (a : A) : M S A := fun s => (Ok a, s).
Definition throw {S A} (e : Exn) : M S A := fun s => (Throw e, s).
Definition bind {S A B} (m : M S A) (k : A -> M S B) : M S B :=
  fun s => match m s with
           | (Ok a, s') => k a s'
           | (Throw e, s') => (Throw e, s')
           end.
Definition lift {S A} (o : Outcome A) : M S A := fun s => (o, s).

Notation "'do' x <- m ; k" := (bind m (fun x => k))
  (at level 10, x name, m at level 100, k at level 200).

(** The error of a plan that is not there, and the answer to a replayed key. *)
Definition notFound : Exn :=
  JsError (js "Plan not found or expired. Prepare a new plan.").

Definition replayed (e : IdempotencyEntry) : CommitResult :=
  AlreadyCompleted (js "Operation already completed (idempotency match)")
    (result_summary e).

Section Catalog.

(** The test behind [z.string().uuid()]. *)
Variable isUuid : jsstring -> bool.

(** [String(v)] for a value that is not a string, and the messages of the
    two [TypeError]s of the engine: for a property read of [undefined] or
    [null], and for a loop over a value that is not iterable. *)
Variable valueToString : JsValue -> jsstring.
Variable cannotRead : JsValue -> jsstring.
Variable notIterable : JsValue -> jsstring.

(** The remote platform: its state, and what one [PUT] does to it. The
    result of a request is [None] when the promise resolves and the message
    of the error when it rejects. *)
Variable World : Type.

Record Client : Type := {
  put : PutRequest -> World -> option jsstring * World;
}.

Record ActionContext : Type := {
  getClient : Outcome Client;
}.

(** The file system under the ledger, and [IdempotencyLedger.persist] on
    it: [mkdirSync] and [writeFileSync] of the snapshot of the entries,
    either of which can throw. *)
Variable Disk : Type.
Variable persist : Entries -> Disk -> Outcome unit * Disk.

(** The plan store and the ledger the handler closes over, the platform,
    the file system, and the requests sent to the platform so far (a history
    kept for the proofs). *)
Record Server : Type := {
  plans : Plans;
  entries : Entries;
  world : World;
  disk : Disk;
  requests : list PutRequest;
}.

Variable config : McpConfig.

(** [CommitBulkUpdateSchema.parse(params)], with
    [CommitPlanSchema = z.object({ plan_id: z.string().uuid(),
    confirm: z.literal(true), reason: z.string().min(1),
    idempotency_key: z.string().optional() })]. *)
Definition CommitBulkUpdateSchema_parse (params : Params) : Outcome CommitPlan :=
  match prop params (js "plan_id"), prop params (js "confirm"),
        prop params (js "reason") with
  | JString pid, JBool true, JString r =>
      if isUuid pid && (1 <=? length r)%nat then
        match prop params (js "idempotency_key") with
        | JUndefined =>
            Ok {| v_plan_id := pid; v_reason := r; idempotency_key := None |}
        | JString k =>
            Ok {| v_plan_id := pid; v_reason := r; idempotency_key := Some k |}
        | _ => Throw ZodError
        end
      else Throw ZodError
  | _, _, _ => Throw ZodError
  end.

(** [planStore.consume(planId)] on the server's store. *)
Definition consumePlan (now : Z) (planId : jsstring) : M Server (option BulkPlan) :=
  fun s =>
    let '(plan, plans') := PlanStore.consume now planId (plans s) in
    (Ok plan, {| plans := plans'; entries := entries s; world := world s;
                 disk := disk s; requests := requests s |}).

(** [idempotencyLedger.record(key, action, summary)] on the server's ledger:
    the entry is set in memory, and then the snapshot is written, which can
    throw. *)
Definition recordEntry (now : Z) (k action summary : jsstring) : M Server unit :=
  fun s =>
    let entries' := IdempotencyLedger.record now k action summary (entries s) in
    let '(r, disk') := persist entries' (disk s) in
    (r, {| plans := plans s; entries := entries'; world := world s;
           disk := disk'; requests := requests s |}).

(** The ledger lookup guarded by [if (validated.idempotency_key)]. *)
Definition priorEntry (validated : CommitPlan) (s : Server)
  : option IdempotencyEntry :=
  match idempotency_key validated with
  | Some k =>
      if truthy (JString k) then IdempotencyLedger.get k (entries s) else None
  | None => None
  end.

(** [payload.scope?.store_view_code] on the payload, which the handler casts
    without a check: the read of [scope] throws on [undefined] and [null]. *)
Definition storeViewCode (payload : JsValue) : Outcome JsValue :=
  match payload with
  | JUndefined | JNull => Throw (JsError (cannotRead payload))
  | _ =>
      match member payload (js "scope") with
      | JUndefined | JNull => Ok JUndefined
      | scope => Ok (member scope (js "store_view_code"))
      end
  end.

(** The loop variables [successCount] and [errors], with the platform and
    the request history. *)
Record Progress : Type := {
  successCount : nat;
  errors : list (JsValue * jsstring);
  p_world : World;
  p_requests : list PutRequest;
}.

(** The request of one record:
    [client.put(`/V1/products/${encodeURIComponent(sku)}`,
                { product: { sku, ...payload.updates } }, storeCode)]. *)
Definition putRequest (payload storeCode sku : JsValue) : option PutRequest :=
  esku ← encodeURIComponent (toStr valueToString sku);
  Some {| endpoint := js "/V1/products/" +++ esku;
          body := JObject [(js "product",
                    JObject (obj_spread [(js "sku", sku)]
                               (ownEntries (member payload (js "updates")))))];
          storeCode := storeCode |}.

(** The [try] block of one record and what its [catch] sees: the message of
    the error if one was thrown, the platform afterwards, and the request
    sent. A [sku] that cannot be encoded throws before any request leaves. *)
Definition tryPut (client : Client) (payload storeCode sku : JsValue)
    (w : World) : option jsstring * World * list PutRequest :=
  match putRequest payload storeCode sku with
  | None => (Some (js "URI malformed"), w, [])
  | Some req => let '(r, w') := put client req w in (r, w', [req])
  end.

(** One iteration of the loop. *)
Definition putOne (client : Client) (payload storeCode : JsValue) (p : Progress)
    (sku : JsValue) : Progress :=
  let '(r, w, sent) := tryPut client payload storeCode sku (p_world p) in
  match r with
  | None =>
      {| successCount := S (successCount p);
         errors := errors p;
         p_world := w; p_requests := p_requests p ++ sent |}
  | Some msg =>
      {| successCount := successCount p;
         errors := errors p ++ [(sku, msg)];
         p_world := w; p_requests := p_requests p ++ sent |}
  end.

(** [for (const sku of payload.skus) { try { ... } catch (err) { ... } }];
    the loop throws before its first round when [payload.skus] is not
    iterable. *)
Definition putAll (client : Client) (payload storeCode : JsValue)
  : M Server Progress :=
  fun s =>
    match iterate (member payload (js "skus")) with
    | None => (Throw (JsError (notIterable (member payload (js "skus")))), s)
    | Some records =>
        let p := fold_left (putOne client payload storeCode) records
                   {| successCount := 0; errors := [];
                      p_world := world s; p_requests := requests s |} in
        (Ok p, {| plans := plans s; entries := entries s; world := p_world p;
                  disk := disk s; requests := p_requests p |})
    end.

(** [`Updated ${successCount}/${payload.skus.length} products. ${errors.length} errors.`]. *)
Definition summaryOf (p : Progress) (payload : JsValue) : jsstring :=
  js "Updated " +++ nat_toString (successCount p) +++ js "/"
  +++ nat_toString (lengthOf (member payload (js "skus"))) +++ js " products. "
  +++ nat_toString (length (errors p)) +++ js " errors.".

(** The handler of [catalog.commit_bulk_update]. [now] is the clock when the
    plan is looked up, [nowRecord] the clock when the ledger entry is made. *)
Definition commit_bulk_update (now nowRecord : Z) (params : Params)
    (context : ActionContext) : M Server CommitResult :=
  do validated <- lift (CommitBulkUpdateSchema_parse params);
  do _ <- lift (Guardrails.requireConfirmation config Risk params);
  fun s =>
    match priorEntry validated s with
    | Some existing =>
        ret (replayed existing) s
    | None =>
        (do plan <- consumePlan now (v_plan_id validated);
         match plan with
         | None =>
             throw notFound
         | Some plan =>
             let payload := payload plan in
             do client <- lift (getClient context);
             do storeCode <- lift (storeViewCode payload);
             do p <- putAll client payload storeCode;
             let summary := summaryOf p payload in
             do _ <- match idempotency_key validated with
                     | Some k =>
                         if truthy (JString k) then
                           recordEntry nowRecord k
                             (js "catalog.commit_bulk_update") summary
                         else ret tt
                     | None => ret tt
                     end;
             ret (Committed summary (successCount p) (length (errors p))
                    (if (0 <? length (errors p))%nat then Some (errors p)
                     else None))
         end) s
    end.

(** Follows the spec's words (sections 5 and 7), for comparison with
    [putAll]: the records are mutated one at a time, sequentially, in the
    order of the payload, and each record has its own success ([None]) or
    failure. [request] is the request of a record, if it has one; a record
    without one fails before anything is sent. *)
Fixpoint spec_results (client : Client) (request : JsValue -> option PutRequest)
    (records : list JsValue) (w : World)
  : list (JsValue * option jsstring) * World :=
  match records with
  | [] => ([], w)
  | sku :: rest =>
      let '(r, w1) := match request sku with
                      | Some req => put client req w
                      | None => (Some (js "URI malformed"), w)
                      end in
      let '(rs, w2) := spec_results client request rest w1 in
      ((sku, r) :: rs, w2)
  end.

End Catalog.

Arguments put {World} _ _ _.
Arguments getClient {World} _.
Arguments plans {World Disk} _.
Arguments entries {World Disk} _.
Arguments world {World Disk} _.
Arguments disk {World Disk} _.
Arguments requests {World Disk} _.
Arguments consumePlan {World Disk} now planId _.
Arguments recordEntry {World Disk} persist now k action summary _.
Arguments priorEntry {World Disk} validated s.
Arguments tryPut valueToString {World} client payload storeCode sku w.
Arguments putOne valueToString {World} client payload storeCode p sku.
Arguments spec_results {World} client request records w.
Arguments putAll valueToString notIterable {World Disk} client payload storeCode _.
Arguments summaryOf {World} p payload.
Arguments commit_bulk_update isUuid valueToString cannotRead notIterable
  {World Disk} persist config now nowRecord params context _.
Arguments successCount {World} _.
Arguments errors {World} _.
Arguments p_world {World} _.
Arguments p_requests {World} _.

(** The ledger after the handler's closing [if (validated.idempotency_key)]. *)
Definition ledgerAfter (nowRecord : Z) (v : CommitPlan) (summary : jsstring)
    (entries : Entries)
  : Entries :=
  match idempotency_key v with
  | Some k =>
      if truthy (JString k)
      then IdempotencyLedger.record nowRecord k
             (js "catalog.commit_bulk_update") summary entries
      else entries
  | None => entries
  end.

(** The records of a result list that failed, with their messages. *)
Fixpoint failures (rs : list (JsValue * option jsstring))
  : list (JsValue * jsstring) :=
  match rs with
  | [] => []
  | (sku, Some msg) :: rs' => (sku, msg) :: failures rs'
  | (_, None) :: rs' => failures rs'
  end.

(** The number of records of a result list that succeeded. *)
Fixpoint successes (rs : list (JsValue * option jsstring)) : nat :=
  match rs with
  | [] => 0
  | (_, None) :: rs' => S (successes rs')
  | (_, Some _) :: rs' => successes rs'
  end.

(** Follows the spec's words (sections 5 and 6): the mutation of a record is
    one [PUT] on the resource of that record, [/V1/products/<sku>] with the
    SKU percent-encoded, which carries the SKU and the updates of the plan,
    in the store view of the plan. A record whose SKU cannot be encoded has
    no request. *)
Definition spec_request (valueToString : JsValue -> jsstring)
    (updates : list (jsstring * JsValue)) (storeView : JsValue) (sku : JsValue)
  : option PutRequest :=
  match encodeURIComponent (toStr valueToString sku) with
  | Some esku =>
      Some {| endpoint := js "/V1/products/" ++ esku;
              body := JObject [(js "product",
                                JObject (obj_spread [(js "sku", sku)] updates))];
              storeCode := storeView |}
  | None => None
  end.

(** The requests of the records that have one, in order. *)
Definition spec_requests (request : JsValue -> option PutRequest)
    (records : list JsValue) : list PutRequest :=
  omap request records.

(** The ledger write at the end of a commit under the key of [v]: what
    [persist] answers, if the handler calls it. *)
Definition ledgerWrite {Disk : Type}
    (persist : Entries -> Disk -> Outcome unit * Disk) (nowRecord : Z)
    (v : CommitPlan) (summary : jsstring) (entries : Entries) (d : Disk)
  : Outcome unit * Disk :=
  match idempotency_key v with
  | Some k =>
      if truthy (JString k)
      then persist (IdempotencyLedger.record nowRecord k
                      (js "catalog.commit_bulk_update") summary entries) d
      else (Ok tt, d)
  | None => (Ok tt, d)
  end.

(** ** Sample data *)

(** A test of the 8-4-4-4-12 hexadecimal layout, to stand for the test
    behind [z.string().uuid()] in examples. *)
Definition isHex (c : N) : bool :=
  (48 <=? c) && (c <=? 57) || (65 <=? c) && (c <=? 70)
  || (97 <=? c) && (c <=? 102).

Fixpoint hexGroups (groups : list nat) (s : jsstring) : bool :=
  match groups with
  | [] => bool_decide (s = [])
  | n :: groups' =>
      forallb isHex (take n s) && (length (take n s) =? n)%nat
      && match drop n s, groups' with
         | [], [] => true
         | 45 :: s', _ :: _ => hexGroups groups' s'
         | _, _ => false
         end
  end.

Definition uuidShape (s : jsstring) : bool :=
  hexGroups [8; 4; 4; 4; 12]%nat s.

Module Sample.

Definition planId : jsstring := js "3f2504e0-4f89-41d3-9a0c-0305e82c3301".

(** The payload of a prepared catalog update. *)
Definition pl : JsValue :=
  JObject [ (js "skus", JArray [JString (js "A-1"); JString (js "B 2");
                                JString (js "C-3")]);
            (js "updates", JObject [(js "name", JString (js "Mug"))]);
            (js "scope", JObject [(js "store_view_code",
                                   JString (js "default"))]) ].

Definition plan : BulkPlan :=
  {| plan_id := planId;
     action := js "catalog.commit_bulk_update";
     created_at := 1700000000000;
     expires_at := 1700001800000;
     payload := pl;
     affected_count := 3;
     sample_diffs := None;
     warnings := Some [] |}.

(** A plan as [cms.prepare_bulk_update_pages] stores it: its payload holds
    [page_ids], and no [skus]. *)
Definition pagePlan : BulkPlan :=
  {| plan_id := planId;
     action := js "cms.commit_bulk_update_pages";
     created_at := 1700000000000;
     expires_at := 1700001800000;
     payload :=
       JObject [ (js "page_ids", JArray [JNumber 7; JNumber 9]);
                 (js "updates", JObject [(js "title", JString (js "Sale"))]);
                 (js "scope", JObject [(js "store_view_code",
                                        JString (js "default"))]) ];
     affected_count := 2;
     sample_diffs := Some [];
     warnings := None |}.

(** A platform that counts the requests it has seen and rejects the
    second one. *)
Definition client : Client nat :=
  {| put := fun _ n =>
              (if (n =? 1)%nat then Some (js "Magento API Error (404): gone")
               else None, S n) |}.

Definition context : ActionContext nat := {| getClient := Ok client |}.

(** The engine in examples: the conversion of a value that is not a string,
    and the messages of its two [TypeError]s. *)
Definition valueToString (v : JsValue) : jsstring := js "[object Object]".

Definition cannotRead (v : JsValue) : jsstring :=
  js "Cannot read properties of undefined (reading 'scope')".

Definition notIterable (v : JsValue) : jsstring :=
  js "payload.skus is not iterable".

(** A file system that counts the snapshots written to it, and one that is
    full. *)
Definition persist (entries : Entries) (written : nat) : Outcome unit * nat :=
  (Ok tt, S written).

Definition diskFull : Exn :=
  JsError (js "ENOSPC: no space left on device, write").

Definition persistFull (entries : Entries) (written : nat) : Outcome unit * nat :=
  (Throw diskFull, written).

(** The handler in examples, on a file system that can be written. *)
Definition commit (now nowRecord : Z) (params : Params)
    (context : ActionContext nat) : M (Server nat nat) CommitResult :=
  commit_bulk_update uuidShape valueToString cannotRead notIterable persist
    defaultConfig now nowRecord params context.

Definition commitParams (reason : jsstring) (k : option jsstring) : Params :=
  let base : Params :=
    <[js "plan_id" := JString planId]>
      (<[js "confirm" := JBool true]>
         (<[js "reason" := JString reason]> ∅)) in
  match k with
  | Some k => <[js "idempotency_key" := JString k]> base
  | None => base
  end.

Definition server : Server nat nat :=
  {| plans := {[ planId := plan ]}; entries := ∅; world := 0%nat;
     disk := 0%nat; requests := [] |}.

(** A store that holds the plan of the CMS handler under the same id. *)
Definition serverWithPagePlan : Server nat nat :=
  {| plans := {[ planId := pagePlan ]}; entries := ∅; world := 0%nat;
     disk := 0%nat; requests := [] |}.

(** The ledger after a first commit under the key ["retry-1"]. *)
Definition firstEntry : IdempotencyEntry :=
  {| key := js "retry-1";
     entry_action := js "catalog.commit_bulk_update";
     entry_created_at := 1699999999000;
     result_summary := js "Updated 3/3 products. 0 errors." |}.

Definition serverWithEntry : Server nat nat :=
  {| plans := {[ planId := plan ]};
     entries := {[ js "retry-1" := firstEntry ]};
     world := 0%nat; disk := 0%nat; requests := [] |}.

Definition creds : OAuthCredentials :=
  {| consumerKey := js "ck"; consumerSecret := js "c s";
     token := js "tk"; tokenSecret := js "t*s" |}.

(** Two search criteria keys, as [buildSearchParams] names the filter groups
    1 and 10. *)
Definition searchQuery : strmap :=
  [ (js "searchCriteria[filterGroups][1][filters][0][field]", js "sku");
    (js "searchCriteria[filterGroups][10][filters][0][field]", js "name") ].

(** The two paging keys of [buildSearchParams]. *)
Definition pageQuery : strmap :=
  [ (js "searchCriteria[pageSize]", js "20");
    (js "searchCriteria[currentPage]", js "1") ].

(** A stand-in for the keyed hash in examples. *)
Definition toyMac (k msg : jsstring) : jsstring :=
  js "mac+" +++ nat_toString (length k) +++ js "/" +++ nat_toString (length msg)
  +++ js "=".

(** Another one, which keeps two messages apart: the length of the key and
    the sum of the code units of the message, each weighted by its place. *)
Definition sumMac (k msg : jsstring) : jsstring :=
  js "mac+" +++ nat_toString (length k) +++ js "/"
  +++ nat_toString
        (N.to_nat (fold_left (fun acc c => (acc * 31 + c) mod 1000003) msg 7))
  +++ js "=".

End Sample.

(** * The client, the stores and the other handlers *)

(** ** The REST client (src/client/magentoRest.ts) *)

(** The unreserved characters of RFC 3986: letters, digits and [- . _ ~]. *)
Definition isRfc3986Unreserved (c : N) : bool :=
  (65 <=? c) && (c <=? 90) || (97 <=? c) && (c <=? 122)
  || (48 <=? c) && (c <=? 57)
  || (c =? 45) || (c =? 46) || (c =? 95) || (c =? 126).

(** The upper-case hexadecimal digits. *)
Definition isUpperHex (c : N) : bool :=
  (48 <=? c) && (c <=? 57) || (65 <=? c) && (c <=? 70).

(** A string of literal characters (those [lit] accepts, never [%]) and
    [%XX] triplets with upper-case hexadecimal digits. *)
Fixpoint isEncodedWith (lit : N -> bool) (s : jsstring) : bool :=
  match s with
  | [] => true
  | c :: s1 =>
      if c =? 37 then
        match s1 with
        | h1 :: h2 :: s2 => isUpperHex h1 && isUpperHex h2 && isEncodedWith lit s2
        | _ => false
        end
      else lit c && isEncodedWith lit s1
  end.

(** A percent-encoded string in the sense of RFC 3986: unreserved
    characters and [%XX] triplets, nothing else. *)
Definition isPercentEncoded (s : jsstring) : bool :=
  isEncodedWith isRfc3986Unreserved s.

(** The number of times a code unit occurs in a string. *)
Fixpoint occurrences (c : N) (s : jsstring) : nat :=
  match s with
  | [] => 0%nat
  | x :: s' => ((if N.eqb x c then 1 else 0) + occurrences c s')%nat
  end.

Fixpoint dropSlashes (s : jsstring) : jsstring :=
  match s with
  | c :: s' => if c =? 47 then dropSlashes s' else s
  | [] => []
  end.

(** [s.replace(/\/+$/, '')]. *)
Definition stripTrailingSlashes (s : jsstring) : jsstring :=
  rev (dropSlashes (rev s)).

(** The fields of a [MagentoRestClient]; [None] is [null]. *)
Record MagentoRestClient : Type := {
  c_baseUrl : jsstring;
  c_token : option jsstring;
  c_oauth : option OAuthCredentials;
}.

(** [new MagentoRestClient(baseUrl, token)], [setToken], [setOAuth]. *)
Definition newClient (baseUrl : jsstring) (tok : option jsstring)
  : MagentoRestClient :=
  {| c_baseUrl := baseUrl; c_token := tok; c_oauth := None |}.

Definition setToken (tok : jsstring) (c : MagentoRestClient) : MagentoRestClient :=
  {| c_baseUrl := c_baseUrl c; c_token := Some tok; c_oauth := c_oauth c |}.

Definition setOAuth (credentials : OAuthCredentials) (c : MagentoRestClient)
  : MagentoRestClient :=
  {| c_baseUrl := c_baseUrl c; c_token := c_token c;
     c_oauth := Some credentials |}.

(** [MagentoRestClient.buildBaseUrl]; an absent or empty store code adds no
    scope. *)
Definition buildBaseUrl (c : MagentoRestClient) (endpoint : jsstring)
    (storeCode : option jsstring) : jsstring :=
  let base := stripTrailingSlashes (c_baseUrl c) in
  let scope := match storeCode with
               | Some sc => if truthy (JString sc) then js "/" +++ sc else []
               | None => []
               end in
  base +++ js "/rest" +++ scope +++ endpoint.

(** [MagentoRestClient.appendQueryString]; [None] is the [URIError] of
    [encodeURIComponent]. *)
Definition appendQueryString (baseUrl : jsstring) (params : option strmap)
  : option jsstring :=
  match params with
  | None | Some [] => Some baseUrl
  | Some ps =>
      qs ← traverse (fun kv =>
                       ek ← encodeURIComponent (fst kv);
                       ev ← encodeURIComponent (snd kv);
                       Some (ek +++ js "=" +++ ev)) ps;
      Some (baseUrl +++ js "?" +++ join (js "&") qs)
  end.

(** [MagentoRestClient.baseHeaders]. *)
Definition baseHeaders : strmap :=
  [ (js "Content-Type", js "application/json");
    (js "Accept", js "application/json") ].

Definition noAuthMessage : jsstring :=
  js "MagentoRestClient: No auth token or OAuth credentials set. Call auth.login first.".

Definition uriMalformed : Exn := JsError (js "URI malformed").

Section RestClient.

Variable hmacSha256Base64 : jsstring -> jsstring -> jsstring.

(** [MagentoRestClient.authHeaders], with the nonce and the clock reading
    [buildOAuthHeader] draws as arguments. *)
Definition authHeaders (c : MagentoRestClient) (nonce timestamp : jsstring)
    (method : HttpMethod) (baseUrl : jsstring) (queryParams : option strmap)
  : Outcome strmap :=
  match c_oauth c with
  | Some credentials =>
      match buildOAuthHeader hmacSha256Base64 credentials nonce timestamp
              method baseUrl queryParams with
      | Some header => Ok (obj_define (js "Authorization") header baseHeaders)
      | None => Throw uriMalformed
      end
  | None =>
      match c_token c with
      | Some tok =>
          if truthy (JString tok)
          then Ok (obj_define (js "Authorization") (js "Bearer " +++ tok)
                     baseHeaders)
          else Throw (JsError noAuthMessage)
      | None => Throw (JsError noAuthMessage)
      end
  end.

End RestClient.

(** One filter of a search, one sort order, and [MagentoSearchCriteria];
    [None] is a property left out. *)
Record SearchFilter : Type := {
  f_field : jsstring;
  f_value : jsstring;
  f_conditionType : option jsstring;
}.

Inductive SortDirection : Type := ASC | DESC.

Definition directionName (d : SortDirection) : jsstring :=
  match d with ASC => js "ASC" | DESC => js "DESC" end.

Record SortOrder : Type := {
  so_field : jsstring;
  so_direction : SortDirection;
}.

(** The keys [buildSearchParams] writes. *)
Definition filterKey (gi fi : nat) (part : jsstring) : jsstring :=
  js "searchCriteria[filterGroups][" +++ nat_toString gi +++ js "][filters]["
  +++ nat_toString fi +++ js "][" +++ part +++ js "]".

Definition sortKey (i : nat) (part : jsstring) : jsstring :=
  js "searchCriteria[sortOrders][" +++ nat_toString i +++ js "][" +++ part
  +++ js "]".

Section SearchParams.

(** [String(n)] for the page size and the page number. *)
Variable numberToString : float -> jsstring.

Record MagentoSearchCriteria : Type := {
  filterGroups : option (list (list SearchFilter));
  sortOrders : option (list SortOrder);
  pageSize : option float;
  currentPage : option float;
}.

(** The body of the inner [forEach]: one filter of group [gi] at index [fi]. *)
Definition addFilter (gi : nat) (params : strmap) (fi : nat) (filter : SearchFilter)
  : strmap :=
  let p1 := obj_set (filterKey gi fi (js "field")) (f_field filter) params in
  let p2 := obj_set (filterKey gi fi (js "value")) (f_value filter) p1 in
  match f_conditionType filter with
  | Some ct =>
      if truthy (JString ct)
      then obj_set (filterKey gi fi (js "conditionType")) ct p2
      else p2
  | None => p2
  end.

(** [xs.forEach((x, i) => ...)] over an accumulator, from index [i]. *)
Fixpoint forEachFrom {A St} (f : St -> nat -> A -> St) (i : nat) (xs : list A)
    (s : St) : St :=
  match xs with
  | [] => s
  | x :: xs' => forEachFrom f (S i) xs' (f s i x)
  end.

Definition addGroup (params : strmap) (gi : nat) (group : list SearchFilter)
  : strmap :=
  forEachFrom (addFilter gi) 0 group params.

Definition addSort (params : strmap) (i : nat) (sort : SortOrder) : strmap :=
  obj_set (sortKey i (js "direction")) (directionName (so_direction sort))
    (obj_set (sortKey i (js "field")) (so_field sort) params).

(** [MagentoRestClient.buildSearchParams]. *)
Definition buildSearchParams (criteria : MagentoSearchCriteria) : strmap :=
  let p1 := match filterGroups criteria with
            | Some groups => forEachFrom addGroup 0 groups []
            | None => []
            end in
  let p2 := match sortOrders criteria with
            | Some sorts => forEachFrom addSort 0 sorts p1
            | None => p1
            end in
  let p3 := match pageSize criteria with
            | Some n => obj_set (js "searchCriteria[pageSize]") (numberToString n) p2
            | None => p2
            end in
  match currentPage criteria with
  | Some n => obj_set (js "searchCriteria[currentPage]") (numberToString n) p3
  | None => p3
  end.

End SearchParams.

(** ** The other guardrails (src/validation/guardrails.ts) *)

Definition BULK_CAP_EXCEEDED : jsstring := js "BULK_CAP_EXCEEDED".
Definition VALIDATION_ERROR : jsstring := js "VALIDATION_ERROR".

(** [xs.includes(x)] on strings. *)
Definition includes (x : jsstring) (xs : list jsstring) : bool :=
  existsb (fun a => bool_decide (a = x)) xs.

(** [v === s] for a string [s]. *)
Definition isStringEq (v : JsValue) (s : jsstring) : bool :=
  match v with JString t => bool_decide (t = s) | _ => false end.

Module Guards.

Section Caps.

Variable numberToString : float -> jsstring.

(** [Guardrails.enforceBulkSkuCap]. *)
Definition enforceBulkSkuCap (config : McpConfig) (count : float) : Outcome unit :=
  if PrimFloat.ltb (maxSkusPerBulkCommit config) count then
    Throw (GuardrailError BULK_CAP_EXCEEDED
             (js "Bulk operation affects " +++ numberToString count
              +++ js " SKUs, exceeding the cap of "
              +++ numberToString (maxSkusPerBulkCommit config)
              +++ js ". Reduce scope or increase the cap via config.")
             (Some (JObject [(js "count", JNumber count);
                             (js "cap", JNumber (maxSkusPerBulkCommit config))])))
  else Ok tt.

(** [Guardrails.enforceCouponCap]. *)
Definition enforceCouponCap (config : McpConfig) (qty : float) : Outcome unit :=
  if PrimFloat.ltb (maxCouponQtyPerGeneration config) qty then
    Throw (GuardrailError BULK_CAP_EXCEEDED
             (js "Coupon quantity " +++ numberToString qty
              +++ js " exceeds the cap of "
              +++ numberToString (maxCouponQtyPerGeneration config) +++ js ".")
             (Some (JObject [(js "qty", JNumber qty);
                             (js "cap", JNumber (maxCouponQtyPerGeneration config))])))
  else Ok tt.

(** [Guardrails.enforceDiscountLimit]. *)
Definition enforceDiscountLimit (config : McpConfig) (simpleAction : jsstring)
    (discountAmount : float) : Outcome unit :=
  if bool_decide (simpleAction = js "by_percent")
     && PrimFloat.ltb (maxDiscountPercent config) discountAmount then
    Throw (GuardrailError VALIDATION_ERROR
             (js "Discount of " +++ numberToString discountAmount
              +++ js "% exceeds the maximum of "
              +++ numberToString (maxDiscountPercent config)
              +++ js "%. Use override if intentional.")
             (Some (JObject [(js "discountAmount", JNumber discountAmount);
                             (js "cap", JNumber (maxDiscountPercent config))])))
  else Ok tt.

End Caps.

(** The fields [enforceAllowedFields] objects to:
    [updateFields.filter((f) => !allowedFields.includes(f))]. *)
Definition disallowedFields (updateFields allowedFields : list jsstring)
  : list jsstring :=
  List.filter (fun f => negb (includes f allowedFields)) updateFields.

(** [Guardrails.enforceAllowedFields]. *)
Definition enforceAllowedFields (updateFields allowedFields : list jsstring)
    (context : jsstring) : Outcome unit :=
  let disallowed := disallowedFields updateFields allowedFields in
  if (0 <? length disallowed)%nat then
    Throw (GuardrailError VALIDATION_ERROR
             (context +++ js ": Fields not allowed for update: "
              +++ join (js ", ") disallowed)
             (Some (JObject [(js "disallowed", JArray (map JString disallowed));
                             (js "allowed", JArray (map JString allowedFields))])))
  else Ok tt.

Definition scopeMissingMessage : jsstring :=
  js "Scope must be explicitly specified for write operations (website_code, store_code, store_view_code, or scope: "
  +++ [34] +++ js "global" +++ [34] +++ js ").".

Definition scopeEmptyMessage : jsstring :=
  js "At least one scope field must be specified.".

(** The [hasScope] test, as [!hasScope] reads it. *)
Definition hasScope (scope : JsValue) : bool :=
  truthy (member scope (js "website_code"))
  || truthy (member scope (js "store_code"))
  || truthy (member scope (js "store_view_code"))
  || isStringEq (member scope (js "scope")) (js "global").

(** [Guardrails.requireExplicitScope]. *)
Definition requireExplicitScope (params : Params) : Outcome unit :=
  let scope := prop params (js "scope") in
  if negb (truthy scope) then
    Throw (GuardrailError VALIDATION_ERROR scopeMissingMessage None)
  else if negb (hasScope scope) then
    Throw (GuardrailError VALIDATION_ERROR scopeEmptyMessage None)
  else Ok tt.

End Guards.

(** [config.allowedCatalogUpdateFields] of the default configuration. *)
Definition allowedCatalogUpdateFields : list jsstring :=
  [ js "name"; js "description"; js "short_description"; js "meta_title";
    js "meta_description"; js "meta_keyword"; js "url_key"; js "status";
    js "visibility"; js "price"; js "special_price"; js "special_from_date";
    js "special_to_date"; js "weight"; js "category_ids" ].

(** ** Sessions (src/session/sessionStore.ts) *)

(** [StoreScope]; [scope_global] says that [scope: 'global'] is set. *)
Record StoreScope : Type := {
  website_code : option jsstring;
  store_code : option jsstring;
  store_view_code : option jsstring;
  scope_global : bool;
}.

(** [SessionData]; [createdAt] is held as the instant it denotes. *)
Record SessionData : Type := {
  sessionId : jsstring;
  s_baseUrl : jsstring;
  s_token : jsstring;
  s_username : jsstring;
  defaultScope : option StoreScope;
  createdAt : Z;
  s_oauth : option OAuthCredentials;
}.

Abbreviation Sessions := (gmap jsstring SessionData).

Module SessionStore.

(** [SessionStore.create]. *)
Definition create (now : Z) (sid baseUrl tok username : jsstring)
    (sessions : Sessions) : SessionData * Sessions :=
  let session := {| sessionId := sid; s_baseUrl := baseUrl; s_token := tok;
                    s_username := username; defaultScope := None;
                    createdAt := now; s_oauth := None |} in
  (session, <[ sid := session ]> sessions).

(** [SessionStore.createOAuth]. *)
Definition createOAuth (now : Z) (sid baseUrl : jsstring)
    (oauthCreds : OAuthCredentials) (username : jsstring) (sessions : Sessions)
  : SessionData * Sessions :=
  let session := {| sessionId := sid; s_baseUrl := baseUrl;
                    s_token := js "oauth"; s_username := username;
                    defaultScope := None; createdAt := now;
                    s_oauth := Some oauthCreds |} in
  (session, <[ sid := session ]> sessions).

(** [SessionStore.get]. *)
Definition get (sid : jsstring) (sessions : Sessions) : option SessionData :=
  sessions !! sid.

(** [SessionStore.setDefaultScope]: the session in the map is the object
    that is changed. *)
Definition setDefaultScope (sid : jsstring) (scope : StoreScope)
    (sessions : Sessions) : Sessions :=
  match sessions !! sid with
  | Some session =>
      <[ sid := {| sessionId := sessionId session;
                   s_baseUrl := s_baseUrl session;
                   s_token := s_token session;
                   s_username := s_username session;
                   defaultScope := Some scope;
                   createdAt := createdAt session;
                   s_oauth := s_oauth session |} ]> sessions
  | None => sessions
  end.

(** [SessionStore.destroy]. *)
Definition destroy (sid : jsstring) (sessions : Sessions) : bool * Sessions :=
  (bool_decide (is_Some (sessions !! sid)), delete sid sessions).

(** The getters: [this.sessions.get(sessionId)?.f ?? null]. *)
Definition getToken (sid : jsstring) (sessions : Sessions) : option jsstring :=
  s_token <$> sessions !! sid.

Definition getBaseUrl (sid : jsstring) (sessions : Sessions) : option jsstring :=
  s_baseUrl <$> sessions !! sid.

Definition getUsername (sid : jsstring) (sessions : Sessions) : option jsstring :=
  s_username <$> sessions !! sid.

Definition getDefaultScope (sid : jsstring) (sessions : Sessions)
  : option StoreScope :=
  sessions !! sid ≫= defaultScope.

Definition getOAuthCredentials (sid : jsstring) (sessions : Sessions)
  : option OAuthCredentials :=
  sessions !! sid ≫= s_oauth.

End SessionStore.

(** ** The tool wrapper (src/index.ts) *)

Module Dispatcher.

Definition noSession : Exn := JsError (js "No active session").

(** The check [action.requiresAuth && !token] failing: the call goes on. *)
Definition authenticated (requiresAuth : bool) (sid : jsstring)
    (sessions : Sessions) : bool :=
  negb (requiresAuth
        && negb (match SessionStore.getToken sid sessions with
                 | Some tok => truthy (JString tok)
                 | None => false
                 end)).

(** [context.getClient]. *)
Definition getClient (sid : jsstring) (sessions : Sessions)
  : Outcome MagentoRestClient :=
  let baseUrl := SessionStore.getBaseUrl sid sessions in
  let tok := SessionStore.getToken sid sessions in
  match baseUrl with
  | Some b =>
      if truthy (JString b) then
        let client := newClient b tok in
        match SessionStore.getOAuthCredentials sid sessions with
        | Some oauth => Ok (setOAuth oauth client)
        | None => Ok client
        end
      else Throw noSession
  | None => Throw noSession
  end.

End Dispatcher.

(** ** The audit log (src/audit/auditLogger.ts) *)

(** [AuditRecord]; [None] is [null], and for [a_params] a missing
    property. The plan id and the reason hold whatever the caller passed
    under these names, or [null]. *)
Record AuditRecord : Type := {
  a_timestamp : jsstring;
  a_username : option jsstring;
  a_action : jsstring;
  a_scope : option StoreScope;
  a_params : option (list (jsstring * JsValue));
  a_result_summary : jsstring;
  a_plan_id : JsValue;
  a_reason : JsValue;
}.

(** [delete o[k]] on a copy. *)
Definition obj_delete {V} (k : jsstring) (o : list (jsstring * V))
  : list (jsstring * V) :=
  List.filter (fun kv => negb (bool_decide (fst kv = k))) o.

Module AuditLogger.

(** The record [log] serialises: a copy whose parameters, when there are
    any, are a copy without [password] and [token]. *)
Definition sanitized (record : AuditRecord) : AuditRecord :=
  {| a_timestamp := a_timestamp record;
     a_username := a_username record;
     a_action := a_action record;
     a_scope := a_scope record;
     a_params :=
       match a_params record with
       | Some p => Some (obj_delete (js "token") (obj_delete (js "password") p))
       | None => None
       end;
     a_result_summary := a_result_summary record;
     a_plan_id := a_plan_id record;
     a_reason := a_reason record |}.

Section Log.

(** [JSON.stringify] on audit records. *)
Variable stringify : AuditRecord -> jsstring.

(** [AuditLogger.log] on the content of the log file (empty when the file
    is not there yet). *)
Definition log (record : AuditRecord) (file : jsstring) : jsstring :=
  file +++ stringify (sanitized record) +++ [10].

End Log.

End AuditLogger.

(** ** The ledger file (src/session/idempotencyLedger.ts) *)

(** What [load] finds at the ledger's path: no file, a file that cannot be
    read or parsed, JSON that is not an array, or an array of entries. *)
Inductive LedgerFile : Type :=
| NoFile
| Unreadable
| NotAnArray
| EntryArray (data : list IdempotencyEntry).

Module LedgerStore.

(** [IdempotencyLedger.load], from the empty map of a new ledger. *)
Definition load (file : LedgerFile) : Entries :=
  match file with
  | EntryArray data =>
      fold_left (fun (m : Entries) entry => <[ key entry := entry ]> m) data ∅
  | NoFile | Unreadable | NotAnArray => ∅
  end.

(** [IdempotencyLedger.persist]: the file holds the values of the map. *)
Definition persist (entries : Entries) : LedgerFile :=
  EntryArray (map_to_list entries).*2.

(** The order [Array.from(this.entries.values())] gives the values in is
    the order of insertion, which the map of the model does not keep: the
    arrays [persist] may write are the values of the map in any order. *)
Definition persisted (entries : Entries) (data : list IdempotencyEntry) : Prop :=
  data ≡ₚ (map_to_list entries).*2.

(** Every entry sits under its own key. *)
Definition keyed (entries : Entries) : Prop :=
  map_Forall (fun k entry => key entry = k) entries.

(** One call of [record]: its clock reading and arguments. *)
Record RecordCall : Type := {
  r_now : Z;
  r_key : jsstring;
  r_action : jsstring;
  r_summary : jsstring;
}.

Definition recordCall (entries : Entries) (call : RecordCall) : Entries :=
  IdempotencyLedger.record (r_now call) (r_key call) (r_action call)
    (r_summary call) entries.

End LedgerStore.

(** ** The purge rate limiter (src/actions/cache.ts) *)

(** [rateLimitState]. *)
Record RateLimitState : Type := {
  count : nat;
  windowStart : Z;
}.

Definition windowMs : Z := 60000.

Section RateLimit.

(** The limit in the error message. *)
Variable limitToString : Z -> jsstring.

Definition rateLimitExceeded (limit : Z) : Exn :=
  JsError (js "Rate limit exceeded: " +++ limitToString limit
           +++ js " purge operations per minute.").

(** [checkRateLimit]; [limit] is [config.cachePurgeRateLimitPerMinute], an
    integer as [parseIntEnv] reads it, and [now] the reading of
    [Date.now()]. *)
Definition checkRateLimit (limit : Z) (now : Z) (st : RateLimitState)
  : Outcome unit * RateLimitState :=
  let st1 := if (windowMs <? now - windowStart st)%Z
             then {| count := 0; windowStart := now |}
             else st in
  let st2 := {| count := S (count st1); windowStart := windowStart st1 |} in
  if (limit <? Z.of_nat (count st2))%Z
  then (Throw (rateLimitExceeded limit), st2)
  else (Ok tt, st2).

(** One call in a run of calls: when it came, the window it was counted in,
    and whether it was let through. *)
Record LimitedCall : Type := {
  t_now : Z;
  t_window : Z;
  t_passed : bool;
}.

(** The calls made at the given clock readings, one after the other. *)
Fixpoint limitedCalls (limit : Z) (times : list Z) (st : RateLimitState)
  : list LimitedCall :=
  match times with
  | [] => []
  | now :: rest =>
      let '(r, st') := checkRateLimit limit now st in
      {| t_now := now; t_window := windowStart st';
         t_passed := match r with Ok _ => true | Throw _ => false end |}
      :: limitedCalls limit rest st'
  end.

(** The limiter after the calls made at the given clock readings. *)
Fixpoint limiterAfter (limit : Z) (times : list Z) (st : RateLimitState)
  : RateLimitState :=
  match times with
  | [] => st
  | now :: rest => limiterAfter limit rest (checkRateLimit limit now st).2
  end.

End RateLimit.

(** The calls counted in window [w], whether let through or refused. *)
Definition countedIn (w : Z) (calls : list LimitedCall) : nat :=
  length (List.filter (fun c => (t_window c =? w)%Z) calls).

(** The calls of window [w] that were let through. *)
Definition passedIn (w : Z) (calls : list LimitedCall) : nat :=
  length (List.filter (fun c => (t_window c =? w)%Z && t_passed c) calls).

(** What window [w] can still let through, seen from a state of the
    limiter. *)
Definition room (limit : Z) (st : RateLimitState) (w : Z) : nat :=
  if decide (w = windowStart st) then Z.to_nat limit - count st
  else if decide (w < windowStart st)%Z then 0
  else Z.to_nat limit.

(** ** Making a plan (src/session/planStore.ts) *)

(** An integer as a JavaScript number (exact below 2^53 in size). *)
Definition floatOfZ (z : Z) : float :=
  if (z <? 0)%Z then PrimFloat.opp (PrimFloat.of_uint63 (Uint63.of_Z (- z)))
  else PrimFloat.of_uint63 (Uint63.of_Z z).

(** The integer part of a finite number. *)
Definition truncToZ (x : float) : option Z :=
  match Prim2SF x with
  | S754_zero _ => Some 0%Z
  | S754_finite s m e =>
      let mag := if (0 <=? e)%Z then (Zpos m * 2 ^ e)%Z
                 else (Zpos m / 2 ^ (- e))%Z in
      Some (if s then (- mag)%Z else mag)
  | S754_infinity _ | S754_nan => None
  end.

(** The time value of [new Date(t)]; [None] is an invalid date. *)
Definition timeClip (t : float) : option Z :=
  match truncToZ t with
  | Some ms => if (Z.abs ms <=? 8640000000000000)%Z then Some ms else None
  | None => None
  end.

(** The [RangeError] of [toISOString] on an invalid date. *)
Definition invalidTime : Exn := JsError (js "Invalid time value").

(** [PlanStore.create]; [uuid] is what [uuidv4()] draws and [now] the
    reading of [new Date()]. *)
Definition PlanStore_create (uuid : jsstring) (now : Z) (action : jsstring)
    (payload : JsValue) (affectedCount : nat) (expiryMinutes : float)
    (sampleDiffs : option (list JsValue)) (warnings : option (list jsstring))
    (plans : Plans) : Outcome BulkPlan * Plans :=
  match timeClip (floatOfZ now + expiryMinutes * 60000)%float with
  | Some expires =>
      let plan := {| plan_id := uuid; action := action; created_at := now;
                     expires_at := expires; payload := payload;
                     affected_count := affectedCount;
                     sample_diffs := sampleDiffs; warnings := warnings |} in
      (Ok plan, <[ uuid := plan ]> plans)
  | None => (Throw invalidTime, plans)
  end.

(** ** Preparing a catalog update (src/actions/catalog.ts) *)

(** A product as the platform returns it: its [sku], a string, and its other
    properties. *)
Record Product : Type := {
  p_sku : jsstring;
  p_props : list (jsstring * JsValue);
}.

(** [p[field]]. *)
Definition productField (p : Product) (field : jsstring) : JsValue :=
  if decide (field = js "sku") then JString (p_sku p)
  else default JUndefined (obj_get field (p_props p)).

(** What [CatalogBulkMatchSchema] and [PrepareBulkUpdateSchema] return. *)
Record CatalogBulkMatch : Type := {
  sku_list : option (list jsstring);
  sku_prefix : option jsstring;
  attribute_filters : option (list (jsstring * JsValue));
  category_id : option float;
}.

Record PrepareBulkUpdate : Type := {
  v_match : CatalogBulkMatch;
  v_updates : list (jsstring * JsValue);
  v_scope : StoreScope;
}.

(** The properties of a parsed scope: those that are set. *)
Definition scopeEntries (scope : StoreScope) : strmap :=
  match website_code scope with Some c => [(js "website_code", c)] | None => [] end
  ++ match store_code scope with Some c => [(js "store_code", c)] | None => [] end
  ++ match store_view_code scope with
     | Some c => [(js "store_view_code", c)] | None => [] end
  ++ (if scope_global scope then [(js "scope", js "global")] else []).

(** [validated.scope] as a value. *)
Definition scopeValue (scope : StoreScope) : JsValue :=
  JObject (map (fun kv => (fst kv, JString (snd kv))) (scopeEntries scope)).

(** The payload of a catalog plan:
    [{ skus: products.map(p => p['sku']), updates: validated.updates,
       scope: validated.scope }]. *)
Definition catalogPayload (skus : list jsstring)
    (updates : list (jsstring * JsValue)) (scope : JsValue) : JsValue :=
  JObject [ (js "skus", JArray (map JString skus));
            (js "updates", JObject updates);
            (js "scope", scope) ].

(** What the handler returns. *)
Record PrepareResult : Type := {
  r_plan_id : jsstring;
  r_expires_at : Z;
  r_affected_count : nat;
  r_sample_diffs : list JsValue;
  r_warnings : list jsstring;
  r_message : jsstring;
}.

Definition largeUpdateWarning (n : nat) : jsstring :=
  js "Large bulk update: " +++ nat_toString n
  +++ js " products will be affected.".

(** One entry of [sampleDiffs]. *)
Definition sampleDiff (updates : list (jsstring * JsValue)) (p : Product)
  : JsValue :=
  JObject [ (js "sku", JString (p_sku p));
            (js "changes",
             JObject (fold_left
                        (fun diff kv =>
                           obj_set (fst kv)
                             (JObject [(js "from", productField p (fst kv));
                                       (js "to", snd kv)]) diff)
                        updates [])) ].

Section PrepareCatalog.

Variable World : Type.
Variable Disk : Type.

(** [String(v)] for a value that is not a string, and for a number. *)
Variable valueToString : JsValue -> jsstring.
Variable numberToString : float -> jsstring.

(** [PrepareBulkUpdateSchema.parse]. *)
Variable PrepareBulkUpdateSchema_parse : Params -> Outcome PrepareBulkUpdate.

Variable config : McpConfig.

(** [client.get<{ items }>('/V1/products', searchParams, storeCode)] on the
    platform: the [items] of the answer ([None] when there are none), or the
    error thrown. *)
Record SearchClient : Type := {
  getProducts : strmap -> option jsstring -> World
                -> Outcome (option (list Product)) * World;
}.

Record PrepareContext : Type := {
  p_getClient : Outcome SearchClient;
}.

(** The filter an entry of [attribute_filters] becomes. *)
Definition attributeFilter (field : jsstring) (spec : JsValue) : SearchFilter :=
  match spec with
  | JObject _ | JArray _ =>
      let value := member spec (js "value") in
      let condition := member spec (js "condition") in
      {| f_field := field;
         f_value := if truthy value then toStr valueToString value else [];
         f_conditionType :=
           Some (if truthy condition then toStr valueToString condition
                 else js "eq") |}
  | _ =>
      {| f_field := field; f_value := toStr valueToString spec;
         f_conditionType := Some (js "eq") |}
  end.

(** The filter groups [resolveMatchingProducts] builds. *)
Definition matchFilterGroups (m : CatalogBulkMatch) : list (list SearchFilter) :=
  match sku_list m with
  | Some l =>
      if (0 <? length l)%nat
      then [[ {| f_field := js "sku"; f_value := join (js ",") l;
                 f_conditionType := Some (js "in") |} ]]
      else []
  | None => []
  end
  ++ match sku_prefix m with
     | Some p =>
         if truthy (JString p)
         then [[ {| f_field := js "sku"; f_value := p +++ js "%";
                    f_conditionType := Some (js "like") |} ]]
         else []
     | None => []
     end
  ++ match attribute_filters m with
     | Some fs => map (fun kv => [attributeFilter (fst kv) (snd kv)]) fs
     | None => []
     end
  ++ match category_id m with
     | Some c =>
         if truthy (JNumber c)
         then [[ {| f_field := js "category_id"; f_value := numberToString c;
                    f_conditionType := Some (js "eq") |} ]]
         else []
     | None => []
     end.

(** The search parameters of [resolveMatchingProducts]. *)
Definition matchSearchParams (m : CatalogBulkMatch) : strmap :=
  let groups := matchFilterGroups m in
  buildSearchParams numberToString
    {| filterGroups := if (0 <? length groups)%nat then Some groups else None;
       sortOrders := None; pageSize := Some 2000%float; currentPage := None |}.

(** [resolveMatchingProducts]. *)
Definition resolveMatchingProducts (client : SearchClient)
    (m : CatalogBulkMatch) (storeCode : option jsstring) (w : World)
  : Outcome (list Product) * World :=
  match getProducts client (matchSearchParams m) storeCode w with
  | (Ok items, w') => (Ok (default [] items), w')
  | (Throw e, w') => (Throw e, w')
  end.

(** The handler of [catalog.prepare_bulk_update]. *)
Definition prepare_bulk_update (uuid : jsstring) (now : Z) (params : Params)
    (context : PrepareContext) : M (Server World Disk) PrepareResult :=
  do validated <- lift (PrepareBulkUpdateSchema_parse params);
  do _ <- lift (Guards.enforceAllowedFields (obj_keys (v_updates validated))
                  allowedCatalogUpdateFields (js "Catalog bulk update"));
  do client <- lift (p_getClient context);
  do products <- (fun s =>
      let '(r, w) := resolveMatchingProducts client (v_match validated)
                       (store_view_code (v_scope validated)) (world s) in
      (r, {| plans := plans s; entries := entries s; world := w;
             disk := disk s; requests := requests s |}));
  do _ <- lift (Guards.enforceBulkSkuCap numberToString config
                  (floatOfZ (Z.of_nat (length products))));
  let sampleDiffs := map (sampleDiff (v_updates validated)) (take 5 products) in
  let warnings := if (100 <? length products)%nat
                  then [largeUpdateWarning (length products)] else [] in
  do plan <- (fun s =>
      let '(r, plans') :=
        PlanStore_create uuid now (js "catalog.commit_bulk_update")
          (catalogPayload (map p_sku products) (v_updates validated)
             (scopeValue (v_scope validated)))
          (length products) (planExpiryMinutes config)
          (Some sampleDiffs) (Some warnings) (plans s) in
      (r, {| plans := plans'; entries := entries s; world := world s;
             disk := disk s; requests := requests s |}));
  ret {| r_plan_id := plan_id plan;
         r_expires_at := expires_at plan;
         r_affected_count := length products;
         r_sample_diffs := sampleDiffs;
         r_warnings := warnings;
         r_message := js "Plan created. Review and call catalog.commit_bulk_update to execute." |}.

End PrepareCatalog.

Arguments getProducts {World} _ _ _ _.
Arguments p_getClient {World} _.
Arguments prepare_bulk_update {World Disk} valueToString numberToString
  PrepareBulkUpdateSchema_parse config uuid now params context _.

(** A plan as [catalog.prepare_bulk_update] lets it into the store: its
    payload is that of a catalog plan, and every field it updates is an
    allowed one. *)
Definition vetted (plan : BulkPlan) : Prop :=
  exists (skus : list jsstring) (updates : list (jsstring * JsValue))
         (scope : JsValue),
    payload plan = catalogPayload skus updates scope
    /\ Forall (fun kv => In (fst kv) allowedCatalogUpdateFields) updates.

(** A prepare call for examples: two products match, and the platform is
    left as it was. *)
Module SamplePrepare.

Definition validated : PrepareBulkUpdate :=
  {| v_match := {| sku_list := Some [js "A-1"; js "B 2"]; sku_prefix := None;
                   attribute_filters := None; category_id := None |};
     v_updates := [(js "name", JString (js "Mug"))];
     v_scope := {| website_code := None; store_code := None;
                   store_view_code := Some (js "default");
                   scope_global := false |} |}.

Definition client : SearchClient nat :=
  {| getProducts := fun _ _ n =>
       (Ok (Some [ {| p_sku := js "A-1"; p_props := [(js "name", JString (js "Cup"))] |};
                   {| p_sku := js "B 2"; p_props := [] |} ]), n) |}.

Definition context : PrepareContext nat := {| p_getClient := Ok client |}.

Definition run : Outcome PrepareResult * Server nat nat :=
  prepare_bulk_update (fun _ => js "?") (fun _ => js "?")
    (fun _ => Ok validated) defaultConfig
    (js "0b0e7a52-5c1c-4e0e-9f43-0d2f45a1c001") 1700000000000 ∅ context
    {| plans := ∅; entries := ∅; world := 0%nat; disk := 0%nat;
       requests := [] |}.

End SamplePrepare.

(** ** One tool call (src/index.ts) *)

Definition NOT_AUTHENTICATED : jsstring := js "NOT_AUTHENTICATED".

(** [v || null]. *)
Definition orNull (v : JsValue) : JsValue := if truthy v then v else JNull.

(** [Object.keys(v)] of an object or an array. *)
Definition ownKeys (v : JsValue) : list jsstring :=
  match v with
  | JObject props => obj_keys props
  | JArray items => map nat_toString (seq 0 (length items))
  | _ => []
  end.

(** What a tool call answers: the text of its content and the error mark. *)
Record ToolResult : Type := {
  t_text : jsstring;
  t_isError : bool;
}.

Section ToolCall.

(** What the handlers work on besides the sessions. *)
Variable St : Type.

(** [String(v)] for a value that is not a string, the message of a
    [ZodError], and [JSON.stringify] on results and on audit records. *)
Variable valueToString : JsValue -> jsstring.
Variable zodMessage : jsstring.
Variable stringifyResult : JsValue -> jsstring.
Variable stringifyRecord : AuditRecord -> jsstring.

(** An action as the wrapper uses it. The context a handler gets reads the
    session store when asked, so the handler runs on the sessions. *)
Record ActionDefinition : Type := {
  a_name : jsstring;
  requiresAuth : bool;
  handler : Params -> Sessions * St -> Outcome JsValue * (Sessions * St);
}.

(** The session store, the state of the handlers, and the audit file. *)
Record Host : Type := {
  h_sessions : Sessions;
  h_state : St;
  h_audit : jsstring;
}.

(** [err instanceof Error ? err.message : String(err)]. *)
Definition errorMessage (e : Exn) : jsstring :=
  match e with
  | GuardrailError _ message _ => message
  | ZodError => zodMessage
  | JsError message => message
  end.

(** [summarizeResult]. *)
Definition summarizeResult (result : JsValue) : jsstring :=
  match result with
  | JNull | JUndefined => js "null"
  | JObject _ | JArray _ =>
      if truthy (member result (js "message"))
      then toStr valueToString (member result (js "message"))
      else
        match member result (js "total_count") with
        | JUndefined =>
            js "object with keys: " +++ join (js ", ") (ownKeys result)
        | n => js "total_count: " +++ toStr valueToString n
        end
  | _ => toStr valueToString result
  end.

Definition notAuthenticated : JsValue :=
  JObject [(js "error",
            JObject [(js "code", JString NOT_AUTHENTICATED);
                     (js "message",
                      JString (js "Not authenticated. Call auth_login first."))])].

(** The callback registered for an action, for the session [sid];
    [timestamp] is what [new Date().toISOString()] gives when the record is
    made. The record holds the parameters as the list of their properties
    (in the order of the map of the model). *)
Definition callTool (sid : jsstring) (action : ActionDefinition)
    (params : Params) (timestamp : jsstring) (h : Host) : ToolResult * Host :=
  if negb (Dispatcher.authenticated (requiresAuth action) sid (h_sessions h))
  then ({| t_text := stringifyResult notAuthenticated; t_isError := true |}, h)
  else
    let username := SessionStore.getUsername sid (h_sessions h) in
    match handler action params (h_sessions h, h_state h) with
    | (Ok result, (sessions', st')) =>
        let record :=
          {| a_timestamp := timestamp;
             a_username := username;
             a_action := a_name action;
             a_scope := SessionStore.getDefaultScope sid sessions';
             a_params := Some (map_to_list params);
             a_result_summary := summarizeResult result;
             a_plan_id := orNull (prop params (js "plan_id"));
             a_reason := orNull (prop params (js "reason")) |} in
        ({| t_text := stringifyResult result; t_isError := false |},
         {| h_sessions := sessions'; h_state := st';
            h_audit := AuditLogger.log stringifyRecord record (h_audit h) |})
    | (Throw e, (sessions', st')) =>
        let record :=
          {| a_timestamp := timestamp;
             a_username := username;
             a_action := a_name action;
             a_scope := None;
             a_params := Some (map_to_list params);
             a_result_summary := js "ERROR: " +++ errorMessage e;
             a_plan_id := JNull;
             a_reason := JNull |} in
        ({| t_text := stringifyResult
                        (JObject [(js "error", JString (errorMessage e))]);
            t_isError := true |},
         {| h_sessions := sessions'; h_state := st';
            h_audit := AuditLogger.log stringifyRecord record (h_audit h) |})
    end.

End ToolCall.

Arguments a_name {St} _.
Arguments requiresAuth {St} _.
Arguments handler {St} _ _ _.
Arguments h_sessions {St} _.
Arguments h_state {St} _.
Arguments h_audit {St} _.

(** ** Requests and responses (src/client/magentoRest.ts) *)

(** The arguments of one [fetch(url, { method, headers, body })]. *)
Record FetchRequest : Type := {
  q_url : jsstring;
  q_method : HttpMethod;
  q_headers : strmap;
  q_body : option jsstring;
}.

(** A [Response]: [ok], [status], and the text of the body. *)
Record Response : Type := {
  r_ok : bool;
  r_status : nat;
  r_text : jsstring;
}.

(** What a client method throws: a [MagentoApiException] with its status
    code, message and parameters, or another error. *)
Inductive RestExn : Type :=
| MagentoApiException (statusCode : nat) (message : jsstring)
    (parameters : JsValue)
| OtherError (e : Exn).

Inductive RestOutcome (A : Type) : Type :=
| Resolved (a : A)
| Rejected (e : RestExn).
Arguments Resolved {A} a.
Arguments Rejected {A} e.

(** The message of [new MagentoApiException(statusCode, message)]. *)
Definition apiMessage (statusCode : nat) (message : jsstring) : jsstring :=
  js "Magento API Error (" +++ nat_toString statusCode +++ js "): " +++ message.

Section Rest.

(** The network: its state, and what one [fetch] does to it ([Throw] when
    the promise rejects). *)
Variable Net : Type.
Variable fetch : FetchRequest -> Net -> Outcome Response * Net.

(** [JSON.parse] ([None] when it throws), [JSON.stringify], [String(v)] for
    a value that is not a string, and the keyed hash. *)
Variable jsonParse : jsstring -> option JsValue.
Variable jsonStringify : JsValue -> jsstring.
Variable valueToString : JsValue -> jsstring.
Variable hmacSha256Base64 : jsstring -> jsstring -> jsstring.

(** The network and the requests sent so far (a history kept for the
    proofs). *)
Record Wire : Type := {
  net : Net;
  sent : list FetchRequest;
}.

(** [MagentoRestClient.handleResponse]. *)
Definition handleResponse (response : Response) : RestOutcome JsValue :=
  match jsonParse (r_text response) with
  | None =>
      if negb (r_ok response) then
        Rejected (MagentoApiException (r_status response)
                    (apiMessage (r_status response) (r_text response))
                    JUndefined)
      else Resolved (JString (r_text response))
  | Some data =>
      if negb (r_ok response) then
        let message := match member data (js "message") with
                       | JUndefined | JNull => r_text response
                       | m => toStr valueToString m
                       end in
        Rejected (MagentoApiException (r_status response)
                    (apiMessage (r_status response) message)
                    (member data (js "parameters")))
      else Resolved data
  end.

(** [await fetch(url, init)] followed by [handleResponse]. *)
Definition send (req : FetchRequest) (w : Wire) : RestOutcome JsValue * Wire :=
  let '(r, n) := fetch req (net w) in
  let w' := {| net := n; sent := sent w ++ [req] |} in
  match r with
  | Ok response => (handleResponse response, w')
  | Throw e => (Rejected (OtherError e), w')
  end.

(** A request whose headers are [authHeaders(method, baseUrl, queryParams)]:
    the headers are made before [fetch] is called. *)
Definition sendAuthorized (c : MagentoRestClient) (nonce timestamp : jsstring)
    (method : HttpMethod) (baseUrl url : jsstring) (queryParams : option strmap)
    (body : option jsstring) (w : Wire) : RestOutcome JsValue * Wire :=
  match authHeaders hmacSha256Base64 c nonce timestamp method baseUrl
          queryParams with
  | Ok headers =>
      send {| q_url := url; q_method := method; q_headers := headers;
              q_body := body |} w
  | Throw e => (Rejected (OtherError e), w)
  end.

(** [MagentoRestClient.get]; [nonce] and [timestamp] are what
    [buildOAuthHeader] draws if it is called. *)
Definition rest_get (c : MagentoRestClient) (nonce timestamp : jsstring)
    (endpoint : jsstring) (params : option strmap) (storeCode : option jsstring)
    (w : Wire) : RestOutcome JsValue * Wire :=
  let baseUrl := buildBaseUrl c endpoint storeCode in
  match appendQueryString baseUrl params with
  | None => (Rejected (OtherError uriMalformed), w)
  | Some url =>
      sendAuthorized c nonce timestamp GET baseUrl url params None w
  end.

(** [MagentoRestClient.post]. *)
Definition rest_post (c : MagentoRestClient) (nonce timestamp : jsstring)
    (endpoint : jsstring) (body : JsValue) (requireAuth : bool)
    (storeCode : option jsstring) (w : Wire) : RestOutcome JsValue * Wire :=
  let baseUrl := buildBaseUrl c endpoint storeCode in
  if requireAuth then
    sendAuthorized c nonce timestamp POST baseUrl baseUrl None
      (Some (jsonStringify body)) w
  else
    send {| q_url := baseUrl; q_method := POST; q_headers := baseHeaders;
            q_body := Some (jsonStringify body) |} w.

(** [MagentoRestClient.put]. *)
Definition rest_put (c : MagentoRestClient) (nonce timestamp : jsstring)
    (endpoint : jsstring) (body : JsValue) (storeCode : option jsstring)
    (w : Wire) : RestOutcome JsValue * Wire :=
  let baseUrl := buildBaseUrl c endpoint storeCode in
  sendAuthorized c nonce timestamp PUT baseUrl baseUrl None
    (Some (jsonStringify body)) w.

(** [MagentoRestClient.delete]. *)
Definition rest_delete (c : MagentoRestClient) (nonce timestamp : jsstring)
    (endpoint : jsstring) (storeCode : option jsstring) (w : Wire)
  : RestOutcome JsValue * Wire :=
  let baseUrl := buildBaseUrl c endpoint storeCode in
  sendAuthorized c nonce timestamp DELETE baseUrl baseUrl None None w.

(** [MagentoRestClient.getAdminToken]. *)
Definition getAdminToken (c : MagentoRestClient) (nonce timestamp : jsstring)
    (username password : jsstring) (w : Wire) : RestOutcome JsValue * Wire :=
  rest_post c nonce timestamp (js "/V1/integration/admin/token")
    (JObject [(js "username", JString username);
              (js "password", JString password)])
    false None w.

(** The calls of the four methods that must be authorised. *)
Inductive RestCall : Type :=
| CallGet (endpoint : jsstring) (params : option strmap)
    (storeCode : option jsstring)
| CallPost (endpoint : jsstring) (body : JsValue) (storeCode : option jsstring)
| CallPut (endpoint : jsstring) (body : JsValue) (storeCode : option jsstring)
| CallDelete (endpoint : jsstring) (storeCode : option jsstring).

Definition runCall (c : MagentoRestClient) (nonce timestamp : jsstring)
    (call : RestCall) (w : Wire) : RestOutcome JsValue * Wire :=
  match call with
  | CallGet endpoint params storeCode =>
      rest_get c nonce timestamp endpoint params storeCode w
  | CallPost endpoint body storeCode =>
      rest_post c nonce timestamp endpoint body true storeCode w
  | CallPut endpoint body storeCode =>
      rest_put c nonce timestamp endpoint body storeCode w
  | CallDelete endpoint storeCode =>
      rest_delete c nonce timestamp endpoint storeCode w
  end.

Definition callMethod (call : RestCall) : HttpMethod :=
  match call with
  | CallGet _ _ _ => GET
  | CallPost _ _ _ => POST
  | CallPut _ _ _ => PUT
  | CallDelete _ _ => DELETE
  end.

Definition callEndpoint (call : RestCall) : jsstring :=
  match call with
  | CallGet e _ _ | CallPost e _ _ | CallPut e _ _ | CallDelete e _ => e
  end.

Definition callStore (call : RestCall) : option jsstring :=
  match call with
  | CallGet _ _ s | CallPost _ _ s | CallPut _ _ s | CallDelete _ s => s
  end.

Definition callParams (call : RestCall) : option strmap :=
  match call with
  | CallGet _ params _ => params
  | _ => None
  end.

End Rest.

Arguments net {Net} _.
Arguments sent {Net} _.

(** ** The commit handler over the REST client *)

Section RestCatalog.

Variable Net : Type.
Variable fetch : FetchRequest -> Net -> Outcome Response * Net.
Variable jsonParse : jsstring -> option JsValue.
Variable jsonStringify : JsValue -> jsstring.
Variable valueToString : JsValue -> jsstring.
Variable hmacSha256Base64 : jsstring -> jsstring -> jsstring.
Variable zodMessage : jsstring.

(** The nonce and the clock reading a request draws. *)
Variable draw : Net -> jsstring * jsstring.

(** [err instanceof Error ? err.message : String(err)] on what a client
    method throws. *)
Definition restMessage (e : RestExn) : jsstring :=
  match e with
  | MagentoApiException _ message _ => message
  | OtherError e => errorMessage zodMessage e
  end.

(** [buildBaseUrl] as [put] calls it from the commit handler, where the
    store code is a value of any type: a truthy one is converted to a string
    by the template, a falsy one adds no scope. *)
Definition putUrl (c : MagentoRestClient) (endpoint : jsstring)
    (storeCode : JsValue) : jsstring :=
  let base := stripTrailingSlashes (c_baseUrl c) in
  let scope := if truthy storeCode
               then js "/" +++ toStr valueToString storeCode else [] in
  base +++ js "/rest" +++ scope +++ endpoint.

(** The client of a session as the commit handler uses it: [client.put] on
    the network. *)
Definition restClient (c : MagentoRestClient) : Client (Wire Net) :=
  {| put := fun req w =>
       let '(nonce, timestamp) := draw (net w) in
       let baseUrl := putUrl c (endpoint req) (storeCode req) in
       match sendAuthorized Net fetch jsonParse valueToString hmacSha256Base64
               c nonce timestamp PUT baseUrl baseUrl None
               (Some (jsonStringify (body req))) w with
       | (Resolved _, w') => (None, w')
       | (Rejected e, w') => (Some (restMessage e), w')
       end |}.

(** Follows the description of the interface (spec, section 6), for
    comparison with what [restClient] sends: the [fetch] of one product
    update by a client with a bearer token is a [PUT] to
    [base/rest[/storeCode]] followed by the endpoint, with the two JSON
    headers and the header [Authorization: Bearer <token>], and the
    serialised body. *)
Definition bearerPut (c : MagentoRestClient) (tok : jsstring) (req : PutRequest)
  : FetchRequest :=
  {| q_url := stripTrailingSlashes (c_baseUrl c) ++ js "/rest"
              ++ (if truthy (storeCode req)
                  then js "/" ++ toStr valueToString (storeCode req) else [])
              ++ endpoint req;
     q_method := PUT;
     q_headers := [ (js "Content-Type", js "application/json");
                    (js "Accept", js "application/json");
                    (js "Authorization", js "Bearer " ++ tok) ];
     q_body := Some (jsonStringify (body req)) |}.

End RestCatalog.

(** A commit over the network, for examples: the platform answers every
    request with an empty JSON object. *)
Module SampleRest.

Definition fetch (req : FetchRequest) (n : nat) : Outcome Response * nat :=
  (Ok {| r_ok := true; r_status := 200; r_text := js "{}" |}, S n).

Definition jsonParse (text : jsstring) : option JsValue := Some (JObject []).

Definition jsonStringify (v : JsValue) : jsstring :=
  match v with
  | JObject [(_, JObject ((_, JString sku) :: _))] => js "{product " +++ sku +++ js "}"
  | _ => js "{}"
  end.

Definition draw (n : nat) : jsstring * jsstring := (js "nonce", nat_toString n).

Definition session : MagentoRestClient :=
  newClient (js "https://shop.example/") (Some (js "t0k3n")).

Definition client : Client (Wire nat) :=
  restClient nat fetch jsonParse jsonStringify Sample.valueToString
    Sample.toyMac (js "invalid") draw session.

Definition context : ActionContext (Wire nat) := {| getClient := Ok client |}.

Definition server : Server (Wire nat) nat :=
  {| plans := {[ Sample.planId := Sample.plan ]}; entries := ∅;
     world := {| net := 0%nat; sent := [] |}; disk := 0%nat; requests := [] |}.

Definition run : Outcome CommitResult * Server (Wire nat) nat :=
  commit_bulk_update uuidShape Sample.valueToString Sample.cannotRead
    Sample.notIterable Sample.persist defaultConfig 1700000000001 1700000000002
    (Sample.commitParams (js "approved by ops") None) context server.

End SampleRest.

(** ** Purging URLs (src/actions/cache.ts) *)

(** What [cache.purge_by_url] returns: the notice that Fastly is not
    configured, or the message and the result of every URL ([url],
    [success], [id]). *)
Inductive PurgeAnswer : Type :=
| FastlyMissing (message : jsstring)
| PurgeResults (message : jsstring)
    (results : list (jsstring * bool * JsValue)).

Definition wildcardRefused : Exn :=
  JsError (js "Wildcard purge is not allowed. Specify exact URLs.").

(** [url.includes('*')]. *)
Definition hasWildcard (url : jsstring) : bool :=
  existsb (fun ch => ch =? 42) url.

Section CachePurge.

(** The CDN: its state, and what [FastlyClient.purgeUrl] does to it for an
    API token and a URL: the [ok] and the [id] of the answer, or an error. *)
Variable Cdn : Type.
Variable purgeUrl : jsstring -> jsstring -> Cdn -> Outcome (bool * JsValue) * Cdn.

(** [CachePurgeByUrlSchema.parse]: the [urls] of the parameters. *)
Variable CachePurgeByUrlSchema_parse : Params -> Outcome (list jsstring).

Variable limitToString : Z -> jsstring.
Variable config : McpConfig.

(** [config.cachePurgeRateLimitPerMinute], and [config.fastlyServiceId] and
    [config.fastlyApiToken] ([None] is [null]). *)
Variable cachePurgeRateLimitPerMinute : Z.
Variable fastlyServiceId fastlyApiToken : option jsstring.

(** The limiter, the CDN, and the URLs handed to [purgeUrl] so far (a
    history kept for the proofs). *)
Record PurgeState : Type := {
  limiter : RateLimitState;
  cdn : Cdn;
  purged : list jsstring;
}.

Definition isSet (v : option jsstring) : bool :=
  match v with Some s => truthy (JString s) | None => false end.

(** The first loop: no wildcard in any URL. *)
Definition checkWildcards (urls : list jsstring) : Outcome unit :=
  if existsb hasWildcard urls then Throw wildcardRefused else Ok tt.

(** One [try] of the second loop: the result pushed, the CDN afterwards,
    and the URL handed to [purgeUrl]. *)
Definition purgeOne (apiToken : jsstring) (url : jsstring) (st : PurgeState)
  : (jsstring * bool * JsValue) * PurgeState :=
  let '(r, w) := purgeUrl apiToken url (cdn st) in
  (match r with
   | Ok (ok, id) => (url, ok, id)
   | Throw _ => (url, false, JUndefined)
   end,
   {| limiter := limiter st; cdn := w; purged := purged st ++ [url] |}).

(** The second loop. *)
Fixpoint purgeAll (apiToken : jsstring) (urls : list jsstring) (st : PurgeState)
  : list (jsstring * bool * JsValue) * PurgeState :=
  match urls with
  | [] => ([], st)
  | url :: rest =>
      let '(result, st1) := purgeOne apiToken url st in
      let '(results, st2) := purgeAll apiToken rest st1 in
      (result :: results, st2)
  end.

Definition purgedMessage (results : list (jsstring * bool * JsValue))
    (urls : list jsstring) : jsstring :=
  js "Purged "
  +++ nat_toString (length (List.filter (fun r => snd (fst r)) results))
  +++ js "/" +++ nat_toString (length urls) +++ js " URLs.".

(** The handler of [cache.purge_by_url]; [now] is the reading of
    [Date.now()] in [checkRateLimit]. *)
Definition purge_by_url (now : Z) (params : Params) : M PurgeState PurgeAnswer :=
  do urls <- lift (CachePurgeByUrlSchema_parse params);
  do _ <- lift (Guardrails.requireConfirmation config Risk params);
  do _ <- (fun st =>
      let '(r, l) := checkRateLimit limitToString cachePurgeRateLimitPerMinute
                       now (limiter st) in
      (r, {| limiter := l; cdn := cdn st; purged := purged st |}));
  do _ <- lift (checkWildcards urls);
  if negb (isSet fastlyServiceId) || negb (isSet fastlyApiToken) then
    ret (FastlyMissing (js "Fastly not configured. Set FASTLY_SERVICE_ID and FASTLY_API_TOKEN environment variables."))
  else
    fun st =>
      let '(results, st') := purgeAll (default [] fastlyApiToken) urls st in
      (Ok (PurgeResults (purgedMessage results urls) results), st').

End CachePurge.

Arguments limiter {Cdn} _.
Arguments cdn {Cdn} _.
Arguments purged {Cdn} _.

(** The endpoint of one product, as [catalog.get_product] and the commit
    handlers write it: [`/V1/products/${encodeURIComponent(sku)}`]. *)
Definition productEndpoint (sku : jsstring) : option jsstring :=
  esku ← encodeURIComponent sku; Some (js "/V1/products/" +++ esku).

(** ** Reading the audit log (src/audit/auditLogger.ts) *)

(** [s.split('\n')]. *)
Fixpoint splitLines (s : jsstring) : list jsstring :=
  match s with
  | [] => [[]]
  | c :: s' =>
      if c =? 10 then [] :: splitLines s'
      else match splitLines s' with
           | l :: ls => (c :: l) :: ls
           | [] => [[c]]
           end
  end.

(** [l.slice(start)] for an integer [start]. *)
Definition sliceFrom {A} (start : Z) (l : list A) : list A :=
  let len := Z.of_nat (length l) in
  let k := if (start <? 0)%Z then Z.max (len + start) 0 else Z.min start len in
  drop (Z.to_nat k) l.

(** [AuditLogger.readRecent] for an integer [count]: [file] is the content
    of the log file ([None] when there is no file), [parse] is [JSON.parse]
    on a line, and the result [None] is the error [JSON.parse] throws. *)
Definition readRecent (parse : jsstring -> option AuditRecord) (count : Z)
    (file : option jsstring) : option (list AuditRecord) :=
  match file with
  | None => Some []
  | Some content =>
      let lines := List.filter (fun line => truthy (JString line))
                     (splitLines (trim content)) in
      traverse parse (sliceFrom (- count) lines)
  end.

(** A line as [JSON.stringify] writes a record: not empty, without a line
    break, and with no white space at either end. *)
Definition cleanLine (line : jsstring) : bool :=
  match line with c :: _ => negb (isWhiteSpace c) | [] => false end
  && match rev line with c :: _ => negb (isWhiteSpace c) | [] => false end
  && forallb (fun c => negb (c =? 10)) line.

(** Two audit records and a serialisation of them, for examples. *)
Module SampleAudit.

Definition login : AuditRecord :=
  {| a_timestamp := js "2024-01-01T00:00:00.000Z"; a_username := None;
     a_action := js "auth.login"; a_scope := None;
     a_params := Some [(js "username", JString (js "admin"));
                       (js "password", JString (js "hunter2"))];
     a_result_summary := js "Login successful";
     a_plan_id := JNull; a_reason := JNull |}.

Definition search : AuditRecord :=
  {| a_timestamp := js "2024-01-01T00:00:05.000Z";
     a_username := Some (js "admin");
     a_action := js "catalog.search_products"; a_scope := None;
     a_params := Some []; a_result_summary := js "total_count: 3";
     a_plan_id := JNull; a_reason := JNull |}.

Definition stringify (r : AuditRecord) : jsstring :=
  js "{" +++ a_action r +++ js "}".

Definition parse (line : jsstring) : option AuditRecord :=
  if decide (line = js "{auth.login}") then Some (AuditLogger.sanitized login)
  else if decide (line = js "{catalog.search_products}")
       then Some (AuditLogger.sanitized search)
       else None.

End SampleAudit.

(** * Properties *)

(** ** Objects *)

Section ObjectFacts.

Context {V : Type}.

Implicit Types (k : jsstring) (v : V) (o : list (jsstring * V)).

Lemma obj_has_true k o : obj_has k o = true <-> is_Some (obj_get k o).
Proof. unfold obj_has. apply bool_decide_eq_true. Qed.

Lemma obj_has_false k o : obj_has k o = false <-> obj_get k o = None.
Proof.
  unfold obj_has. rewrite bool_decide_eq_false, eq_None_not_Some. done.
Qed.

Lemma obj_get_update_eq k v o :
  is_Some (obj_get k o) -> obj_get k (obj_update k v o) = Some v.
Proof.
  induction o as [|[k0 v0] o IH]; simpl; [by intros [? ?]|].
  destruct (decide (k0 = k)) as [->|Hne]; simpl.
  - by rewrite decide_True.
  - rewrite decide_False by done. exact IH.
Qed.

Lemma obj_get_update_ne k k' v o :
  k' <> k -> obj_get k' (obj_update k v o) = obj_get k' o.
Proof.
  intros Hne. induction o as [|[k0 v0] o IH]; simpl; [done|].
  destruct (decide (k0 = k)) as [->|Hk]; simpl.
  - rewrite !decide_False by congruence. done.
  - destruct (decide (k0 = k')); [done|exact IH].
Qed.

Lemma obj_get_insert_eq k v o :
  obj_get k o = None -> obj_get k (obj_insert k v o) = Some v.
Proof.
  induction o as [|[k0 v0] o IH]; simpl; [by rewrite decide_True|].
  destruct (decide (k0 = k)) as [->|Hne]; [discriminate|]. intros H.
  destruct (listedBefore k k0); simpl.
  - by rewrite decide_True.
  - rewrite decide_False by done. by apply IH.
Qed.

Lemma obj_get_insert_ne k k' v o :
  k' <> k -> obj_get k' (obj_insert k v o) = obj_get k' o.
Proof.
  intros Hne. induction o as [|[k0 v0] o IH]; simpl.
  - by rewrite decide_False by congruence.
  - destruct (listedBefore k k0); simpl.
    + by rewrite decide_False by congruence.
    + destruct (decide (k0 = k')); [done|exact IH].
Qed.

Lemma obj_get_define_eq k v o : obj_get k (obj_define k v o) = Some v.
Proof.
  unfold obj_define. destruct (obj_has k o) eqn:H.
  - apply obj_get_update_eq. by apply obj_has_true.
  - apply obj_get_insert_eq. by apply obj_has_false.
Qed.

Lemma obj_get_define_ne k k' v o :
  k' <> k -> obj_get k' (obj_define k v o) = obj_get k' o.
Proof.
  intros Hne. unfold obj_define. destruct (obj_has k o).
  - by apply obj_get_update_ne.
  - by apply obj_get_insert_ne.
Qed.

(** An assignment to a name other than [__proto__] defines the property. *)
Lemma obj_set_define k v o :
  k <> js "__proto__" -> obj_set k v o = obj_define k v o.
Proof.
  intros Hk. unfold obj_set, obj_define.
  destruct (obj_has k o); [done|]. by rewrite decide_False.
Qed.

Lemma obj_get_set_eq k v o :
  k <> js "__proto__" -> obj_get k (obj_set k v o) = Some v.
Proof. intros Hk. rewrite obj_set_define by done. apply obj_get_define_eq. Qed.

Lemma obj_get_set_ne k k' v o :
  k <> k' -> obj_get k (obj_set k' v o) = obj_get k o.
Proof.
  intros Hne. unfold obj_set. destruct (obj_has k' o).
  - by apply obj_get_update_ne.
  - destruct (decide (k' = js "__proto__")); [done|].
    by apply obj_get_insert_ne.
Qed.

Lemma obj_update_Forall (P : jsstring * V -> Prop) k v o :
  P (k, v) -> Forall P o -> Forall P (obj_update k v o).
Proof.
  intros Hk. induction 1 as [|[k0 v0] o Hx Ho IH]; simpl; [constructor|].
  destruct (decide (k0 = k)); constructor; done.
Qed.

Lemma obj_insert_Forall (P : jsstring * V -> Prop) k v o :
  P (k, v) -> Forall P o -> Forall P (obj_insert k v o).
Proof.
  intros Hk. induction 1 as [|[k0 v0] o Hx Ho IH]; simpl.
  - by repeat constructor.
  - destruct (listedBefore k k0); repeat constructor; done.
Qed.

Lemma obj_define_Forall (P : jsstring * V -> Prop) k v o :
  P (k, v) -> Forall P o -> Forall P (obj_define k v o).
Proof.
  intros Hk Ho. unfold obj_define. destruct (obj_has k o).
  - by apply obj_update_Forall.
  - by apply obj_insert_Forall.
Qed.

Lemma obj_set_Forall (P : jsstring * V -> Prop) k v o :
  P (k, v) -> Forall P o -> Forall P (obj_set k v o).
Proof.
  intros Hk Ho. unfold obj_set. destruct (obj_has k o).
  - by apply obj_update_Forall.
  - destruct (decide (k = js "__proto__")); [done|].
    by apply obj_insert_Forall.
Qed.

Lemma obj_assign_Forall (P : jsstring * V -> Prop) (dst src : list (jsstring * V)) :
  Forall P dst -> Forall P src -> Forall P (obj_assign dst src).
Proof.
  unfold obj_assign. intros Hd Hs. revert dst Hd.
  induction Hs as [|[k v] src Hk _ IH]; intros dst Hd; [done|].
  simpl. apply IH. by apply obj_set_Forall.
Qed.

Lemma obj_spread_Forall (P : jsstring * V -> Prop) (dst src : list (jsstring * V)) :
  Forall P dst -> Forall P src -> Forall P (obj_spread dst src).
Proof.
  unfold obj_spread. intros Hd Hs. revert dst Hd.
  induction Hs as [|[k v] src Hk _ IH]; intros dst Hd; [done|].
  simpl. apply IH. by apply obj_define_Forall.
Qed.

Lemma obj_spread_get_other k (dst src : list (jsstring * V)) :
  Forall (fun kv => fst kv <> k) src ->
  obj_get k (obj_spread dst src) = obj_get k dst.
Proof.
  unfold obj_spread. intros Hs. revert dst.
  induction Hs as [|[k0 v0] src Hk _ IH]; intros dst; [done|].
  simpl. rewrite IH. apply obj_get_define_ne. simpl in Hk. congruence.
Qed.

Lemma obj_assign_get_other k (dst src : list (jsstring * V)) :
  Forall (fun kv => fst kv <> k) src ->
  obj_get k (obj_assign dst src) = obj_get k dst.
Proof.
  unfold obj_assign. intros Hs. revert dst.
  induction Hs as [|[k0 v0] src Hk _ IH]; intros dst; [done|].
  simpl. rewrite IH. apply obj_get_set_ne. simpl in Hk. congruence.
Qed.

(** A name that is no array index goes last when it is new. *)
Lemma obj_insert_last k v o :
  arrayIndex k = None -> obj_insert k v o = o ++ [(k, v)].
Proof.
  intros Hk. induction o as [|[k0 v0] o IH]; simpl; [done|].
  unfold listedBefore. rewrite Hk. by rewrite IH.
Qed.

End ObjectFacts.

(** ** The plan store *)

Section PlanStoreFacts.

Implicit Types (plans : Plans) (plan : BulkPlan) (planId : jsstring) (now : Z).

Lemma get_absent now planId plans :
  plans !! planId = None -> PlanStore.get now planId plans = (None, plans).
Proof. intros H. unfold PlanStore.get. by rewrite H. Qed.

Lemma get_expired now planId plans plan :
  plans !! planId = Some plan -> (expires_at plan < now)%Z ->
  PlanStore.get now planId plans = (None, delete planId plans).
Proof.
  intros H Hlt. unfold PlanStore.get, PlanStore.expired. rewrite H.
  destruct (Z.ltb_spec (expires_at plan) now); [done | lia].
Qed.

Lemma get_live now planId plans plan :
  plans !! planId = Some plan -> (now <= expires_at plan)%Z ->
  PlanStore.get now planId plans = (Some plan, plans).
Proof.
  intros H Hle. unfold PlanStore.get, PlanStore.expired. rewrite H.
  destruct (Z.ltb_spec (expires_at plan) now); [lia | done].
Qed.

(** Whatever [consume] returns, the plan id is free afterwards. *)
Lemma consume_frees now planId plans :
  (PlanStore.consume now planId plans).2 !! planId = None.
Proof.
  unfold PlanStore.consume, PlanStore.get.
  destruct (plans !! planId) as [plan|] eqn:H; simpl; [|done].
  destruct (PlanStore.expired now plan); simpl; apply lookup_delete_eq.
Qed.

Lemma consume_absent now planId plans :
  plans !! planId = None -> PlanStore.consume now planId plans = (None, plans).
Proof. intros H. unfold PlanStore.consume. by rewrite get_absent. Qed.

(** A plan that [consume] hands out was stored under that id and is live. *)
Lemma consume_Some now planId plans plan plans' :
  PlanStore.consume now planId plans = (Some plan, plans') ->
  plans !! planId = Some plan /\ (now <= expires_at plan)%Z
  /\ plans' = delete planId plans.
Proof.
  unfold PlanStore.consume, PlanStore.get, PlanStore.expired.
  destruct (plans !! planId) as [q|] eqn:H; simpl; [|discriminate].
  destruct (Z.ltb_spec (expires_at q) now); simpl; [discriminate|].
  intros [= -> <-]. auto.
Qed.

(** No operation of the store other than [create] brings an id back. *)
Lemma get_keeps_absent now planId planId' plans :
  plans !! planId = None -> (PlanStore.get now planId' plans).2 !! planId = None.
Proof.
  intros H. unfold PlanStore.get.
  destruct (plans !! planId') as [q|]; simpl; [|done].
  destruct (PlanStore.expired now q); simpl; [|done].
  rewrite lookup_delete. case_decide; done.
Qed.

Lemma consume_keeps_absent now planId planId' plans :
  plans !! planId = None ->
  (PlanStore.consume now planId' plans).2 !! planId = None.
Proof.
  intros H. unfold PlanStore.consume.
  pose proof (get_keeps_absent now planId planId' plans H) as G.
  destruct (PlanStore.get now planId' plans) as [[q|] plans1]; simpl in *;
    [|done].
  rewrite lookup_delete. case_decide; done.
Qed.

Lemma cleanup_keeps_absent now planId plans :
  plans !! planId = None -> (PlanStore.cleanup now plans).2 !! planId = None.
Proof.
  intros H. unfold PlanStore.cleanup. simpl.
  apply map_lookup_filter_None. left. done.
Qed.

End PlanStoreFacts.

(** ** The commit handler, path by path *)

Section CatalogFacts.

Variable isUuid : jsstring -> bool.
Variables valueToString cannotRead notIterable : JsValue -> jsstring.
Variable World : Type.
Variable Disk : Type.
Variable persist : Entries -> Disk -> Outcome unit * Disk.
Variable config : McpConfig.

Implicit Types (s : Server World Disk) (params : Params) (v : CommitPlan)
  (context : ActionContext World) (now nowRecord : Z).

Abbreviation commit :=
  (commit_bulk_update isUuid valueToString cannotRead notIterable persist config).
Abbreviation parse := (CommitBulkUpdateSchema_parse isUuid).
Abbreviation confirmed := (Guardrails.requireConfirmation config Risk).

Lemma commit_invalid now nowRecord params context s e :
  parse params = Throw e ->
  commit now nowRecord params context s = (Throw e, s).
Proof.
  intros H. unfold commit_bulk_update, bind, lift. by rewrite H.
Qed.

Lemma commit_unconfirmed now nowRecord params context s v e :
  parse params = Ok v -> confirmed params = Throw e ->
  commit now nowRecord params context s = (Throw e, s).
Proof.
  intros H1 H2. unfold commit_bulk_update, bind, lift. by rewrite H1, H2.
Qed.

Lemma commit_replay now nowRecord params context s v u e :
  parse params = Ok v -> confirmed params = Ok u ->
  priorEntry v s = Some e ->
  commit now nowRecord params context s = (Ok (replayed e), s).
Proof.
  intros H1 H2 H3. unfold commit_bulk_update, bind, lift.
  by rewrite H1, H2, H3.
Qed.

Lemma commit_not_found now nowRecord params context s v u plans' :
  parse params = Ok v -> confirmed params = Ok u ->
  priorEntry v s = None ->
  PlanStore.consume now (v_plan_id v) (plans s) = (None, plans') ->
  commit now nowRecord params context s
  = (Throw notFound,
     {| plans := plans'; entries := entries s; world := world s;
        disk := disk s; requests := requests s |}).
Proof.
  intros H1 H2 H3 H4. unfold commit_bulk_update, bind, lift, consumePlan.
  by rewrite H1, H2, H3, H4.
Qed.

(** The handler once it holds a plan. *)
Lemma commit_consumed now nowRecord params context s v u plan plans' :
  parse params = Ok v -> confirmed params = Ok u ->
  priorEntry v s = None ->
  PlanStore.consume now (v_plan_id v) (plans s) = (Some plan, plans') ->
  commit now nowRecord params context s
  = let consumed := {| plans := plans'; entries := entries s; world := world s;
                       disk := disk s; requests := requests s |} in
    match getClient context with
    | Throw e => (Throw e, consumed)
    | Ok client =>
      match storeViewCode cannotRead (payload plan) with
      | Throw e => (Throw e, consumed)
      | Ok storeCode =>
        match iterate (member (payload plan) (js "skus")) with
        | None =>
            (Throw (JsError (notIterable (member (payload plan) (js "skus")))),
             consumed)
        | Some records =>
            let p := fold_left (putOne valueToString client (payload plan) storeCode)
                       records
                       {| successCount := 0; errors := [];
                          p_world := world s; p_requests := requests s |} in
            let summary := summaryOf p (payload plan) in
            let written := ledgerWrite persist nowRecord v summary (entries s)
                             (disk s) in
            (match written.1 with
             | Ok _ =>
                 Ok (Committed summary (successCount p) (length (errors p))
                       (if (0 <? length (errors p))%nat then Some (errors p)
                        else None))
             | Throw e => Throw e
             end,
             {| plans := plans';
                entries := ledgerAfter nowRecord v summary (entries s);
                world := p_world p; disk := written.2;
                requests := p_requests p |})
        end
      end
    end.
Proof.
  intros H1 H2 H3 H4.
  unfold commit_bulk_update, bind, lift, consumePlan, putAll, ledgerAfter,
    ledgerWrite, recordEntry, ret.
  rewrite H1, H2, H3, H4. cbv zeta.
  destruct (getClient context) as [client|e]; [|done].
  destruct (storeViewCode cannotRead (payload plan)) as [storeCode|e]; [|done].
  destruct (iterate (member (payload plan) (js "skus"))) as [records|]; [|done].
  cbn [plans entries world disk requests].
  destruct (idempotency_key v) as [k|]; [|done].
  destruct (truthy (JString k)); [|done].
  destruct (persist _ _) as [[[]|e] d]; done.
Qed.

End CatalogFacts.

(** What a successful parse says about the parameters. *)
Lemma parse_Ok (isUuid : jsstring -> bool) (params : Params) (v : CommitPlan) :
  CommitBulkUpdateSchema_parse isUuid params = Ok v ->
  prop params (js "plan_id") = JString (v_plan_id v)
  /\ prop params (js "confirm") = JBool true
  /\ prop params (js "reason") = JString (v_reason v)
  /\ match idempotency_key v with
     | Some k => prop params (js "idempotency_key") = JString k
     | None => prop params (js "idempotency_key") = JUndefined
     end.
Proof.
  unfold CommitBulkUpdateSchema_parse.
  destruct (prop params (js "plan_id")) as [| |?|?|pid|?|?]; try discriminate.
  destruct (prop params (js "confirm")) as [| |[]|?|?|?|?]; try discriminate.
  destruct (prop params (js "reason")) as [| |?|?|r|?|?]; try discriminate.
  destruct (isUuid pid && (1 <=? length r)%nat); try discriminate.
  destruct (prop params (js "idempotency_key")) as [| |?|?|k|?|?];
    try discriminate; intros [= <-]; simpl; auto.
Qed.

(** ** The handler as one case analysis *)

Lemma commit_bulk_update_unfold (isUuid : jsstring -> bool)
    (valueToString cannotRead notIterable : JsValue -> jsstring)
    (World Disk : Type) (persist : Entries -> Disk -> Outcome unit * Disk)
    (config : McpConfig) (now nowRecord : Z) (params : Params)
    (context : ActionContext World) (s : Server World Disk) :
  commit_bulk_update isUuid valueToString cannotRead notIterable persist config
    now nowRecord params context s
  = match CommitBulkUpdateSchema_parse isUuid params with
    | Throw e => (Throw e, s)
    | Ok v =>
      match Guardrails.requireConfirmation config Risk params with
      | Throw e => (Throw e, s)
      | Ok _ =>
        match priorEntry v s with
        | Some e => (Ok (replayed e), s)
        | None =>
          match PlanStore.consume now (v_plan_id v) (plans s) with
          | (None, plans') =>
              (Throw notFound,
               {| plans := plans'; entries := entries s; world := world s;
                  disk := disk s; requests := requests s |})
          | (Some plan, plans') =>
            let consumed := {| plans := plans'; entries := entries s;
                               world := world s; disk := disk s;
                               requests := requests s |} in
            match getClient context with
            | Throw e => (Throw e, consumed)
            | Ok client =>
              match storeViewCode cannotRead (payload plan) with
              | Throw e => (Throw e, consumed)
              | Ok storeCode =>
                match iterate (member (payload plan) (js "skus")) with
                | None =>
                    (Throw (JsError
                              (notIterable (member (payload plan) (js "skus")))),
                     consumed)
                | Some records =>
                    let p := fold_left
                               (putOne valueToString client (payload plan)
                                  storeCode)
                               records
                               {| successCount := 0; errors := [];
                                  p_world := world s;
                                  p_requests := requests s |} in
                    let summary := summaryOf p (payload plan) in
                    let written := ledgerWrite persist nowRecord v summary
                                     (entries s) (disk s) in
                    (match written.1 with
                     | Ok _ =>
                         Ok (Committed summary (successCount p)
                               (length (errors p))
                               (if (0 <? length (errors p))%nat
                                then Some (errors p) else None))
                     | Throw e => Throw e
                     end,
                     {| plans := plans';
                        entries := ledgerAfter nowRecord v summary (entries s);
                        world := p_world p; disk := written.2;
                        requests := p_requests p |})
                end
              end
            end
          end
        end
      end
    end.
Proof.
  destruct (CommitBulkUpdateSchema_parse isUuid params) as [v|e] eqn:Hp;
    [|by apply commit_invalid].
  destruct (Guardrails.requireConfirmation config Risk params) as [u|e] eqn:Hg;
    [|by eapply commit_unconfirmed].
  destruct (priorEntry v s) as [e|] eqn:Hprior; [by eapply commit_replay|].
  destruct (PlanStore.consume now (v_plan_id v) (plans s)) as [[plan|] plans']
    eqn:Hc; [|by eapply commit_not_found].
  by erewrite commit_consumed.
Qed.

(** The plan store after a call of the handler that reaches [consume]. *)
Lemma commit_plans (isUuid : jsstring -> bool)
    (valueToString cannotRead notIterable : JsValue -> jsstring)
    (World Disk : Type) (persist : Entries -> Disk -> Outcome unit * Disk)
    (config : McpConfig) (now nowRecord : Z) (params : Params)
    (context : ActionContext World) (s : Server World Disk) (v : CommitPlan) :
  CommitBulkUpdateSchema_parse isUuid params = Ok v ->
  Guardrails.requireConfirmation config Risk params = Ok tt ->
  priorEntry v s = None ->
  plans (commit_bulk_update isUuid valueToString cannotRead notIterable persist
           config now nowRecord params context s).2
  = (PlanStore.consume now (v_plan_id v) (plans s)).2.
Proof.
  intros Hp Hg Hprior. rewrite commit_bulk_update_unfold, Hp, Hg, Hprior.
  destruct (PlanStore.consume now (v_plan_id v) (plans s)) as [[plan|] plans'];
    [|done].
  cbv zeta. destruct (getClient context); [|done].
  destruct (storeViewCode cannotRead (payload plan)); [|done].
  by destruct (iterate (member (payload plan) (js "skus"))).
Qed.

(** A call of the handler that names a plan id which is free. *)
Lemma commit_free_id (isUuid : jsstring -> bool)
    (valueToString cannotRead notIterable : JsValue -> jsstring)
    (World Disk : Type) (persist : Entries -> Disk -> Outcome unit * Disk)
    (config : McpConfig) (now nowRecord : Z) (params : Params)
    (context : ActionContext World) (s : Server World Disk)
    (planId : jsstring) :
  plans s !! planId = None ->
  prop params (js "plan_id") = JString planId ->
  let r := commit_bulk_update isUuid valueToString cannotRead notIterable persist
             config now nowRecord params context s in
  (forall m a b c, r.1 <> Ok (Committed m a b c))
  /\ requests r.2 = requests s /\ world r.2 = world s
  /\ forall v,
       CommitBulkUpdateSchema_parse isUuid params = Ok v ->
       Guardrails.requireConfirmation config Risk params = Ok tt ->
       priorEntry v s = None ->
       r = (Throw notFound, s).
Proof.
  intros Hs Hid r.
  pose proof (consume_absent now planId (plans s) Hs) as Hnf.
  subst r.
  destruct (CommitBulkUpdateSchema_parse isUuid params) as [v|e] eqn:Hp.
  2:{ erewrite commit_invalid by exact Hp. simpl. repeat split; try done. }
  destruct (parse_Ok _ _ _ Hp) as [Hpid _].
  assert (v_plan_id v = planId) as Hv by congruence.
  destruct (Guardrails.requireConfirmation config Risk params) as [[]|e] eqn:Hg.
  2:{ erewrite commit_unconfirmed by eassumption. simpl.
      repeat split; try done. }
  destruct (priorEntry v s) as [e|] eqn:Hprior.
  { erewrite commit_replay by eassumption.
    simpl. repeat split; try done. intros v' [= <-]. congruence. }
  rewrite <- Hv in Hnf.
  erewrite commit_not_found by eassumption.
  simpl. repeat split; try done.
  intros v' _ _ _. destruct s; reflexivity.
Qed.

(** ** C1: a plan is handed out at most once *)

(** C1. If [consume(planId)] returns the plan, the id is free afterwards and
    a second [consume(planId)] returns nothing, whatever the clock. As long
    as the id stays free (only [create] can store it again), a commit call
    naming that plan id never runs the mutation again (no request is sent,
    the platform is untouched, the answer is not a commit result), and when
    it gets as far as [consume] it throws the plan-not-found error. A call
    of the commit handler that consumes the plan leaves the store as that
    [consume] left it, without the plan, however the call ends; so a second
    call of the handler with the same plan id sends nothing and, when it
    gets as far as [consume], fails as not found. *)
Theorem C1_consume_at_most_once :
  forall (now1 now2 : Z) (planId : jsstring) (plans0 plans1 : Plans)
         (plan : BulkPlan),
    PlanStore.consume now1 planId plans0 = (Some plan, plans1) ->
    plans1 !! planId = None
    /\ PlanStore.consume now2 planId plans1 = (None, plans1)
    /\ forall (isUuid : jsstring -> bool)
              (valueToString cannotRead notIterable : JsValue -> jsstring)
              (World Disk : Type)
              (persist : Entries -> Disk -> Outcome unit * Disk)
              (config : McpConfig),
         let commit := commit_bulk_update isUuid valueToString cannotRead
                         notIterable persist config in
         (forall (nowRecord : Z) (params : Params)
                 (context : ActionContext World) (s : Server World Disk),
            plans s !! planId = None ->
            prop params (js "plan_id") = JString planId ->
            let r := commit now2 nowRecord params context s in
            (forall m a b c, r.1 <> Ok (Committed m a b c))
            /\ requests r.2 = requests s /\ world r.2 = world s
            /\ forall v,
                 CommitBulkUpdateSchema_parse isUuid params = Ok v ->
                 Guardrails.requireConfirmation config Risk params = Ok tt ->
                 priorEntry v s = None ->
                 r = (Throw notFound, s))
         /\ (forall (record1 : Z) (params1 : Params)
                    (context1 : ActionContext World) (s : Server World Disk)
                    (v1 : CommitPlan),
               plans s = plans0 ->
               CommitBulkUpdateSchema_parse isUuid params1 = Ok v1 ->
               v_plan_id v1 = planId ->
               Guardrails.requireConfirmation config Risk params1 = Ok tt ->
               priorEntry v1 s = None ->
               let first := commit now1 record1 params1 context1 s in
               plans first.2 = plans1
               /\ forall (record2 : Z) (params2 : Params)
                         (context2 : ActionContext World),
                    prop params2 (js "plan_id") = JString planId ->
                    let second := commit now2 record2 params2 context2 first.2 in
                    (forall m a b c, second.1 <> Ok (Committed m a b c))
                    /\ requests second.2 = requests first.2
                    /\ world second.2 = world first.2
                    /\ forall v2,
                         CommitBulkUpdateSchema_parse isUuid params2 = Ok v2 ->
                         Guardrails.requireConfirmation config Risk params2
                         = Ok tt ->
                         priorEntry v2 first.2 = None ->
                         second = (Throw notFound, first.2)).
Proof.
  intros now1 now2 planId plans0 plans1 plan Hc.
  assert (Hfree : plans1 !! planId = None).
  { pose proof (consume_frees now1 planId plans0) as F. by rewrite Hc in F. }
  split; [done|]. split; [by apply consume_absent|].
  intros isUuid valueToString cannotRead notIterable World Disk persist config
         commit.
  split.
  - intros nowRecord params context s Hs Hid.
    by apply (commit_free_id _ _ _ _ _ _ _ _ _ _ _ _ _ planId).
  - intros record1 params1 context1 s v1 Hs Hp Hv Hg Hprior first.
    assert (Hplans : plans first.2 = plans1).
    { subst first commit. erewrite commit_plans by eassumption.
      by rewrite Hv, Hs, Hc. }
    split; [done|].
    intros record2 params2 context2 Hid.
    apply (commit_free_id _ _ _ _ _ _ _ _ _ _ _ _ _ planId); [|done].
    by rewrite Hplans.
Qed.

Lemma C1_witness :
  let first := Sample.commit 1700000000001 1700000000002
                 (Sample.commitParams (js "approved by ops") None)
                 Sample.context Sample.server in
  first.1 = Ok (Committed (js "Updated 2/3 products. 1 errors.") 2 1
                  (Some [(JString (js "B 2"),
                          js "Magento API Error (404): gone")]))
  /\ plans first.2 !! Sample.planId = None
  /\ Sample.commit 1700000000003 1700000000004
       (Sample.commitParams (js "approved by ops") None) Sample.context first.2
     = (Throw notFound, first.2).
Proof.
  intros first.
  assert (H : PlanStore.consume 1700000000001 Sample.planId (plans Sample.server)
              = (Some Sample.plan, ∅)) by (vm_compute; reflexivity).
  destruct (C1_consume_at_most_once _ 1700000000003%Z _ _ _ _ H)
    as (Hfree & _ & Hcommit).
  destruct (Hcommit uuidShape Sample.valueToString Sample.cannotRead
              Sample.notIterable nat nat Sample.persist defaultConfig)
    as [_ Htwice].
  destruct (Htwice 1700000000002%Z
              (Sample.commitParams (js "approved by ops") None) Sample.context
              Sample.server
              {| v_plan_id := Sample.planId; v_reason := js "approved by ops";
                 idempotency_key := None |})
    as [Hplans Hsecond]; [vm_compute; reflexivity.. |].
  fold (Sample.commit 1700000000001 1700000000002
          (Sample.commitParams (js "approved by ops") None) Sample.context
          Sample.server) in Hplans, Hsecond.
  fold first in Hplans, Hsecond.
  split; [vm_compute; reflexivity|]. split; [by rewrite Hplans|].
  destruct (Hsecond 1700000000004%Z
              (Sample.commitParams (js "approved by ops") None) Sample.context)
    as (_ & _ & _ & H3); [vm_compute; reflexivity|].
  eapply H3; vm_compute; reflexivity.
Defined.

(** ** C6: lazy expiry *)

(** C6. For a stored plan whose expiry has passed, [get] and [consume] both
    return nothing and leave the store without it; a stored plan whose expiry
    has not passed is returned by [get], which leaves the store as it is. *)
Theorem C6_lazy_expiry :
  forall (now : Z) (planId : jsstring) (plans : Plans) (plan : BulkPlan),
    plans !! planId = Some plan ->
    ((expires_at plan < now)%Z ->
       PlanStore.get now planId plans = (None, delete planId plans)
       /\ PlanStore.consume now planId plans = (None, delete planId plans))
    /\ ((now <= expires_at plan)%Z ->
          PlanStore.get now planId plans = (Some plan, plans)).
Proof.
  intros now planId plans plan H. split.
  - intros Hlt. pose proof (get_expired now planId plans plan H Hlt) as G.
    split; [exact G|]. unfold PlanStore.consume. by rewrite G.
  - intros Hle. by apply get_live.
Qed.

Lemma C6_witness :
  (PlanStore.get 1700001800001 Sample.planId (plans Sample.server) = (None, ∅)
   /\ PlanStore.consume 1700001800001 Sample.planId (plans Sample.server)
      = (None, ∅))
  /\ PlanStore.get 1700001800000 Sample.planId (plans Sample.server)
     = (Some Sample.plan, plans Sample.server).
Proof.
  assert (H : plans Sample.server !! Sample.planId = Some Sample.plan)
    by (vm_compute; reflexivity).
  split.
  - destruct (C6_lazy_expiry 1700001800001%Z _ _ _ H) as [E _].
    assert (D : delete Sample.planId (plans Sample.server) = (∅ : Plans))
      by (vm_compute; reflexivity).
    rewrite D in E. apply E. simpl. lia.
  - destruct (C6_lazy_expiry 1700001800000%Z _ _ _ H) as [_ L].
    apply L. simpl. lia.
Defined.

(** ** C10 and C4: the confirmation gate *)

(** C10. With [tier2ConfirmationRequired] false, [requireConfirmation]
    returns without throwing for every risk tier and every parameter map. *)
Theorem C10_gate_disabled :
  forall (config : McpConfig) (riskTier : RiskTier) (params : Params),
    tier2ConfirmationRequired config = false ->
    Guardrails.requireConfirmation config riskTier params = Ok tt.
Proof.
  intros config riskTier params H. unfold Guardrails.requireConfirmation.
  rewrite H. by rewrite andb_false_r.
Qed.

Lemma C10_witness :
  Guardrails.requireConfirmation
    {| maxSkusPerBulkCommit := 500; maxCouponQtyPerGeneration := 1000;
       priceChangeThresholdPercent := 50; maxDiscountPercent := 50;
       tier2ConfirmationRequired := false; planExpiryMinutes := 30 |}
    Critical ∅ = Ok tt.
Proof. apply C10_gate_disabled. reflexivity. Defined.

(** Small facts about [confirm === true] and about [trim]. *)
Lemma confirm_cases (v : JsValue) : v = JBool true \/ v <> JBool true.
Proof. destruct v as [| |[]|?|?|?|?]; auto. Qed.

Lemma trim_nonempty (s : jsstring) : trim s <> [] -> s <> [].
Proof. intros H ->. by apply H. Qed.

(** The claim C4 as written, without the configuration flag, fails: with the
    flag off a Risk-tier call with no [confirm] and no [reason] passes. *)
Lemma C4_counterexample :
  ~ (forall (config : McpConfig) (riskTier : RiskTier) (params : Params),
       (tierNum Risk <= tierNum riskTier)%nat ->
       Guardrails.requireConfirmation config riskTier params = Ok tt ->
       prop params (js "confirm") = JBool true
       /\ exists r, prop params (js "reason") = JString r /\ trim r <> []).
Proof.
  intros H.
  destruct (H {| maxSkusPerBulkCommit := 500; maxCouponQtyPerGeneration := 1000;
                 priceChangeThresholdPercent := 50; maxDiscountPercent := 50;
                 tier2ConfirmationRequired := false; planExpiryMinutes := 30 |}
              Risk ∅) as [C _]; [simpl; lia | reflexivity |].
  vm_compute in C. discriminate C.
Qed.

(** C4, amended. With [tier2ConfirmationRequired] true and a tier at or above
    Risk, [requireConfirmation] passes exactly when [confirm] is the boolean
    [true] and [reason] is a string that is not empty after trimming.
    Otherwise it throws a [GuardrailError] with code [CONFIRMATION_REQUIRED],
    no details, and one of two different messages: the first when [confirm]
    is not [true], the second when the reason is missing. *)
Theorem C4_confirmation_gate :
  forall (config : McpConfig) (riskTier : RiskTier) (params : Params),
    tier2ConfirmationRequired config = true ->
    (tierNum Risk <= tierNum riskTier)%nat ->
    let passes :=
      prop params (js "confirm") = JBool true
      /\ exists r, prop params (js "reason") = JString r /\ trim r <> [] in
    let outcome := Guardrails.requireConfirmation config riskTier params in
    (outcome = Ok tt <-> passes)
    /\ (prop params (js "confirm") <> JBool true ->
        outcome = Throw (GuardrailError CONFIRMATION_REQUIRED
                           (Guardrails.confirmMessage riskTier) None))
    /\ (prop params (js "confirm") = JBool true -> ~ passes ->
        outcome = Throw (GuardrailError CONFIRMATION_REQUIRED
                           Guardrails.reasonMessage None))
    /\ Guardrails.confirmMessage riskTier <> Guardrails.reasonMessage
    /\ (prop params (js "confirm") = JBool true ->
        prop params (js "reason") = JString (js "") -> outcome <> Ok tt)
    /\ (prop params (js "confirm") = JBool true ->
        prop params (js "reason") = JString (js "approved by ops") ->
        outcome = Ok tt).
Proof.
  intros config riskTier params Hflag Htier passes outcome.
  assert (Hgate : ((tierNum Risk <=? tierNum riskTier)%nat
                   && tier2ConfirmationRequired config) = true).
  { rewrite Hflag, andb_true_r. by apply Nat.leb_le. }
  assert (Hmsg : Guardrails.confirmMessage riskTier <> Guardrails.reasonMessage).
  { intros E. apply (f_equal (fun s : jsstring => head s)) in E.
    destruct riskTier; vm_compute in E; discriminate E. }
  assert (Hno : prop params (js "confirm") <> JBool true ->
                outcome = Throw (GuardrailError CONFIRMATION_REQUIRED
                                   (Guardrails.confirmMessage riskTier) None)).
  { intros Hc. subst outcome. unfold Guardrails.requireConfirmation.
    rewrite Hgate.
    destruct (prop params (js "confirm")) as [| |[]|?|?|?|?]; simpl; try done. }
  assert (Hyes : prop params (js "confirm") = JBool true ->
                 outcome =
                 match prop params (js "reason") with
                 | JString r =>
                     if decide (trim r = []) then
                       Throw (GuardrailError CONFIRMATION_REQUIRED
                                Guardrails.reasonMessage None)
                     else Ok tt
                 | _ => Throw (GuardrailError CONFIRMATION_REQUIRED
                                 Guardrails.reasonMessage None)
                 end).
  { intros Hc. subst outcome. unfold Guardrails.requireConfirmation.
    rewrite Hgate, Hc. simpl.
    destruct (prop params (js "reason")) as [| |[]|?|r|?|?]; simpl; try done.
    - destruct (PrimFloat.eqb x 0 || PrimFloat.is_nan x); done.
    - case_decide as Ht.
      + rewrite Ht. simpl. by rewrite orb_true_r.
      + assert (r <> []) as Hr by by apply trim_nonempty.
        rewrite bool_decide_eq_false_2 by done. simpl.
        destruct (Nat.eqb_spec (length (trim r)) 0) as [E|E]; [|done].
        by apply nil_length_inv in E. }
  assert (Hiff : outcome = Ok tt <-> passes).
  { split.
    - intros Hok.
      destruct (confirm_cases (prop params (js "confirm"))) as [Hc|Hc].
      + split; [done|]. rewrite (Hyes Hc) in Hok.
        destruct (prop params (js "reason")); try discriminate.
        case_decide; [discriminate|]. eauto.
      + rewrite (Hno Hc) in Hok. discriminate.
    - intros [Hc (r & Hr & Ht)]. rewrite (Hyes Hc), Hr.
      by rewrite decide_False. }
  repeat split; try done; try (by apply Hiff).
  - intros Hc Hn. rewrite (Hyes Hc).
    destruct (prop params (js "reason")) as [| |?|?|r|?|?] eqn:Hr; try done.
    case_decide; [done|]. exfalso. apply Hn. split; [done|]. eauto.
  - intros Hc Hr. rewrite (Hyes Hc), Hr. simpl. done.
  - intros Hc Hr. rewrite (Hyes Hc), Hr. by vm_compute.
Qed.

Lemma C4_witness :
  Guardrails.requireConfirmation defaultConfig Risk
    (Sample.commitParams (js "approved by ops") None) = Ok tt
  /\ Guardrails.requireConfirmation defaultConfig Risk
       (Sample.commitParams (js "") None)
     = Throw (GuardrailError CONFIRMATION_REQUIRED Guardrails.reasonMessage None)
  /\ Guardrails.requireConfirmation defaultConfig Critical ∅
     = Throw (GuardrailError CONFIRMATION_REQUIRED
                (Guardrails.confirmMessage Critical) None).
Proof.
  split; [|split].
  - apply (C4_confirmation_gate defaultConfig Risk
             (Sample.commitParams (js "approved by ops") None));
      [reflexivity | simpl; lia | vm_compute; reflexivity
       | vm_compute; reflexivity].
  - apply (C4_confirmation_gate defaultConfig Risk
             (Sample.commitParams (js "") None));
      [reflexivity | simpl; lia | vm_compute; reflexivity |].
    intros [_ (r & Hr & Ht)]. vm_compute in Hr.
    injection Hr as <-. by apply Ht.
  - apply (C4_confirmation_gate defaultConfig Critical ∅);
      [reflexivity | simpl; lia |]. vm_compute. discriminate.
Defined.

(** ** C9: the price change warning *)

(** Taking the absolute value commutes with rounding, so with division by a
    positive number. *)
Lemma round_aux_abs (prec emax : Z) (s : bool) (m e : Z) (l : location) :
  SFabs (binary_round_aux prec emax s m e l)
  = binary_round_aux prec emax false m e l.
Proof.
  unfold binary_round_aux.
  destruct (shr_fexp prec emax m e l) as [mrs e'].
  destruct (shr_fexp prec emax _ e' loc_Exact) as [mrs2 e2].
  destruct (shr_m mrs2); simpl; try reflexivity.
  destruct (Z.leb e2 (emax - prec)); reflexivity.
Qed.

Lemma SFdiv_abs (prec emax : Z) (a b : spec_float) :
  SFcompare (S754_zero false) b = Some Lt ->
  SFabs (SFdiv prec emax a b) = SFdiv prec emax (SFabs a) b.
Proof.
  destruct a as [sa|sa| |sa ma ea], b as [sb|sb| |sb mb eb]; simpl;
    try discriminate; try reflexivity;
    try (destruct sb; try discriminate; intros _; simpl; try reflexivity).
  destruct (SFdiv_core_binary prec emax (Z.pos ma) ea (Z.pos mb) eb)
    as [[mz ez] lz].
  rewrite xorb_false_r. apply round_aux_abs.
Qed.

Lemma float_eq (x y : float) : Prim2SF x = Prim2SF y -> x = y.
Proof.
  intros H. rewrite <- (SF2Prim_Prim2SF x), <- (SF2Prim_Prim2SF y).
  by rewrite H.
Qed.

Lemma abs_div_pos (x d : float) :
  PrimFloat.ltb 0 d = true ->
  PrimFloat.abs (x / d) = (PrimFloat.abs x / d)%float.
Proof.
  intros H. apply float_eq. rewrite abs_spec, !div_spec, abs_spec.
  rewrite ltb_spec in H. unfold SFltb in H.
  change (Prim2SF 0) with (S754_zero false) in H.
  unfold SF64div. apply SFdiv_abs.
  destruct (SFcompare (S754_zero false) (Prim2SF d)) as [[]|];
    try discriminate. reflexivity.
Qed.




(** ** The ledger after a commit *)

(** A key the handler looks up and does not find is not in the ledger. *)
Lemma priorEntry_None {World Disk : Type} (v : CommitPlan)
    (s : Server World Disk) (k : jsstring) :
  priorEntry v s = None -> idempotency_key v = Some k ->
  truthy (JString k) = true -> entries s !! k = None.
Proof.
  unfold priorEntry, IdempotencyLedger.get. intros H Hk Ht.
  by rewrite Hk, Ht in H.
Qed.

(** What [ledgerAfter] does to a key. *)
Lemma ledgerAfter_lookup (nowRecord : Z) (v : CommitPlan) (summary : jsstring)
    (entries : Entries) (k : jsstring) :
  ledgerAfter nowRecord v summary entries !! k
  = if bool_decide (idempotency_key v = Some k) && truthy (JString k)
    then Some {| key := k; entry_action := js "catalog.commit_bulk_update";
                 entry_created_at := nowRecord; result_summary := summary |}
    else entries !! k.
Proof.
  unfold ledgerAfter, IdempotencyLedger.record.
  destruct (idempotency_key v) as [k0|] eqn:Hk.
  - destruct (decide (k0 = k)) as [->|Hne].
    + rewrite bool_decide_eq_true_2 by done. simpl.
      destruct (negb (bool_decide (k = []))); [|done].
      by rewrite lookup_insert_eq.
    + rewrite bool_decide_eq_false_2 by congruence. simpl.
      destruct (negb (bool_decide (k0 = []))); [|done].
      by rewrite lookup_insert_ne.
  - by rewrite bool_decide_eq_false_2.
Qed.

(** ** C5: the ledger *)

(** The claim C5 as written fails on [record] itself: recording a key a
    second time replaces the stored entry. *)
Lemma C5_counterexample :
  ~ (forall (now : Z) (k action summary : jsstring) (entries : Entries)
            (e : IdempotencyEntry),
       entries !! k = Some e ->
       IdempotencyLedger.record now k action summary entries !! k = Some e).
Proof.
  intros H.
  specialize (H 2%Z (js "retry-1") (js "catalog.commit_bulk_update")
                (js "Updated 0/3 products. 3 errors.")
                (IdempotencyLedger.record 1 (js "retry-1")
                   (js "catalog.commit_bulk_update")
                   (js "Updated 3/3 products. 0 errors.") ∅)
                _ (lookup_insert_eq _ _ _)).
  unfold IdempotencyLedger.record in H. rewrite lookup_insert_eq in H.
  discriminate H.
Qed.

(** C5, amended. [record(key, ...)] stores the new entry under [key],
    replacing what was there, and leaves every other key as it was. The
    ledger is append-only across commit calls: the handler records a key only
    after [get] found nothing under it, so an entry that is in the ledger
    before a call to the handler is there unchanged after it. *)
Theorem C5_ledger_append_only :
  (forall (now : Z) (k action summary : jsstring) (entries : Entries),
     IdempotencyLedger.get k (IdempotencyLedger.record now k action summary entries)
     = Some {| key := k; entry_action := action; entry_created_at := now;
               result_summary := summary |}
     /\ forall k', k' <> k ->
          IdempotencyLedger.record now k action summary entries !! k'
          = entries !! k')
  /\ forall (isUuid : jsstring -> bool)
            (valueToString cannotRead notIterable : JsValue -> jsstring)
            (World Disk : Type)
            (persist : Entries -> Disk -> Outcome unit * Disk)
            (config : McpConfig)
            (now nowRecord : Z) (params : Params) (context : ActionContext World)
            (s : Server World Disk) (k : jsstring) (e : IdempotencyEntry),
       entries s !! k = Some e ->
       entries (commit_bulk_update isUuid valueToString cannotRead notIterable
                  persist config now nowRecord params context s).2
         !! k = Some e.
Proof.
  split.
  - intros now k action summary entries.
    unfold IdempotencyLedger.get, IdempotencyLedger.record. split.
    + apply lookup_insert_eq.
    + intros k' Hne. by apply lookup_insert_ne.
  - intros isUuid valueToString cannotRead notIterable World Disk persist
      config now nowRecord params context s k e He.
    rewrite commit_bulk_update_unfold.
    destruct (CommitBulkUpdateSchema_parse isUuid params) as [v|?]; [|done].
    destruct (Guardrails.requireConfirmation config Risk params); [|done].
    destruct (priorEntry v s) eqn:Hprior; [done|].
    destruct (PlanStore.consume now (v_plan_id v) (plans s)) as [[plan|] plans'];
      [|done].
    cbv zeta. destruct (getClient context) as [client|?]; [|done].
    destruct (storeViewCode cannotRead (payload plan)); [|done].
    destruct (iterate (member (payload plan) (js "skus"))); [|done].
    cbn [snd entries]. rewrite ledgerAfter_lookup.
    destruct (bool_decide (idempotency_key v = Some k)) eqn:Hk; [|done].
    destruct (truthy (JString k)) eqn:Ht; [|done]. simpl.
    apply bool_decide_eq_true_1 in Hk.
    rewrite (priorEntry_None v s k Hprior Hk Ht) in He. discriminate He.
Qed.

Lemma C5_witness :
  IdempotencyLedger.record 5 (js "retry-2") (js "catalog.commit_bulk_update")
    (js "Updated 1/1 products. 0 errors.") (entries Sample.serverWithEntry)
    !! js "retry-1" = Some Sample.firstEntry
  /\ entries (commit_bulk_update uuidShape Sample.valueToString
                Sample.cannotRead Sample.notIterable Sample.persist defaultConfig
                1700000000001 1700000000002
                (Sample.commitParams (js "approved by ops") (Some (js "retry-2")))
                Sample.context Sample.serverWithEntry).2
       !! js "retry-1" = Some Sample.firstEntry.
Proof.
  destruct C5_ledger_append_only as [R H]. split.
  - destruct (R 5%Z (js "retry-2") (js "catalog.commit_bulk_update")
                (js "Updated 1/1 products. 0 errors.")
                (entries Sample.serverWithEntry)) as [_ O].
    rewrite O; [vm_compute; reflexivity | discriminate].
  - apply H. vm_compute. reflexivity.
Defined.

(** ** C2: a replayed idempotency key *)

(** A call that came back with a commit result and left an entry under a key
    that was free before: the entry holds the summary of that call, and the
    key is one the handler looks up. *)
Lemma commit_recorded (isUuid : jsstring -> bool)
    (valueToString cannotRead notIterable : JsValue -> jsstring)
    (World Disk : Type) (persist : Entries -> Disk -> Outcome unit * Disk)
    (config : McpConfig) (now nowRecord : Z) (params : Params)
    (context : ActionContext World) (s0 s1 : Server World Disk) (k : jsstring)
    (e : IdempotencyEntry) (m : jsstring) (a b : nat)
    (c : option (list (JsValue * jsstring))) :
  commit_bulk_update isUuid valueToString cannotRead notIterable persist config
    now nowRecord params context s0
  = (Ok (Committed m a b c), s1) ->
  entries s0 !! k = None -> entries s1 !! k = Some e ->
  result_summary e = m /\ truthy (JString k) = true.
Proof.
  rewrite commit_bulk_update_unfold.
  destruct (CommitBulkUpdateSchema_parse isUuid params) as [v|?]; [|done].
  destruct (Guardrails.requireConfirmation config Risk params); [|done].
  destruct (priorEntry v s0); [done|].
  destruct (PlanStore.consume now (v_plan_id v) (plans s0)) as [[plan|] plans'];
    [|done].
  cbv zeta. destruct (getClient context) as [client|?]; [|done].
  destruct (storeViewCode cannotRead (payload plan)); [|done].
  destruct (iterate (member (payload plan) (js "skus"))); [|done].
  destruct (ledgerWrite _ _ _ _ _ _).1; [|done].
  intros [= <- _ _ _ <-] H0. simpl. rewrite ledgerAfter_lookup.
  destruct (bool_decide (idempotency_key v = Some k)); simpl;
    [|by rewrite H0].
  destruct (negb (bool_decide (k = []))); [|by rewrite H0].
  by intros [= <-].
Qed.

(** The claim C2 as written fails for a second call that presents the key
    but does not pass the confirmation gate: the gate comes first, and the
    call is answered with its error, not with the recorded summary. *)
Lemma C2_counterexample :
  ~ (forall (isUuid : jsstring -> bool)
            (valueToString cannotRead notIterable : JsValue -> jsstring)
            (World Disk : Type)
            (persist : Entries -> Disk -> Outcome unit * Disk)
            (config : McpConfig)
            (now1 record1 : Z) (params1 : Params)
            (context1 : ActionContext World) (s0 s1 : Server World Disk)
            (k : jsstring) (e : IdempotencyEntry) (m : jsstring) (a b : nat)
            (c : option (list (JsValue * jsstring))),
       commit_bulk_update isUuid valueToString cannotRead notIterable persist
         config now1 record1 params1 context1 s0
       = (Ok (Committed m a b c), s1) ->
       entries s0 !! k = None -> entries s1 !! k = Some e ->
       forall (now2 record2 : Z) (params2 : Params)
              (context2 : ActionContext World),
         prop params2 (js "idempotency_key") = JString k ->
         commit_bulk_update isUuid valueToString cannotRead notIterable persist
           config now2 record2 params2 context2 s1
         = (Ok (AlreadyCompleted
                  (js "Operation already completed (idempotency match)") m),
            s1)).
Proof.
  intros H.
  pose (first := Sample.commit 1700000000001 1700000000002
                   (Sample.commitParams (js "approved by ops") (Some (js "retry-1")))
                   Sample.context Sample.server).
  specialize (H uuidShape Sample.valueToString Sample.cannotRead
                Sample.notIterable nat nat Sample.persist defaultConfig
                1700000000001%Z 1700000000002%Z
                (Sample.commitParams (js "approved by ops") (Some (js "retry-1")))
                Sample.context Sample.server first.2 (js "retry-1")
                {| key := js "retry-1";
                   entry_action := js "catalog.commit_bulk_update";
                   entry_created_at := 1700000000002;
                   result_summary := js "Updated 2/3 products. 1 errors." |}
                (js "Updated 2/3 products. 1 errors.") 2%nat 1%nat
                (Some [(JString (js "B 2"), js "Magento API Error (404): gone")])).
  specialize (H ltac:(vm_compute; reflexivity) ltac:(vm_compute; reflexivity)
                ltac:(vm_compute; reflexivity)
                1700000060000%Z 1700000060001%Z
                (Sample.commitParams (js "   ") (Some (js "retry-1")))
                Sample.context ltac:(vm_compute; reflexivity)).
  vm_compute in H. discriminate H.
Qed.

(** C2, amended. If a first commit call completed and recorded [k], then a
    second commit call presenting [k] leaves the plan store, the ledger and
    the platform as they were and sends no request; when it passes parameter
    validation and the confirmation gate its response carries the summary the
    first call recorded, and otherwise it is answered with the error of the
    check it failed. *)
Theorem C2_idempotent_replay :
  forall (isUuid : jsstring -> bool)
         (valueToString cannotRead notIterable : JsValue -> jsstring)
         (World Disk : Type) (persist : Entries -> Disk -> Outcome unit * Disk)
         (config : McpConfig)
         (now1 record1 : Z) (params1 : Params) (context1 : ActionContext World)
         (s0 s1 : Server World Disk) (k : jsstring) (e : IdempotencyEntry)
         (m : jsstring) (a b : nat) (c : option (list (JsValue * jsstring))),
    commit_bulk_update isUuid valueToString cannotRead notIterable persist config
      now1 record1 params1 context1 s0
    = (Ok (Committed m a b c), s1) ->
    entries s0 !! k = None -> entries s1 !! k = Some e ->
    result_summary e = m
    /\ forall (now2 record2 : Z) (params2 : Params)
              (context2 : ActionContext World),
         prop params2 (js "idempotency_key") = JString k ->
         commit_bulk_update isUuid valueToString cannotRead notIterable persist
           config now2 record2 params2 context2 s1
         = (match CommitBulkUpdateSchema_parse isUuid params2 with
            | Throw x => Throw x
            | Ok _ =>
                match Guardrails.requireConfirmation config Risk params2 with
                | Throw x => Throw x
                | Ok _ =>
                    Ok (AlreadyCompleted
                          (js "Operation already completed (idempotency match)")
                          m)
                end
            end, s1).
Proof.
  intros isUuid valueToString cannotRead notIterable World Disk persist config
         now1 record1 params1 context1 s0 s1 k e m a b c H1 H0 He.
  destruct (commit_recorded _ _ _ _ _ _ _ _ _ _ _ _ _ _ _ _ _ _ _ _ H1 H0 He)
    as [Hm Ht].
  split; [done|].
  intros now2 record2 params2 context2 Hk.
  rewrite commit_bulk_update_unfold.
  destruct (CommitBulkUpdateSchema_parse isUuid params2) as [v|?] eqn:Hp;
    [|done].
  destruct (Guardrails.requireConfirmation config Risk params2); [|done].
  destruct (parse_Ok _ _ _ Hp) as (_ & _ & _ & Hkey).
  assert (Hprior : priorEntry v s1 = Some e).
  { unfold priorEntry, IdempotencyLedger.get.
    destruct (idempotency_key v) as [k'|]; [|congruence].
    assert (k' = k) as -> by congruence. by rewrite Ht. }
  rewrite Hprior. unfold replayed. by rewrite Hm.
Qed.

Lemma C2_witness :
  let first := commit_bulk_update uuidShape Sample.valueToString
                 Sample.cannotRead Sample.notIterable Sample.persist defaultConfig
                 1700000000001 1700000000002
                 (Sample.commitParams (js "approved by ops") (Some (js "retry-1")))
                 Sample.context Sample.server in
  commit_bulk_update uuidShape Sample.valueToString Sample.cannotRead
    Sample.notIterable Sample.persist defaultConfig 1700000060000 1700000060001
    (Sample.commitParams (js "approved by ops") (Some (js "retry-1")))
    Sample.context first.2
  = (Ok (AlreadyCompleted
           (js "Operation already completed (idempotency match)")
           (js "Updated 2/3 products. 1 errors.")),
     first.2).
Proof.
  intros first.
  assert (H1 : commit_bulk_update uuidShape Sample.valueToString
                 Sample.cannotRead Sample.notIterable Sample.persist defaultConfig
                 1700000000001 1700000000002
                 (Sample.commitParams (js "approved by ops") (Some (js "retry-1")))
                 Sample.context Sample.server
               = (Ok (Committed (js "Updated 2/3 products. 1 errors.") 2 1
                        (Some [(JString (js "B 2"),
                                js "Magento API Error (404): gone")])),
                  first.2)) by (vm_compute; reflexivity).
  destruct (C2_idempotent_replay _ _ _ _ _ _ _ _ _ _ _ _ _ _ (js "retry-1")
              {| key := js "retry-1";
                 entry_action := js "catalog.commit_bulk_update";
                 entry_created_at := 1700000000002;
                 result_summary := js "Updated 2/3 products. 1 errors." |}
              _ _ _ _ H1) as [_ R]; [vm_compute; reflexivity.. |].
  rewrite (R 1700000060000%Z 1700000060001%Z
             (Sample.commitParams (js "approved by ops") (Some (js "retry-1")))
             Sample.context) by (vm_compute; reflexivity).
  vm_compute. reflexivity.
Defined.

(** ** C8: one record at a time, in payload order *)

Section LoopFacts.

Variable valueToString : JsValue -> jsstring.
Variable World : Type.
Variable client : Client World.

(** The request the handler makes for a record is the one of the record. *)
Lemma putRequest_spec (payload storeCode sku : JsValue) :
  putRequest valueToString payload storeCode sku
  = spec_request valueToString (ownEntries (member payload (js "updates")))
      storeCode sku.
Proof.
  unfold putRequest, spec_request.
  by destruct (encodeURIComponent (toStr valueToString sku)).
Qed.

(** The store view the handler reads is the one of the scope of the plan. *)
Lemma storeViewCode_Ok (cannotRead : JsValue -> jsstring)
    (payload storeCode : JsValue) :
  storeViewCode cannotRead payload = Ok storeCode ->
  storeCode = member (member payload (js "scope")) (js "store_view_code").
Proof.
  unfold storeViewCode. destruct payload; try discriminate;
    try (by intros [= <-]).
  destruct (member _ _); by intros [= <-].
Qed.

Lemma storeViewCode_object (cannotRead : JsValue -> jsstring)
    (props : list (jsstring * JsValue)) :
  storeViewCode cannotRead (JObject props)
  = Ok (member (member (JObject props) (js "scope")) (js "store_view_code")).
Proof. unfold storeViewCode. by destruct (member _ _). Qed.

Variable request : JsValue -> option PutRequest.

Lemma spec_requests_cons (sku : JsValue) (rest : list JsValue) :
  spec_requests request (sku :: rest)
  = match request sku with
    | Some req => req :: spec_requests request rest
    | None => spec_requests request rest
    end.
Proof. reflexivity. Qed.

(** Every record has a result, in the order of the records. *)
Lemma spec_results_records (records : list JsValue) (w : World) :
  map fst (spec_results client request records w).1 = records.
Proof.
  revert w. induction records as [|sku rest IH]; intros w; simpl; [done|].
  destruct (match request sku with
            | Some req => put client req w
            | None => (Some (js "URI malformed"), w)
            end) as [r w1].
  specialize (IH w1).
  destruct (spec_results client request rest w1) as [rs w2]. simpl in *.
  by rewrite IH.
Qed.

(** A result is a success or a failure, never both and never neither. *)
Lemma successes_failures (rs : list (JsValue * option jsstring)) :
  (successes rs + length (failures rs))%nat = length rs.
Proof.
  induction rs as [|[sku [msg|]] rs IH]; simpl; lia.
Qed.

(** The loop with its two accumulators against the list of results. *)
Lemma loop_results (payload storeCode : JsValue) (records : list JsValue)
    (p : Progress World) :
  (forall sku, putRequest valueToString payload storeCode sku = request sku) ->
  fold_left (putOne valueToString client payload storeCode) records p
  = {| successCount :=
         (successCount p
          + successes (spec_results client request records (p_world p)).1)%nat;
       errors :=
         errors p ++ failures (spec_results client request records (p_world p)).1;
       p_world := (spec_results client request records (p_world p)).2;
       p_requests := p_requests p ++ spec_requests request records |}.
Proof.
  intros Hreq. revert p. induction records as [|sku rest IH]; intros p.
  - destruct p; simpl. by rewrite Nat.add_0_r, !app_nil_r.
  - simpl. rewrite IH. unfold putOne, tryPut, spec_requests. rewrite Hreq.
    cbn [omap]. fold (omap request rest).
    destruct (request sku) as [req|]; simpl.
    + destruct (put client req (p_world p)) as [[msg|] w1]; simpl;
        destruct (spec_results client request rest w1) as [rs w2]; simpl.
      * by rewrite <- !app_assoc.
      * f_equal; [lia | by rewrite <- app_assoc].
    + destruct (spec_results client request rest (p_world p)) as [rs w2]; simpl.
      by rewrite ?app_nil_r, <- ?app_assoc.
Qed.

End LoopFacts.




(** ** C3: the order of the signed parameters *)

(** C3, on the code. With the query keys
    [searchCriteria[filterGroups][1]...] and [searchCriteria[filterGroups][10]...],
    [paramString] puts group 10 before group 1: it sorts the keys as they are
    ([0] is below []]) and encodes them afterwards, while the order by encoded
    key puts group 1 first ([%] is below [0]). *)
Theorem C3_paramString_sorts_before_encoding :
  let all := allParams Sample.creds (js "9f86d081") (js "1700000000")
               (Some Sample.searchQuery) in
  paramString all
  = Some (js "oauth_consumer_key=ck&oauth_nonce=9f86d081&oauth_signature_method=HMAC-SHA256&oauth_timestamp=1700000000&oauth_token=tk&oauth_version=1.0&searchCriteria%5BfilterGroups%5D%5B10%5D%5Bfilters%5D%5B0%5D%5Bfield%5D=name&searchCriteria%5BfilterGroups%5D%5B1%5D%5Bfilters%5D%5B0%5D%5Bfield%5D=sku")
  /\ spec_paramString all
     = Some (js "oauth_consumer_key=ck&oauth_nonce=9f86d081&oauth_signature_method=HMAC-SHA256&oauth_timestamp=1700000000&oauth_token=tk&oauth_version=1.0&searchCriteria%5BfilterGroups%5D%5B1%5D%5Bfilters%5D%5B0%5D%5Bfield%5D=sku&searchCriteria%5BfilterGroups%5D%5B10%5D%5Bfilters%5D%5B0%5D%5Bfield%5D=name")
  /\ paramString all <> spec_paramString all.
Proof.
  vm_compute. repeat split; discriminate.
Qed.

(** Without query parameters the two orders coincide: the names of the
    protocol parameters need no encoding. *)
Lemma paramString_protocol_only (oauth : OAuthCredentials)
    (nonce timestamp : jsstring) :
  paramString (oauthParams oauth nonce timestamp)
  = spec_paramString (oauthParams oauth nonce timestamp).
Proof.
  destruct oauth as [ck cs tk ts].
  unfold paramString, spec_paramString, oauthParams.
  change (sort_strings (obj_keys ?l)) with (obj_keys l).
  cbn [traverse obj_keys map fst snd consumerKey token].
  repeat match goal with
         | |- context [str_prop ?o ?k] =>
             let v := eval vm_compute in (obj_get k o) in
             match v with
             | Some ?x => change (str_prop o k) with x
             end
         end.
  destruct (rfc3986Encode ck) as [e1|]; [|reflexivity].
  destruct (rfc3986Encode nonce) as [e2|]; [|reflexivity].
  destruct (rfc3986Encode timestamp) as [e3|]; [|reflexivity].
  destruct (rfc3986Encode tk) as [e4|]; reflexivity.
Qed.

(** ** Signing returns on well-formed strings *)

Lemma div_bound (a b q : N) : b <> 0 -> a < b * q -> a / b < q.
Proof. intros Hb H. by apply N.Div0.div_lt_upper_bound. Qed.

Lemma octet_lead (h a b q : N) :
  b <> 0 -> a < b * q -> h + q <= 256 -> h + a / b < 256.
Proof. intros Hb H Hq. pose proof (div_bound a b q Hb H). lia. Qed.

Lemma octet_tail (a : N) : 128 + a mod 64 < 256.
Proof. pose proof (N.mod_upper_bound a 64). lia. Qed.

Lemma utf8_octets (cp : N) : cp < 1114112 -> Forall (fun b => b < 256) (utf8 cp).
Proof.
  intros H. unfold utf8.
  destruct (N.ltb_spec cp 128); [repeat constructor; cbn beta; lia|].
  destruct (N.ltb_spec cp 2048).
  { repeat constructor; cbn beta; try apply octet_tail.
    apply (octet_lead _ _ _ 32); lia. }
  destruct (N.ltb_spec cp 65536).
  { repeat constructor; cbn beta; try apply octet_tail.
    apply (octet_lead _ _ _ 16); lia. }
  repeat constructor; cbn beta; try apply octet_tail.
  apply (octet_lead _ _ _ 16); lia.
Qed.

Lemma hexDigit_ascii (d : N) : d < 16 -> hexDigit d < 128.
Proof. intros H. unfold hexDigit. destruct (d <? 10); lia. Qed.

Lemma percentOctets_ascii (bs : list N) :
  Forall (fun b => b < 256) bs -> Forall (fun c => c < 128) (percentOctets bs).
Proof.
  unfold percentOctets. induction 1 as [|b bs Hb _ IH]; simpl; [constructor|].
  repeat (constructor; cbn beta); try exact IH.
  - apply hexDigit_ascii, div_bound; lia.
  - apply hexDigit_ascii, N.mod_upper_bound. lia.
Qed.

Lemma uriUnreserved_ascii (c : N) : uriUnreserved c = true -> c < 128.
Proof.
  unfold uriUnreserved. intros H.
  repeat (apply orb_prop in H; destruct H as [H|H]);
    repeat (apply andb_prop in H; destruct H as [H ?]);
    repeat match goal with
           | H : (_ <=? _) = true |- _ => apply N.leb_le in H
           | H : (_ =? _) = true |- _ => apply N.eqb_eq in H
           end; lia.
Qed.

Lemma surrogate_not_ascii (c : N) :
  c < 128 -> isHighSurrogate c = false /\ isLowSurrogate c = false.
Proof.
  intros H. unfold isHighSurrogate, isLowSurrogate.
  split; apply andb_false_intro1, N.leb_gt; lia.
Qed.

(** A string of code units ([validString]) with every surrogate paired
    ([isWellFormed]) is encoded, and to ASCII. *)
Lemma encodeURIComponent_wellFormed (s : jsstring) :
  validString s -> isWellFormed s = true ->
  exists r, encodeURIComponent s = Some r /\ Forall (fun c => c < 128) r.
Proof.
  remember (length s) as n eqn:Hn. revert s Hn.
  induction n as [n IH] using lt_wf_ind. intros s -> Hv Hw.
  destruct s as [|c rest]; [by exists []|].
  apply Forall_cons in Hv as [Hc Hv]. simpl in Hw |- *.
  destruct (uriUnreserved c) eqn:Hu.
  { destruct (surrogate_not_ascii c (uriUnreserved_ascii c Hu)) as [Hh Hl].
    rewrite Hl, Hh in Hw.
    destruct (IH (length rest) ltac:(simpl; lia) rest eq_refl Hv Hw)
      as (r & -> & Hr).
    exists (c :: r). split; [done|]. constructor; [|done].
    by apply uriUnreserved_ascii. }
  destruct (isLowSurrogate c) eqn:Hl; [done|].
  destruct (isHighSurrogate c) eqn:Hh.
  - destruct rest as [|d rest']; [done|].
    apply Forall_cons in Hv as [Hd Hv].
    destruct (isLowSurrogate d) eqn:Hdl; [|done]. simpl in Hw.
    destruct (IH (length rest') ltac:(simpl; lia) rest' eq_refl Hv Hw)
      as (r & -> & Hr).
    eexists. split; [done|]. apply Forall_app. split; [|done].
    apply percentOctets_ascii, utf8_octets.
    unfold isHighSurrogate, isLowSurrogate in Hh, Hdl.
    apply andb_prop in Hh as [H1 H2]. apply andb_prop in Hdl as [H3 H4].
    apply N.leb_le in H1, H2, H3, H4. lia.
  - destruct (IH (length rest) ltac:(simpl; lia) rest eq_refl Hv Hw)
      as (r & -> & Hr).
    eexists. split; [done|]. apply Forall_app. split; [|done].
    apply percentOctets_ascii, utf8_octets. cbn beta in Hc. lia.
Qed.

Lemma ascii_wellFormed (s : jsstring) :
  Forall (fun c => c < 128) s -> validString s /\ isWellFormed s = true.
Proof.
  unfold validString. induction 1 as [|c s Hc _ [IHv IHw]]; [done|].
  split; [constructor; [lia|done]|]. simpl.
  destruct (surrogate_not_ascii c Hc) as [-> ->]. done.
Qed.

Lemma replaceSubDelims_ascii (s : jsstring) :
  Forall (fun c => c < 128) s -> Forall (fun c => c < 128) (replaceSubDelims s).
Proof.
  unfold replaceSubDelims. induction 1 as [|c s Hc _ IH]; simpl; [constructor|].
  apply Forall_app. split; [|exact IH].
  destruct (isSubDelim c) eqn:Hs; [|by constructor].
  unfold isSubDelim in Hs.
  repeat (apply orb_prop in Hs; destruct Hs as [Hs|Hs]);
    apply N.eqb_eq in Hs; subst c; vm_compute;
    repeat (constructor; [reflexivity|]); constructor.
Qed.

(** [rfc3986Encode] returns, with an ASCII string, on every string value
    whose surrogates are paired. *)
Lemma rfc3986Encode_wellFormed (s : jsstring) :
  validString s -> isWellFormed s = true ->
  exists r, rfc3986Encode s = Some r /\ Forall (fun c => c < 128) r.
Proof.
  intros Hv Hw. unfold rfc3986Encode.
  destruct (encodeURIComponent_wellFormed s Hv Hw) as (r & -> & Hr).
  eexists. split; [done|]. by apply replaceSubDelims_ascii.
Qed.

Lemma rfc3986Encode_ascii (s : jsstring) :
  Forall (fun c => c < 128) s ->
  exists r, rfc3986Encode s = Some r /\ Forall (fun c => c < 128) r.
Proof.
  intros H. destruct (ascii_wellFormed s H). by apply rfc3986Encode_wellFormed.
Qed.

Lemma join_ascii (sep : jsstring) (parts : list jsstring) :
  Forall (fun c => c < 128) sep -> Forall (Forall (fun c => c < 128)) parts ->
  Forall (fun c => c < 128) (join sep parts).
Proof.
  intros Hsep. induction 1 as [|p parts Hp Hparts IH]; simpl; [constructor|].
  destruct parts as [|q parts]; [done|].
  apply Forall_app. split; [done|]. apply Forall_app. by split.
Qed.

Lemma traverse_Some {A B} (f : A -> option B) (P : A -> Prop) (Q : B -> Prop)
    (l : list A) :
  (forall x, P x -> exists y, f x = Some y /\ Q y) ->
  Forall P l -> exists ys, traverse f l = Some ys /\ Forall Q ys.
Proof.
  intros Hf. induction 1 as [|x l Hx _ (ys & IH & Hys)]; simpl; [by exists []|].
  destruct (Hf x Hx) as (y & -> & Hy). simpl. rewrite IH. simpl.
  exists (y :: ys). split; [done|]. by constructor.
Qed.

Lemma insert_sorted_Forall {A} (leb : A -> A -> bool) (P : A -> Prop) (x : A)
    (l : list A) :
  P x -> Forall P l -> Forall P (insert_sorted leb x l).
Proof.
  intros Hx. induction 1 as [|y l Hy Hl IH]; simpl.
  - constructor; [done|constructor].
  - destruct (leb x y); constructor; try done. by constructor.
Qed.

Lemma sort_by_Forall {A} (leb : A -> A -> bool) (P : A -> Prop) (l : list A) :
  Forall P l -> Forall P (sort_by leb l).
Proof.
  unfold sort_by. induction 1; simpl; [constructor|].
  by apply insert_sorted_Forall.
Qed.

(** Strings that can be signed, and maps of them. *)
Lemma obj_assign_good (dst src : strmap) :
  goodMap dst -> goodMap src -> goodMap (obj_assign dst src).
Proof. apply obj_assign_Forall. Qed.

Lemma str_prop_good (o : strmap) (k : jsstring) :
  goodMap o -> goodString (str_prop o k).
Proof.
  unfold str_prop, goodMap.
  induction 1 as [|[k' v'] o [Hk Hv] _ IH]; simpl.
  - apply ascii_wellFormed. vm_compute. repeat (constructor; [reflexivity|]).
    constructor.
  - case_decide; done.
Qed.

Lemma obj_keys_good (o : strmap) : goodMap o -> Forall goodString (obj_keys o).
Proof.
  unfold obj_keys, goodMap. induction 1 as [|[k v] o [Hk Hv] _ IH]; simpl;
    constructor; done.
Qed.

Lemma literal_good (s : jsstring) :
  forallb (fun c => c <? 128) s = true -> goodString s.
Proof.
  intros H. apply ascii_wellFormed. apply Forall_forall. intros c Hc.
  rewrite forallb_forall in H. apply N.ltb_lt, H. by apply list_elem_of_In.
Qed.

Lemma cat_ascii (a b : jsstring) :
  Forall (fun c => c < 128) a -> Forall (fun c => c < 128) b ->
  Forall (fun c => c < 128) (a +++ b).
Proof. intros Ha Hb. apply Forall_app. by split. Qed.

Lemma literal_ascii (s : jsstring) :
  forallb (fun c => c <? 128) s = true -> Forall (fun c => c < 128) s.
Proof.
  intros H. apply Forall_forall. intros c Hc.
  rewrite forallb_forall in H. apply N.ltb_lt, H. by apply list_elem_of_In.
Qed.

Lemma paramString_total (all : strmap) :
  goodMap all ->
  exists ps, paramString all = Some ps /\ Forall (fun c => c < 128) ps.
Proof.
  intros Hall. unfold paramString.
  match goal with
  | |- context [traverse ?f ?l] =>
      destruct (traverse_Some f goodString (Forall (fun c => c < 128)) l)
        as (parts & -> & Hparts)
  end.
  - intros k [Hv Hw].
    destruct (rfc3986Encode_wellFormed k Hv Hw) as (ek & -> & Hek).
    destruct (str_prop_good all k Hall) as [Hv' Hw'].
    destruct (rfc3986Encode_wellFormed _ Hv' Hw') as (ev & -> & Hev).
    eexists. split; [done|].
    apply cat_ascii; [done|]. apply cat_ascii; [|done].
    by apply literal_ascii.
  - apply sort_by_Forall. by apply obj_keys_good.
  - eexists. split; [done|]. apply join_ascii; [|done]. by apply literal_ascii.
Qed.

Lemma oauthParams_good (oauth : OAuthCredentials) (nonce timestamp : jsstring) :
  goodCredentials oauth -> goodString nonce -> goodString timestamp ->
  goodMap (oauthParams oauth nonce timestamp).
Proof.
  intros (Hck & _ & Htk & _) Hn Ht. unfold oauthParams, goodMap.
  repeat (constructor; [split; try done; by apply literal_good|]).
  constructor.
Qed.

Lemma allParams_good (oauth : OAuthCredentials) (nonce timestamp : jsstring)
    (query : option strmap) :
  goodCredentials oauth -> goodString nonce -> goodString timestamp ->
  from_option goodMap True query ->
  goodMap (allParams oauth nonce timestamp query).
Proof.
  intros Ho Hn Ht Hq. unfold allParams.
  destruct query as [q|]; [|by apply oauthParams_good].
  apply obj_assign_good; [by apply oauthParams_good | done].
Qed.

(** ** The order of strings, and sorting *)

Lemma str_compare_refl (a : jsstring) : str_compare a a = Eq.
Proof. induction a as [|x a IH]; simpl; [done|]. by rewrite N.compare_refl. Qed.

Lemma str_compare_Eq (a b : jsstring) : str_compare a b = Eq -> a = b.
Proof.
  revert b. induction a as [|x a IH]; intros [|y b]; simpl; try done.
  destruct (N.compare_spec x y) as [->| |]; try done.
  intros H. by rewrite (IH b H).
Qed.

Lemma str_compare_opp (a b : jsstring) :
  str_compare b a = CompOpp (str_compare a b).
Proof.
  revert b. induction a as [|x a IH]; intros [|y b]; simpl; try done.
  rewrite (N.compare_antisym x y).
  destruct (x ?= y); simpl; [apply IH|done|done].
Qed.

Lemma str_compare_Lt_trans (a b c : jsstring) :
  str_compare a b = Lt -> str_compare b c = Lt -> str_compare a c = Lt.
Proof.
  revert b c. induction a as [|x a IH]; intros [|y b] [|z c]; simpl; try done.
  destruct (N.compare_spec x y) as [->|Hxy|Hxy]; try done.
  - destruct (N.compare_spec y z) as [->|Hyz|Hyz]; try done. apply IH.
  - destruct (N.compare_spec y z) as [->|Hyz|Hyz]; try done; intros _ _.
    + destruct (N.compare_spec x z); [lia|done|lia].
    + destruct (N.compare_spec x z); [lia|done|lia].
Qed.

Lemma str_le_cases (a b : jsstring) : str_le a b <-> str_lt a b \/ a = b.
Proof.
  unfold str_le, str_lt, str_leb. split.
  - destruct (str_compare a b) eqn:E; try done; intros _.
    + right. by apply str_compare_Eq.
    + by left.
  - intros [->| ->]; [done|]. by rewrite str_compare_refl.
Qed.

Lemma str_lt_irrefl (a : jsstring) : ~ str_lt a a.
Proof. unfold str_lt. by rewrite str_compare_refl. Qed.

Lemma str_lt_asym (a b : jsstring) : str_lt a b -> ~ str_lt b a.
Proof. unfold str_lt. intros H. by rewrite str_compare_opp, H. Qed.

Lemma str_le_trans : Transitive str_le.
Proof.
  intros a b c. rewrite !str_le_cases. intros [H1| ->] [H2| ->]; auto.
  left. by eapply str_compare_Lt_trans.
Qed.

Lemma str_le_antisym : AntiSymm (=) str_le.
Proof.
  intros a b. rewrite !str_le_cases. intros [H1| ->] [H2|H2]; auto.
  by destruct (str_lt_asym a b).
Qed.

Lemma str_le_total : Total str_le.
Proof.
  intros a b. unfold str_le, str_leb. rewrite (str_compare_opp a b).
  destruct (str_compare a b); simpl; auto.
Qed.

Lemma pair_le_cases (p q : jsstring * jsstring) :
  pair_le p q <-> str_lt (fst p) (fst q) \/ (fst p = fst q /\ str_le (snd p) (snd q)).
Proof.
  unfold pair_le, pair_leb, str_lt. split.
  - destruct (str_compare (fst p) (fst q)) eqn:E; try done.
    + intros H. right. split; [by apply str_compare_Eq|done].
    + by left.
  - intros [->|[-> H]]; [done|]. by rewrite str_compare_refl.
Qed.

Lemma pair_le_trans : Transitive pair_le.
Proof.
  intros p q r. rewrite !pair_le_cases.
  intros [H1|[E1 H1]] [H2|[E2 H2]].
  - left. by eapply str_compare_Lt_trans.
  - left. by rewrite <- E2.
  - left. by rewrite E1.
  - right. split; [congruence|]. by apply (str_le_trans _ (snd q)).
Qed.

Lemma pair_le_antisym : AntiSymm (=) pair_le.
Proof.
  intros [a b] [c d]. rewrite !pair_le_cases. simpl.
  intros [H1|[E1 H1]] [H2|[E2 H2]].
  - by destruct (str_lt_asym a c).
  - rewrite E2 in H1. by destruct (str_lt_irrefl a).
  - rewrite E1 in H2. by destruct (str_lt_irrefl c).
  - rewrite E1. f_equal. by apply str_le_antisym.
Qed.

Lemma pair_le_total : Total pair_le.
Proof.
  intros p q. rewrite !pair_le_cases.
  destruct (str_compare (fst p) (fst q)) eqn:E.
  - apply str_compare_Eq in E. destruct (str_le_total (snd p) (snd q)); auto.
  - left. by left.
  - right. left. unfold str_lt. by rewrite str_compare_opp, E.
Qed.

Section SortFacts.

Context {A : Type} (leb : A -> A -> bool) (R : relation A).
Hypothesis R_leb : forall x y, R x y <-> leb x y = true.

Lemma insert_sorted_perm (x : A) (l : list A) : insert_sorted leb x l ≡ₚ x :: l.
Proof.
  induction l as [|y l IH]; simpl; [done|].
  destruct (leb x y); [done|]. rewrite IH. apply Permutation_swap.
Qed.

Lemma sort_by_perm (l : list A) : sort_by leb l ≡ₚ l.
Proof.
  unfold sort_by. induction l as [|x l IH]; simpl; [done|].
  by rewrite insert_sorted_perm, IH.
Qed.

Hypothesis R_trans : Transitive R.
Hypothesis R_total : Total R.

Lemma insert_sorted_sorted (x : A) (l : list A) :
  StronglySorted R l -> StronglySorted R (insert_sorted leb x l).
Proof.
  induction 1 as [|y l Hl IH Hy]; simpl; [by repeat constructor|].
  destruct (leb x y) eqn:E.
  - apply R_leb in E. constructor; [by constructor|]. constructor; [exact E|].
    eapply Forall_impl; [exact Hy|]. intros z Hz. by apply (R_trans _ y).
  - constructor; [exact IH|].
    rewrite insert_sorted_perm. constructor; [|exact Hy].
    destruct (R_total x y) as [H|H]; [|exact H].
    apply R_leb in H. congruence.
Qed.

Lemma sort_by_sorted (l : list A) : StronglySorted R (sort_by leb l).
Proof.
  unfold sort_by. induction l as [|x l IH]; simpl; [constructor|].
  by apply insert_sorted_sorted.
Qed.

Hypothesis R_antisym : AntiSymm (=) R.

(** The sorted list is the only arrangement in order. *)
Lemma sort_by_of_sorted (l l' : list A) :
  StronglySorted R l' -> l' ≡ₚ l -> sort_by leb l = l'.
Proof.
  intros Hs Hp.
  apply (@StronglySorted_unique _ R R_antisym); [apply sort_by_sorted|done|].
  by rewrite sort_by_perm.
Qed.

Lemma sort_by_perm_eq (l l' : list A) : l ≡ₚ l' -> sort_by leb l = sort_by leb l'.
Proof.
  intros Hp. apply sort_by_of_sorted; [apply sort_by_sorted|].
  by rewrite sort_by_perm.
Qed.

End SortFacts.

(** [traverse] on rearranged lists. *)
Lemma traverse_perm {A B} (f : A -> option B) (l l' : list A) (E : list B) :
  l ≡ₚ l' -> traverse f l = Some E ->
  exists E', traverse f l' = Some E' /\ E ≡ₚ E'.
Proof.
  intros Hp. revert E. induction Hp as [|x l l' Hp IH|x y l|l1 l2 l3 H1 IH1 H2 IH2];
    intros E; simpl.
  - intros [= <-]. by exists [].
  - destruct (f x) as [y|]; [|done]. simpl.
    destruct (traverse f l) as [E0|]; [|done]. simpl. intros [= <-].
    destruct (IH E0 eq_refl) as (E' & -> & HE). simpl.
    eexists. split; [done|]. by constructor.
  - destruct (f y) as [b|]; [|done]. simpl.
    destruct (f x) as [a|]; [|done]. simpl.
    destruct (traverse f l) as [E0|]; [|done]. simpl. intros [= <-].
    eexists. split; [done|]. apply Permutation_swap.
  - intros H. destruct (IH1 E H) as (E1 & HE1 & Hp1).
    destruct (IH2 E1 HE1) as (E2 & HE2 & Hp2).
    exists E2. split; [done|]. by etrans.
Qed.

Lemma traverse_perm_None {A B} (f : A -> option B) (l l' : list A) :
  l ≡ₚ l' -> traverse f l = None -> traverse f l' = None.
Proof.
  intros Hp H. destruct (traverse f l') as [E'|] eqn:HE; [|done].
  symmetry in Hp. destruct (traverse_perm f l' l E' Hp HE) as (E & HE' & _).
  congruence.
Qed.

Lemma traverse_map {A B C} (f : B -> option C) (g : A -> B) (l : list A) :
  traverse f (map g l) = traverse (fun x => f (g x)) l.
Proof.
  induction l as [|x l IH]; simpl; [done|]. by rewrite IH.
Qed.

Lemma traverse_fmap {A B C} (f : A -> option B) (g : B -> C) (l : list A) :
  traverse (fun x => g <$> f x) l = map g <$> traverse f l.
Proof.
  induction l as [|x l IH]; simpl; [done|]. rewrite IH.
  destruct (f x) as [y|]; [|done]. simpl.
  by destruct (traverse f l).
Qed.

Lemma traverse_ext {A B} (f g : A -> option B) (l : list A) :
  (forall x, f x = g x) -> traverse f l = traverse g l.
Proof.
  intros H. induction l as [|x l IH]; simpl; [done|]. by rewrite H, IH.
Qed.

(** ** Objects as sets of properties *)

Lemma obj_insert_perm {V} (k : jsstring) (v : V) (o : list (jsstring * V)) :
  obj_insert k v o ≡ₚ (k, v) :: o.
Proof.
  induction o as [|[k0 v0] o IH]; simpl; [done|].
  destruct (listedBefore k k0); [done|]. rewrite IH. apply Permutation_swap.
Qed.

Lemma obj_get_None {V} (k : jsstring) (o : list (jsstring * V)) :
  obj_get k o = None <-> k ∉ obj_keys o.
Proof.
  unfold obj_keys. induction o as [|[k0 v0] o IH]; simpl.
  - split; [intros _; apply not_elem_of_nil|done].
  - rewrite not_elem_of_cons. destruct (decide (k0 = k)) as [->|Hne].
    + split; [done|]. by intros [? _].
    + rewrite IH. split; [intros H; split; [congruence|done]|by intros [_ ?]].
Qed.

(** Assigning properties with new names, none of them [__proto__], adds
    them. *)
Lemma obj_assign_fresh {V} (dst src : list (jsstring * V)) :
  NoDup (obj_keys dst ++ obj_keys src) -> js "__proto__" ∉ obj_keys src ->
  obj_assign dst src ≡ₚ dst ++ src.
Proof.
  unfold obj_assign. revert dst.
  induction src as [|[k v] src IH]; intros dst Hnd Hproto; simpl.
  { by rewrite app_nil_r. }
  unfold obj_keys in *. simpl in Hnd, Hproto.
  apply not_elem_of_cons in Hproto as [Hk Hproto].
  apply NoDup_app in Hnd as (Hd & Hdisj & Hs).
  apply NoDup_cons in Hs as [Hks Hs].
  assert (Hfresh : k ∉ map fst dst).
  { intros Hin. apply (Hdisj k Hin). by left. }
  assert (Hset : obj_set k v dst = obj_insert k v dst).
  { unfold obj_set.
    assert (obj_has k dst = false) as -> by (by apply obj_has_false, obj_get_None).
    by rewrite decide_False. }
  rewrite Hset, IH; [| |done].
  - rewrite obj_insert_perm. simpl. apply Permutation_middle.
  - rewrite (fmap_Permutation fst _ _ (obj_insert_perm k v dst)).
    apply NoDup_app. split; [|split; [|done]].
    + simpl. by apply NoDup_cons.
    + intros x. simpl. rewrite elem_of_cons. intros [->|Hx]; [done|].
      intros Hx'. apply (Hdisj x Hx). by right.
Qed.

(** An object whose names are distinct is the list of its names with their
    values. *)
Lemma obj_entries (o : strmap) :
  NoDup (obj_keys o) -> map (fun k => (k, str_prop o k)) (obj_keys o) = o.
Proof.
  unfold obj_keys, str_prop. induction o as [|[k v] o IH]; simpl; [done|].
  intros [Hk Ho]%NoDup_cons. rewrite decide_True by done. simpl. f_equal.
  rewrite <- (IH Ho) at 2. apply map_ext_in. intros k' Hin.
  rewrite decide_False; [done|]. intros <-. apply Hk.
  by apply list_elem_of_In.
Qed.

(** ** Sorting the parameters before or after encoding them *)

Lemma ascending_sorted (l : list jsstring) :
  ascending l = true -> Sorted str_lt l.
Proof.
  induction l as [|a l IH]; [constructor|]. simpl.
  destruct l as [|b l]; [by repeat constructor|].
  destruct (str_compare a b) eqn:E; try done.
  intros H. constructor; [by apply IH|]. by constructor.
Qed.

Lemma str_lt_trans : Transitive str_lt.
Proof. intros a b c. apply str_compare_Lt_trans. Qed.

Lemma ascending_NoDup (l : list jsstring) : ascending l = true -> NoDup l.
Proof.
  intros H%ascending_sorted.
  apply (@Sorted_StronglySorted _ str_lt str_lt_trans) in H.
  induction H as [|a l Hl IH Ha]; constructor; [|done].
  intros Hin. rewrite Forall_forall in Ha.
  by destruct (str_lt_irrefl a (Ha a Hin)).
Qed.

Lemma traverse_elem_of {A B} (f : A -> option B) (l : list A) (E : list B)
    (x : A) (y : B) :
  traverse f l = Some E -> x ∈ l -> f x = Some y -> y ∈ E.
Proof.
  revert E. induction l as [|a l IH]; intros E; simpl.
  - intros _ Hx. by apply elem_of_nil in Hx.
  - destruct (f a) as [b|] eqn:Ha; [|done]. simpl.
    destruct (traverse f l) as [E0|]; [|done]. simpl. intros [= <-].
    rewrite !elem_of_cons. intros [Hxa|Hx] Hy.
    + left. subst x. congruence.
    + right. by apply IH.
Qed.

Lemma traverse_NoDup {A B} (f : A -> option B) (l : list A) (E : list B) :
  traverse f l = Some E -> NoDup E -> NoDup l.
Proof.
  revert E. induction l as [|a l IH]; intros E; simpl; [constructor|].
  destruct (f a) as [b|] eqn:Ha; [|done]. simpl.
  destruct (traverse f l) as [E0|] eqn:Hl; [|done]. simpl. intros [= <-].
  intros [Hb HE]%NoDup_cons. constructor; [|by eapply IH].
  intros Hin. apply Hb. by eapply traverse_elem_of.
Qed.

Lemma namesInOrder_NoDup (names : list jsstring) :
  namesInOrder names = true -> NoDup names.
Proof.
  unfold namesInOrder.
  destruct (traverse rfc3986Encode (sort_strings names)) as [eks|] eqn:He;
    [|done].
  intros H%ascending_NoDup. apply (traverse_NoDup _ _ _ He) in H.
  unfold sort_strings in H. by rewrite sort_by_perm in H.
Qed.

Lemma traverse_encodePair_names (l E : list (jsstring * jsstring)) :
  traverse encodePair l = Some E ->
  traverse rfc3986Encode (map fst l) = Some (map fst E).
Proof.
  revert E. induction l as [|[k v] l IH]; intros E.
  - by intros [= <-].
  - cbn [traverse map fst].
    change (encodePair (k, v))
      with (rfc3986Encode k ≫= fun ek =>
            rfc3986Encode v ≫= fun ev => Some (ek, ev)).
    destruct (rfc3986Encode k) as [ek|]; [|done].
    destruct (rfc3986Encode v) as [ev|]; [|done].
    destruct (traverse encodePair l) as [E0|]; [|done].
    cbn [mbind option_bind]. intros [= <-]. by rewrite (IH E0 eq_refl).
Qed.

(** Pairs whose names are in strictly ascending order are in the order of
    the spec. *)
Lemma ascending_pairs (E : list (jsstring * jsstring)) :
  ascending (map fst E) = true -> StronglySorted pair_le E.
Proof.
  intros H. apply (@Sorted_StronglySorted _ pair_le pair_le_trans).
  induction E as [|p E IH]; [constructor|].
  simpl in H. destruct E as [|q E]; [by repeat constructor|].
  simpl in H. destruct (str_compare (fst p) (fst q)) eqn:Hc; try done.
  constructor; [by apply IH|]. constructor.
  apply pair_le_cases. by left.
Qed.

(** Where the names, sorted as they are, stay in order when they are
    encoded, the parameter string of the code is the one of the spec. *)
Lemma paramString_in_order (all allS : strmap) :
  all ≡ₚ allS -> namesInOrder (obj_keys allS) = true ->
  paramString all = spec_paramString allS.
Proof.
  intros Hp Hord.
  assert (Hkeys : obj_keys all ≡ₚ obj_keys allS).
  { unfold obj_keys. by apply (fmap_Permutation fst). }
  assert (Hnd : NoDup (obj_keys all)).
  { rewrite Hkeys. by apply namesInOrder_NoDup. }
  assert (Hks : sort_strings (obj_keys all) = sort_strings (obj_keys allS)).
  { unfold sort_strings.
    by apply (sort_by_perm_eq str_leb str_le (fun x y => iff_refl _)
                str_le_trans str_le_total str_le_antisym). }
  unfold namesInOrder in Hord. rewrite <- Hks in Hord.
  set (ks := sort_strings (obj_keys all)) in *.
  destruct (traverse rfc3986Encode ks) as [eks|] eqn:Heks; [|done].
  set (Lc := map (fun k => (k, str_prop all k)) ks).
  assert (HLc : Lc ≡ₚ allS).
  { rewrite <- Hp.
    assert (H : Lc ≡ₚ map (fun k => (k, str_prop all k)) (obj_keys all)).
    { unfold Lc, ks, sort_strings.
      apply (fmap_Permutation (fun k => (k, str_prop all k))), sort_by_perm. }
    by rewrite (obj_entries all Hnd) in H. }
  assert (Hcode : paramString all
                  = join (js "&") <$> (map writePair <$> traverse encodePair Lc)).
  { unfold paramString. fold ks. f_equal. unfold Lc.
    rewrite <- traverse_fmap, traverse_map. apply traverse_ext.
    intros k. unfold encodePair, writePair. simpl.
    destruct (rfc3986Encode k); [|done]. simpl.
    by destruct (rfc3986Encode (str_prop all k)). }
  assert (Hspec : spec_paramString allS
                  = (encoded ← traverse encodePair allS;
                     Some (join (js "&")
                             (map writePair (sort_by pair_leb encoded))))).
  { reflexivity. }
  rewrite Hcode, Hspec.
  destruct (traverse encodePair Lc) as [Ec|] eqn:HEc.
  - destruct (traverse_perm encodePair Lc allS Ec HLc HEc) as (Es & -> & HE).
    simpl. do 3 f_equal. symmetry.
    apply (sort_by_of_sorted pair_leb pair_le (fun x y => iff_refl _)
             pair_le_trans pair_le_total pair_le_antisym); [|done].
    apply ascending_pairs.
    apply traverse_encodePair_names in HEc.
    assert (map fst Lc = ks) as Hfst.
    { unfold Lc. rewrite map_map. simpl. apply map_id. }
    rewrite Hfst, Heks in HEc. by injection HEc as <-.
  - by rewrite (traverse_perm_None encodePair Lc allS HLc HEc).
Qed.

(** The decimal numeral of a number is made of digits. *)
Lemma string_of_uint_digits (d : Decimal.uint) :
  Forall (fun c => 48 <= c <= 57) (js (DecimalString.NilEmpty.string_of_uint d)).
Proof.
  induction d; simpl; constructor; try done; cbn; lia.
Qed.

Lemma nat_toString_digits (n : nat) :
  Forall (fun c => 48 <= c <= 57) (nat_toString n).
Proof.
  unfold nat_toString, DecimalString.NilZero.string_of_uint.
  destruct (Nat.to_uint n) eqn:E; try (rewrite <- E; clear E);
    try apply string_of_uint_digits.
  repeat constructor; cbn; lia.
Qed.

Lemma nat_toString_ascii (n : nat) : Forall (fun c => c < 128) (nat_toString n).
Proof.
  eapply Forall_impl; [apply nat_toString_digits|]. cbn beta. intros c Hc. lia.
Qed.

(** ** C7: the header and the signature it carries *)

Section SigningFacts.

Variable hmac : jsstring -> jsstring -> jsstring.

Implicit Types (oauth : OAuthCredentials) (method : HttpMethod)
  (baseUrl nonce timestamp : jsstring) (query : option strmap).

(** The fields of the header, in the order they are written. *)
Lemma authParams_fields oauth nonce timestamp (signature : jsstring) :
  obj_define (js "oauth_signature") signature (oauthParams oauth nonce timestamp)
  = [ (js "oauth_consumer_key", consumerKey oauth);
      (js "oauth_nonce", nonce);
      (js "oauth_signature_method", js "HMAC-SHA256");
      (js "oauth_timestamp", timestamp);
      (js "oauth_token", token oauth);
      (js "oauth_version", js "1.0");
      (js "oauth_signature", signature) ].
Proof.
  unfold obj_define.
  assert (H : obj_has (js "oauth_signature") (oauthParams oauth nonce timestamp)
              = false).
  { apply obj_has_false. unfold oauthParams, obj_get.
    repeat (rewrite decide_False by discriminate). reflexivity. }
  rewrite H. by rewrite obj_insert_last.
Qed.

(** The header over its fields, once every value is encoded. *)
Lemma renderOAuthHeader_fields oauth nonce timestamp
    (signature eck en ets etk esig : jsstring) :
  rfc3986Encode (consumerKey oauth) = Some eck ->
  rfc3986Encode nonce = Some en ->
  rfc3986Encode timestamp = Some ets ->
  rfc3986Encode (token oauth) = Some etk ->
  rfc3986Encode signature = Some esig ->
  renderOAuthHeader
    (obj_define (js "oauth_signature") signature
       (oauthParams oauth nonce timestamp))
  = Some (spec_header eck en ets etk esig).
Proof.
  intros Hck Hn Ht Htk Hs. rewrite authParams_fields.
  unfold renderOAuthHeader. cbn [traverse fst snd].
  rewrite Hck, Hn, Ht, Htk, Hs.
  replace (rfc3986Encode (js "HMAC-SHA256")) with (Some (js "HMAC-SHA256"))
    by (vm_compute; reflexivity).
  replace (rfc3986Encode (js "1.0")) with (Some (js "1.0"))
    by (vm_compute; reflexivity).
  reflexivity.
Qed.

(** Without query parameters, the base string the code signs is the one the
    spec derives. *)
Lemma baseString_protocol_only oauth nonce timestamp method baseUrl :
  signatureBaseString method baseUrl (allParams oauth nonce timestamp None)
  = spec_baseString (methodName method) baseUrl
      (spec_protocolParams oauth nonce timestamp ++ []).
Proof.
  unfold signatureBaseString, spec_baseString, allParams.
  rewrite app_nil_r.
  change (spec_protocolParams oauth nonce timestamp)
    with (oauthParams oauth nonce timestamp).
  by rewrite paramString_protocol_only.
Qed.

(** With query parameters whose names are not [__proto__] and, together with
    the protocol names, stay in order when they are encoded, the base string
    the code signs is the one the spec derives. *)
Lemma baseString_in_order oauth nonce timestamp method baseUrl (q : strmap) :
  obj_has (js "__proto__") q = false ->
  namesInOrder (spec_protocolNames ++ obj_keys q) = true ->
  signatureBaseString method baseUrl (allParams oauth nonce timestamp (Some q))
  = spec_baseString (methodName method) baseUrl
      (spec_protocolParams oauth nonce timestamp ++ q).
Proof.
  intros Hproto Hord.
  unfold signatureBaseString, spec_baseString, allParams.
  change (spec_protocolParams oauth nonce timestamp)
    with (oauthParams oauth nonce timestamp).
  rewrite (paramString_in_order _ (oauthParams oauth nonce timestamp ++ q));
    [done| |].
  - apply obj_assign_fresh.
    + by apply namesInOrder_NoDup in Hord.
    + by apply obj_get_None, obj_has_false.
  - unfold obj_keys in *. by rewrite map_app.
Qed.

(** Signing returns: with credentials, nonce, time stamp, URL and query
    parameters that are string values with their surrogates paired, and a
    keyed hash rendered in base64, so in ASCII, the header is the one of its
    fields, and the signature in it is the keyed hash of the base string the
    code derives. *)
Lemma buildOAuthHeader_total oauth nonce timestamp method baseUrl query :
  goodCredentials oauth -> goodString nonce -> goodString timestamp ->
  goodString baseUrl -> from_option goodMap True query ->
  (forall k m, Forall (fun c => c < 128) (hmac k m)) ->
  exists eck en ets etk key base esig,
    rfc3986Encode (consumerKey oauth) = Some eck
    /\ rfc3986Encode nonce = Some en
    /\ rfc3986Encode timestamp = Some ets
    /\ rfc3986Encode (token oauth) = Some etk
    /\ signingKey oauth = Some key
    /\ signatureBaseString method baseUrl
         (allParams oauth nonce timestamp query) = Some base
    /\ rfc3986Encode (hmac key base) = Some esig
    /\ oauthSignature hmac oauth nonce timestamp method baseUrl query
       = Some (hmac key base)
    /\ buildOAuthHeader hmac oauth nonce timestamp method baseUrl query
       = Some (spec_header eck en ets etk esig).
Proof.
  intros Ho Hn Ht [Huv Huw] Hq Hmac.
  pose proof (allParams_good oauth nonce timestamp query Ho Hn Ht Hq) as Hall.
  destruct (paramString_total _ Hall) as (ps & Hps & Hascii).
  destruct (rfc3986Encode_wellFormed baseUrl Huv Huw) as (eu & Heu & _).
  destruct (rfc3986Encode_ascii ps Hascii) as (eps & Heps & _).
  destruct Ho as ([Hckv Hckw] & [Hcsv Hcsw] & [Htkv Htkw] & [Htsv Htsw]).
  destruct (rfc3986Encode_wellFormed _ Hcsv Hcsw) as (cs & Hcs & _).
  destruct (rfc3986Encode_wellFormed _ Htsv Htsw) as (ts & Hts & _).
  destruct (rfc3986Encode_wellFormed _ Hckv Hckw) as (eck & Heck & _).
  destruct (rfc3986Encode_wellFormed _ Htkv Htkw) as (etk & Hetk & _).
  destruct Hn as [Hnv Hnw]. destruct Ht as [Htv Htw].
  destruct (rfc3986Encode_wellFormed _ Hnv Hnw) as (en & Hen & _).
  destruct (rfc3986Encode_wellFormed _ Htv Htw) as (ets & Hets & _).
  assert (Hkey : signingKey oauth = Some (cs +++ js "&" +++ ts)).
  { unfold signingKey. rewrite Hcs. simpl. by rewrite Hts. }
  assert (Hbase : signatureBaseString method baseUrl
                    (allParams oauth nonce timestamp query)
                  = Some (toUpperCase (methodName method) +++ js "&" +++ eu
                          +++ js "&" +++ eps)).
  { unfold signatureBaseString. rewrite Hps. simpl. rewrite Heu. simpl.
    by rewrite Heps. }
  destruct (rfc3986Encode_ascii _ (Hmac (cs +++ js "&" +++ ts)
              (toUpperCase (methodName method) +++ js "&" +++ eu
               +++ js "&" +++ eps))) as (esig & Hesig & _).
  assert (Hsig : oauthSignature hmac oauth nonce timestamp method baseUrl query
                 = Some (hmac (cs +++ js "&" +++ ts)
                           (toUpperCase (methodName method) +++ js "&" +++ eu
                            +++ js "&" +++ eps))).
  { unfold oauthSignature. rewrite Hbase. simpl. by rewrite Hkey. }
  exists eck, en, ets, etk. eexists _, _, esig.
  repeat (split; [eassumption|]).
  unfold buildOAuthHeader, authParams. rewrite Hsig. simpl.
  by apply renderOAuthHeader_fields.
Qed.

End SigningFacts.

(** The bug behind C3 reaches the signature. For the search of C3, the base
    string the code signs and the base string the spec derives from the same
    nonce and time stamp differ: the two filter groups come in the other
    order. Both signatures are the keyed hash, under the same key, of their
    base string, so a verifier that derives the base string as the spec says
    does not reproduce the signature of the header, whenever the keyed hash
    keeps the two base strings apart, as the stand-in here does. *)
Lemma C7_counterexample :
  let url := js "https://shop.example/rest/V1/products" in
  let nonce := js "9f86d081" in
  let timestamp := js "1700000000" in
  let key := js "c%20s&t%2As" in
  let codeBase :=
    js "GET&https%3A%2F%2Fshop.example%2Frest%2FV1%2Fproducts&oauth_consumer_key%3Dck%26oauth_nonce%3D9f86d081%26oauth_signature_method%3DHMAC-SHA256%26oauth_timestamp%3D1700000000%26oauth_token%3Dtk%26oauth_version%3D1.0%26searchCriteria%255BfilterGroups%255D%255B10%255D%255Bfilters%255D%255B0%255D%255Bfield%255D%3Dname%26searchCriteria%255BfilterGroups%255D%255B1%255D%255Bfilters%255D%255B0%255D%255Bfield%255D%3Dsku" in
  let specBase :=
    js "GET&https%3A%2F%2Fshop.example%2Frest%2FV1%2Fproducts&oauth_consumer_key%3Dck%26oauth_nonce%3D9f86d081%26oauth_signature_method%3DHMAC-SHA256%26oauth_timestamp%3D1700000000%26oauth_token%3Dtk%26oauth_version%3D1.0%26searchCriteria%255BfilterGroups%255D%255B1%255D%255Bfilters%255D%255B0%255D%255Bfield%255D%3Dsku%26searchCriteria%255BfilterGroups%255D%255B10%255D%255Bfilters%255D%255B0%255D%255Bfield%255D%3Dname" in
  codeBase <> specBase
  /\ namesInOrder (spec_protocolNames ++ obj_keys Sample.searchQuery) = false
  /\ (forall hmac : jsstring -> jsstring -> jsstring,
        oauthSignature hmac Sample.creds nonce timestamp GET url
          (Some Sample.searchQuery) = Some (hmac key codeBase)
        /\ spec_signature hmac Sample.creds nonce timestamp (js "GET") url
             Sample.searchQuery = Some (hmac key specBase))
  /\ buildOAuthHeader Sample.sumMac Sample.creds nonce timestamp GET url
       (Some Sample.searchQuery)
     = Some (spec_header (js "ck") nonce timestamp (js "tk")
               (js "mac%2B11%2F120450%3D"))
  /\ rfc3986Encode (js "mac+11/120450=") = Some (js "mac%2B11%2F120450%3D")
  /\ spec_signature Sample.sumMac Sample.creds nonce timestamp (js "GET") url
       Sample.searchQuery
     = Some (js "mac+11/909302=").
Proof.
  intros url nonce timestamp key codeBase specBase.
  assert (Hk : spec_signingKey Sample.creds = Some key)
    by (vm_compute; reflexivity).
  assert (Hc : signatureBaseString GET url
                 (allParams Sample.creds nonce timestamp
                    (Some Sample.searchQuery)) = Some codeBase)
    by (vm_compute; reflexivity).
  assert (Hs : spec_baseString (js "GET") url
                 (spec_protocolParams Sample.creds nonce timestamp
                  ++ Sample.searchQuery) = Some specBase)
    by (vm_compute; reflexivity).
  split; [vm_compute; discriminate|]. split; [vm_compute; reflexivity|].
  split; [|by vm_compute].
  intros hmac. split.
  - unfold oauthSignature. rewrite Hc. reflexivity.
  - unfold spec_signature. rewrite Hs, Hk. reflexivity.
Qed.

(** C7. For fixed credentials, method, URL and query parameters (string
    values with their surrogates paired, and a keyed hash rendered in
    ASCII), the header exists for every nonce and time stamp and is the
    string [OAuth oauth_consumer_key=..., oauth_nonce=..., ...,
    oauth_signature=...] over the encoded values. Two headers built with two
    nonces and time stamps carry the same consumer key, signature method,
    token and version, and differ in the nonce, the time stamp and the
    signature only. The signature in the header is the keyed hash, under the
    signing key, of the base string the code derives. That is the signature
    a verifier computes as the spec says from the nonce and the time stamp of
    the header for a request without query parameters, and for one whose
    parameter names (none of them [__proto__]), sorted as they are together
    with the protocol names, are in strictly ascending order once encoded;
    for other requests it need not be (C7_counterexample). *)
Theorem C7_signature_reproducible :
  forall (hmac : jsstring -> jsstring -> jsstring) (oauth : OAuthCredentials)
         (method : HttpMethod) (baseUrl : jsstring) (query : option strmap)
         (nonce1 timestamp1 nonce2 timestamp2 : jsstring),
    goodCredentials oauth -> goodString baseUrl ->
    from_option goodMap True query ->
    goodString nonce1 -> goodString timestamp1 ->
    goodString nonce2 -> goodString timestamp2 ->
    (forall k m, Forall (fun c => c < 128) (hmac k m)) ->
    exists eck etk en1 ets1 sig1 esig1 en2 ets2 sig2 esig2 : jsstring,
      rfc3986Encode (consumerKey oauth) = Some eck
      /\ rfc3986Encode (token oauth) = Some etk
      /\ rfc3986Encode nonce1 = Some en1
      /\ rfc3986Encode timestamp1 = Some ets1
      /\ rfc3986Encode sig1 = Some esig1
      /\ rfc3986Encode nonce2 = Some en2
      /\ rfc3986Encode timestamp2 = Some ets2
      /\ rfc3986Encode sig2 = Some esig2
      /\ buildOAuthHeader hmac oauth nonce1 timestamp1 method baseUrl query
         = Some (spec_header eck en1 ets1 etk esig1)
      /\ buildOAuthHeader hmac oauth nonce2 timestamp2 method baseUrl query
         = Some (spec_header eck en2 ets2 etk esig2)
      /\ (exists key base1 base2 : jsstring,
            spec_signingKey oauth = Some key
            /\ signatureBaseString method baseUrl
                 (allParams oauth nonce1 timestamp1 query) = Some base1
            /\ signatureBaseString method baseUrl
                 (allParams oauth nonce2 timestamp2 query) = Some base2
            /\ sig1 = hmac key base1 /\ sig2 = hmac key base2)
      /\ (query = None ->
          spec_signature hmac oauth nonce1 timestamp1 (methodName method)
            baseUrl [] = Some sig1
          /\ spec_signature hmac oauth nonce2 timestamp2 (methodName method)
               baseUrl [] = Some sig2)
      /\ (forall q : strmap,
            query = Some q ->
            obj_has (js "__proto__") q = false ->
            namesInOrder (spec_protocolNames ++ obj_keys q) = true ->
            spec_signature hmac oauth nonce1 timestamp1 (methodName method)
              baseUrl q = Some sig1
            /\ spec_signature hmac oauth nonce2 timestamp2 (methodName method)
                 baseUrl q = Some sig2).
Proof.
  intros hmac oauth method baseUrl query nonce1 timestamp1 nonce2 timestamp2
         Ho Hu Hq Hn1 Ht1 Hn2 Ht2 Hmac.
  destruct (buildOAuthHeader_total hmac oauth nonce1 timestamp1 method baseUrl
              query Ho Hn1 Ht1 Hu Hq Hmac)
    as (eck & en1 & ets1 & etk & key & base1 & esig1
        & Heck & Hen1 & Hets1 & Hetk & Hkey & Hb1 & Hes1 & Hs1 & Hh1).
  destruct (buildOAuthHeader_total hmac oauth nonce2 timestamp2 method baseUrl
              query Ho Hn2 Ht2 Hu Hq Hmac)
    as (eck' & en2 & ets2 & etk' & key' & base2 & esig2
        & Heck' & Hen2 & Hets2 & Hetk' & Hkey' & Hb2 & Hes2 & Hs2 & Hh2).
  assert (eck' = eck) as -> by congruence.
  assert (etk' = etk) as -> by congruence.
  assert (key' = key) as -> by congruence.
  exists eck, etk, en1, ets1, (hmac key base1), esig1, en2, ets2,
    (hmac key base2), esig2.
  repeat (split; [assumption|]). split; [|split].
  - exists key, base1, base2. by repeat split.
  - intros ->. unfold spec_signature.
    rewrite <- !baseString_protocol_only, Hb1, Hb2.
    change (spec_signingKey oauth) with (signingKey oauth).
    by rewrite Hkey.
  - intros q -> Hproto Hord. unfold spec_signature.
    rewrite <- !baseString_in_order by done. rewrite Hb1, Hb2.
    change (spec_signingKey oauth) with (signingKey oauth).
    by rewrite Hkey.
Qed.

Lemma C7_witness :
  exists (esig1 esig2 base1 base2 : jsstring),
    buildOAuthHeader Sample.toyMac Sample.creds (js "9f86d081") (js "1700000000")
      GET (js "https://shop.example/rest/V1/products") (Some Sample.pageQuery)
    = Some (spec_header (js "ck") (js "9f86d081") (js "1700000000") (js "tk")
              esig1)
    /\ buildOAuthHeader Sample.toyMac Sample.creds (js "e3b0c442")
         (js "1700000001") GET (js "https://shop.example/rest/V1/products")
         (Some Sample.pageQuery)
       = Some (spec_header (js "ck") (js "e3b0c442") (js "1700000001") (js "tk")
                 esig2)
    /\ spec_baseString (js "GET") (js "https://shop.example/rest/V1/products")
         (spec_protocolParams Sample.creds (js "9f86d081") (js "1700000000")
          ++ Sample.pageQuery)
       = Some base1
    /\ spec_baseString (js "GET") (js "https://shop.example/rest/V1/products")
         (spec_protocolParams Sample.creds (js "e3b0c442") (js "1700000001")
          ++ Sample.pageQuery)
       = Some base2
    /\ rfc3986Encode (Sample.toyMac (js "c%20s&t%2As") base1) = Some esig1
    /\ rfc3986Encode (Sample.toyMac (js "c%20s&t%2As") base2) = Some esig2.
Proof.
  destruct (C7_signature_reproducible Sample.toyMac Sample.creds GET
              (js "https://shop.example/rest/V1/products")
              (Some Sample.pageQuery)
              (js "9f86d081") (js "1700000000") (js "e3b0c442") (js "1700000001"))
    as (eck & etk & en1 & ets1 & sig1 & esig1 & en2 & ets2 & sig2 & esig2
        & Heck & Hetk & Hen1 & Hets1 & Hes1 & Hen2 & Hets2 & Hes2 & Hh1 & Hh2
        & _ & _ & Hspec).
  - repeat split; apply literal_good; vm_compute; reflexivity.
  - apply literal_good; vm_compute; reflexivity.
  - simpl. repeat (constructor; [split; apply literal_good; vm_compute;
                                 reflexivity|]). constructor.
  - apply literal_good; vm_compute; reflexivity.
  - apply literal_good; vm_compute; reflexivity.
  - apply literal_good; vm_compute; reflexivity.
  - apply literal_good; vm_compute; reflexivity.
  - intros k m. unfold Sample.toyMac.
    repeat (apply cat_ascii; [first [by apply literal_ascii
                                    | apply nat_toString_ascii]|]).
    by apply literal_ascii.
  - destruct (Hspec Sample.pageQuery eq_refl) as [Hsp1 Hsp2];
      [vm_compute; reflexivity.. |].
    vm_compute in Heck, Hetk, Hen1, Hets1, Hen2, Hets2.
    injection Heck as <-. injection Hetk as <-. injection Hen1 as <-.
    injection Hets1 as <-. injection Hen2 as <-. injection Hets2 as <-.
    unfold spec_signature in Hsp1, Hsp2.
    change (methodName GET) with (js "GET") in Hsp1, Hsp2.
    destruct (spec_baseString (js "GET") _
                (spec_protocolParams Sample.creds (js "9f86d081")
                   (js "1700000000") ++ Sample.pageQuery)) as [base1|] eqn:Hb1;
      [|simpl in Hsp1; discriminate Hsp1].
    destruct (spec_baseString (js "GET") _
                (spec_protocolParams Sample.creds (js "e3b0c442")
                   (js "1700000001") ++ Sample.pageQuery)) as [base2|] eqn:Hb2;
      [|simpl in Hsp2; discriminate Hsp2].
    change (spec_signingKey Sample.creds) with (Some (js "c%20s&t%2As"))
      in Hsp1, Hsp2.
    simpl in Hsp1, Hsp2. injection Hsp1 as <-. injection Hsp2 as <-.
    exists esig1, esig2, base1, base2. by repeat split.
Defined.

(** * Further properties *)

(** ** Percent-encoding *)

Lemma uriUnreserved_not_surrogate (c : N) :
  uriUnreserved c = true -> isLowSurrogate c = false /\ isHighSurrogate c = false.
Proof.
  intros H. destruct (surrogate_not_ascii c (uriUnreserved_ascii c H)). done.
Qed.

(** X1. [encodeURIComponent] throws its [URIError] exactly on the strings
    that have a surrogate without its pair. *)
Theorem encodeURIComponent_URIError_iff :
  forall s : jsstring,
    encodeURIComponent s = None <-> isWellFormed s = false.
Proof.
  intros s. remember (length s) as n eqn:Hn. revert s Hn.
  induction n as [n IH] using lt_wf_ind. intros s ->.
  destruct s as [|c rest]; [simpl; split; discriminate|].
  simpl. destruct (uriUnreserved c) eqn:Hu.
  { destruct (uriUnreserved_not_surrogate c Hu) as [-> ->].
    rewrite <- (IH (length rest) ltac:(simpl; lia) rest eq_refl).
    destruct (encodeURIComponent rest); simpl; split; done. }
  destruct (isLowSurrogate c); [done|].
  destruct (isHighSurrogate c).
  - destruct rest as [|d rest']; [done|].
    destruct (isLowSurrogate d); simpl; [|done].
    rewrite <- (IH (length rest') ltac:(simpl; lia) rest' eq_refl).
    destruct (encodeURIComponent rest'); simpl; split; done.
  - rewrite <- (IH (length rest) ltac:(simpl; lia) rest eq_refl).
    destruct (encodeURIComponent rest); simpl; split; done.
Qed.

Lemma hexDigit_upper (d : N) : d < 16 -> isUpperHex (hexDigit d) = true.
Proof.
  intros H. unfold hexDigit, isUpperHex.
  destruct (N.ltb_spec d 10).
  - apply orb_true_intro. left. apply andb_true_intro.
    split; apply N.leb_le; lia.
  - apply orb_true_intro. right. apply andb_true_intro.
    split; apply N.leb_le; lia.
Qed.

Lemma isEncodedWith_octets (lit : N -> bool) (bs : list N) (r : jsstring) :
  Forall (fun b => b < 256) bs ->
  isEncodedWith lit (percentOctets bs ++ r) = isEncodedWith lit r.
Proof.
  unfold percentOctets. induction 1 as [|b bs Hb _ IH]; [done|].
  cbn [map concat percentOctet app isEncodedWith].
  change (37 =? 37) with true. cbv iota.
  rewrite !hexDigit_upper; [exact IH| |].
  - apply N.mod_upper_bound. lia.
  - apply div_bound; lia.
Qed.

Lemma uriUnreserved_not_percent (c : N) : uriUnreserved c = true -> (c =? 37) = false.
Proof.
  intros H. apply N.eqb_neq. intros ->. vm_compute in H. discriminate H.
Qed.

(** What [encodeURIComponent] returns is made of its unreserved characters
    and of [%XX] triplets. *)
Lemma encodeURIComponent_encoded (s r : jsstring) :
  validString s -> encodeURIComponent s = Some r ->
  isEncodedWith uriUnreserved r = true.
Proof.
  remember (length s) as n eqn:Hn. revert s r Hn.
  induction n as [n IH] using lt_wf_ind. intros s r -> Hv.
  destruct s as [|c rest]; [by intros [= <-]|].
  apply Forall_cons in Hv as [Hc Hv]. simpl.
  destruct (uriUnreserved c) eqn:Hu.
  { destruct (encodeURIComponent rest) as [r1|] eqn:Hrest; [|done].
    intros [= <-]. simpl. rewrite (uriUnreserved_not_percent c Hu), Hu. simpl.
    by apply (IH (length rest) ltac:(simpl; lia) rest). }
  destruct (isLowSurrogate c) eqn:Hl; [done|].
  destruct (isHighSurrogate c) eqn:Hh.
  - destruct rest as [|d rest']; [done|].
    apply Forall_cons in Hv as [Hd Hv].
    destruct (isLowSurrogate d) eqn:Hdl; [|done].
    destruct (encodeURIComponent rest') as [r1|] eqn:Hrest; [|done].
    intros [= <-]. rewrite isEncodedWith_octets.
    + by apply (IH (length rest') ltac:(simpl; lia) rest').
    + apply utf8_octets.
      unfold isHighSurrogate, isLowSurrogate in Hh, Hdl.
      apply andb_prop in Hh as [H1 H2]. apply andb_prop in Hdl as [H3 H4].
      apply N.leb_le in H1, H2, H3, H4. lia.
  - destruct (encodeURIComponent rest) as [r1|] eqn:Hrest; [|done].
    intros [= <-]. rewrite isEncodedWith_octets.
    + by apply (IH (length rest) ltac:(simpl; lia) rest).
    + apply utf8_octets. cbn beta in Hc. lia.
Qed.

Lemma replaceSubDelims_cons (c : N) (r : jsstring) :
  replaceSubDelims (c :: r)
  = (if isSubDelim c then js "%" +++ toUpperCase (toString16 c) else [c])
    ++ replaceSubDelims r.
Proof. reflexivity. Qed.

Lemma upperHex_not_subDelim (h : N) : isUpperHex h = true -> isSubDelim h = false.
Proof.
  unfold isUpperHex, isSubDelim. intros H.
  apply orb_prop in H as [H|H]; apply andb_prop in H as [H1 H2];
    apply N.leb_le in H1, H2;
    repeat (apply orb_false_intro); apply N.eqb_neq; lia.
Qed.

Lemma upperHex_unreserved (h : N) :
  isUpperHex h = true -> isRfc3986Unreserved h = true.
Proof.
  unfold isUpperHex, isRfc3986Unreserved. intros H.
  apply orb_prop in H as [H|H]; apply andb_prop in H as [H1 H2];
    apply N.leb_le in H1, H2.
  - assert (E : (48 <=? h) && (h <=? 57) = true)
      by (apply andb_true_intro; split; apply N.leb_le; lia).
    rewrite E. by rewrite !orb_true_r.
  - assert (E : (65 <=? h) && (h <=? 90) = true)
      by (apply andb_true_intro; split; apply N.leb_le; lia).
    by rewrite E.
Qed.

Lemma subDelim_cases (c : N) :
  isSubDelim c = true -> c = 33 \/ c = 39 \/ c = 40 \/ c = 41 \/ c = 42.
Proof.
  unfold isSubDelim. intros H.
  repeat (apply orb_prop in H; destruct H as [H|H]); apply N.eqb_eq in H; auto.
Qed.

Lemma unreserved_split (c : N) :
  uriUnreserved c = true -> isSubDelim c = false -> isRfc3986Unreserved c = true.
Proof.
  unfold uriUnreserved, isSubDelim, isRfc3986Unreserved. intros H Hs.
  repeat (apply orb_false_elim in Hs; destruct Hs as [Hs ?]).
  repeat (apply orb_prop in H; destruct H as [H|H]);
    rewrite ?H, ?orb_true_r; try reflexivity; congruence.
Qed.

(** Replacing [! ' ( ) *] turns such a string into a percent-encoded one. *)
Lemma replaceSubDelims_encoded (r : jsstring) :
  isEncodedWith uriUnreserved r = true ->
  isPercentEncoded (replaceSubDelims r) = true.
Proof.
  unfold isPercentEncoded.
  remember (length r) as n eqn:Hn. revert r Hn.
  induction n as [n IH] using lt_wf_ind. intros r ->.
  destruct r as [|c r1]; [done|]. simpl isEncodedWith at 1.
  destruct (N.eqb_spec c 37) as [->|Hc].
  - destruct r1 as [|h1 [|h2 r2]]; [done..|].
    intros H. apply andb_prop in H as [H H3]. apply andb_prop in H as [H1 H2].
    rewrite !replaceSubDelims_cons.
    rewrite (upperHex_not_subDelim h1 H1), (upperHex_not_subDelim h2 H2).
    change (isSubDelim 37) with false. cbn [app isEncodedWith].
    change (37 =? 37) with true. cbv iota. rewrite H1, H2. simpl.
    by apply (IH (length r2) ltac:(simpl; lia) r2).
  - intros H. apply andb_prop in H as [Hu H1].
    rewrite replaceSubDelims_cons.
    pose proof (IH (length r1) ltac:(simpl; lia) r1 eq_refl H1) as Hrec.
    destruct (isSubDelim c) eqn:Hs.
    + destruct (subDelim_cases c Hs) as [-> | [-> | [-> | [-> | ->]]]];
        vm_compute (js "%" +++ toUpperCase (toString16 _));
        cbn [app isEncodedWith]; change (37 =? 37) with true; cbv iota;
        exact Hrec.
    + cbn [app isEncodedWith].
      destruct (N.eqb_spec c 37); [done|].
      by rewrite (unreserved_split c Hu Hs).
Qed.

(** X2. Whatever [rfc3986Encode] returns is a percent-encoded string: it is
    made of unreserved characters and [%XX] triplets with upper-case
    hexadecimal digits, so none of [! ' ( ) * & = + /] or a space is left
    in it. *)
Theorem rfc3986Encode_percent_encoded :
  forall s r : jsstring,
    validString s -> rfc3986Encode s = Some r ->
    isPercentEncoded r = true
    /\ Forall (fun c => isRfc3986Unreserved c = true \/ c = 37) r.
Proof.
  intros s r Hv. unfold rfc3986Encode.
  destruct (encodeURIComponent s) as [r1|] eqn:H1; [|done].
  intros [= <-].
  pose proof (replaceSubDelims_encoded r1 (encodeURIComponent_encoded s r1 Hv H1))
    as He.
  split; [exact He|]. revert He. unfold isPercentEncoded.
  generalize (replaceSubDelims r1). intros r.
  remember (length r) as n eqn:Hn. revert r Hn.
  induction n as [n IH] using lt_wf_ind. intros r ->.
  destruct r as [|c r1']; [constructor|]. simpl.
  destruct (N.eqb_spec c 37) as [->|Hc].
  - destruct r1' as [|h1 [|h2 r2]]; [done..|].
    intros H. apply andb_prop in H as [H H3]. apply andb_prop in H as [H1' H2].
    repeat (constructor; [auto using upperHex_unreserved|]).
    by apply (IH (length r2) ltac:(simpl; lia) r2).
  - intros H. apply andb_prop in H as [Hu H1'].
    constructor; [auto|]. by apply (IH (length r1') ltac:(simpl; lia) r1').
Qed.

Lemma rfc3986Encode_witness :
  isPercentEncoded (js "a%20b%21%27%28%29%2A~%5B1%5D%2F%C3%A9") = true.
Proof.
  apply (rfc3986Encode_percent_encoded
           [97; 32; 98; 33; 39; 40; 41; 42; 126; 91; 49; 93; 47; 233]).
  - unfold validString. repeat (constructor; [reflexivity|]). constructor.
  - vm_compute. reflexivity.
Defined.

Lemma replaceSubDelims_length (r : jsstring) :
  (length r <= length (replaceSubDelims r))%nat.
Proof.
  induction r as [|c r IH]; [done|].
  rewrite replaceSubDelims_cons, length_app. simpl length at 1.
  destruct (isSubDelim c) eqn:Hs; [|simpl; lia].
  destruct (subDelim_cases c Hs) as [-> | [-> | [-> | [-> | ->]]]];
    vm_compute (js "%" +++ toUpperCase (toString16 _)); simpl; lia.
Qed.

Lemma percentOctets_length (bs : list N) :
  length (percentOctets bs) = (3 * length bs)%nat.
Proof.
  unfold percentOctets. induction bs as [|b bs IH]; [done|].
  cbn [map concat]. rewrite length_app, IH. simpl. lia.
Qed.

Lemma utf8_nonempty (cp : N) : (1 <= length (utf8 cp))%nat.
Proof.
  unfold utf8. destruct (cp <? 128); [simpl; lia|].
  destruct (cp <? 2048); [simpl; lia|]. destruct (cp <? 65536); simpl; lia.
Qed.

(** Encoding never shortens a string. *)
Lemma encodeURIComponent_length (s r : jsstring) :
  encodeURIComponent s = Some r -> (length s <= length r)%nat.
Proof.
  remember (length s) as n eqn:Hn. revert s r Hn.
  induction n as [n IH] using lt_wf_ind. intros s r ->.
  destruct s as [|c rest]; [by intros [= <-]|]. simpl.
  destruct (uriUnreserved c).
  { destruct (encodeURIComponent rest) as [r1|] eqn:Hrest; [|done].
    intros [= <-]. simpl.
    pose proof (IH (length rest) ltac:(simpl; lia) rest r1 eq_refl Hrest). lia. }
  destruct (isLowSurrogate c); [done|].
  destruct (isHighSurrogate c).
  - destruct rest as [|d rest']; [done|].
    destruct (isLowSurrogate d); [|done].
    destruct (encodeURIComponent rest') as [r1|] eqn:Hrest; [|done].
    intros [= <-]. rewrite length_app, percentOctets_length.
    pose proof (IH (length rest') ltac:(simpl; lia) rest' r1 eq_refl Hrest).
    pose proof (utf8_nonempty (65536 + (c - 55296) * 1024 + (d - 56320))).
    simpl. lia.
  - destruct (encodeURIComponent rest) as [r1|] eqn:Hrest; [|done].
    intros [= <-]. rewrite length_app, percentOctets_length.
    pose proof (IH (length rest) ltac:(simpl; lia) rest r1 eq_refl Hrest).
    pose proof (utf8_nonempty c). simpl. lia.
Qed.

Lemma rfc3986Encode_length (s r : jsstring) :
  rfc3986Encode s = Some r -> (length s <= length r)%nat.
Proof.
  unfold rfc3986Encode.
  destruct (encodeURIComponent s) as [r1|] eqn:H; [|done]. intros [= <-].
  pose proof (encodeURIComponent_length s r1 H).
  pose proof (replaceSubDelims_length r1). lia.
Qed.

Lemma rfc3986Unreserved_uri (c : N) :
  isRfc3986Unreserved c = true -> uriUnreserved c = true /\ isSubDelim c = false.
Proof.
  unfold isRfc3986Unreserved, uriUnreserved, isSubDelim. intros H.
  repeat (apply orb_prop in H; destruct H as [H|H]).
  1-3: apply andb_prop in H as [H1 H2]; pose proof H1 as H1';
       pose proof H2 as H2'; apply N.leb_le in H1', H2';
       rewrite H1, H2; split; [by rewrite ?orb_true_r|];
       repeat (apply orb_false_intro); apply N.eqb_neq; lia.
  all: pose proof H as H'; apply N.eqb_eq in H'; subst c; split; reflexivity.
Qed.

Lemma percentOctets_head (bs : list N) (r : jsstring) :
  (1 <= length bs)%nat -> head (percentOctets bs ++ r) = Some 37.
Proof. destruct bs; [simpl; lia|done]. Qed.

(** X3. [rfc3986Encode] returns its argument unchanged exactly when the
    argument consists of unreserved characters (letters, digits and
    [- . _ ~]): every other string comes back changed, or not at all. *)
Theorem rfc3986Encode_fixed_points :
  forall s : jsstring,
    rfc3986Encode s = Some s
    <-> Forall (fun c => isRfc3986Unreserved c = true) s.
Proof.
  intros s. split.
  - induction s as [|c rest IH]; [constructor|].
    unfold rfc3986Encode. simpl.
    destruct (uriUnreserved c) eqn:Hu.
    + destruct (encodeURIComponent rest) as [r1|] eqn:Hrest; [|done].
      simpl. rewrite replaceSubDelims_cons.
      destruct (isSubDelim c) eqn:Hs.
      * destruct (subDelim_cases c Hs) as [-> | [-> | [-> | [-> | ->]]]];
          vm_compute (js "%" +++ toUpperCase (toString16 _)); discriminate.
      * intros [= E]. constructor; [by apply unreserved_split|].
        apply IH. unfold rfc3986Encode. rewrite Hrest. simpl. by rewrite E.
    + assert (Hlen : forall r1 bs,
                 (1 <= length bs)%nat -> encodeURIComponent rest = Some r1 ->
                 Some (replaceSubDelims (percentOctets bs ++ r1))
                 = Some (c :: rest) -> False).
      { intros r1 bs Hbs Hrest [= E].
        pose proof (encodeURIComponent_length rest r1 Hrest) as L1.
        pose proof (replaceSubDelims_length (percentOctets bs ++ r1)) as L2.
        rewrite E, length_app, percentOctets_length in L2. simpl in L2. lia. }
      destruct (isLowSurrogate c); [done|].
      destruct (isHighSurrogate c).
      * destruct rest as [|d rest']; [done|].
        destruct (isLowSurrogate d); [|done].
        destruct (encodeURIComponent rest') as [r1|] eqn:Hrest; [|done].
        simpl. intros [= E].
        pose proof (encodeURIComponent_length rest' r1 Hrest) as L1.
        pose proof (replaceSubDelims_length
                      (percentOctets (utf8 (65536 + (c - 55296) * 1024 + (d - 56320)))
                       ++ r1)) as L2.
        pose proof (utf8_nonempty (65536 + (c - 55296) * 1024 + (d - 56320))).
        rewrite E, length_app, percentOctets_length in L2. simpl in L2. lia.
      * destruct (encodeURIComponent rest) as [r1|] eqn:Hrest; [|done].
        simpl. intros E. exfalso.
        by apply (Hlen r1 (utf8 c) (utf8_nonempty c) eq_refl).
  - induction 1 as [|c rest Hc _ IH]; [done|].
    destruct (rfc3986Unreserved_uri c Hc) as [Hu Hs].
    unfold rfc3986Encode in *. simpl. rewrite Hu.
    destruct (encodeURIComponent rest) as [r1|]; [|done].
    simpl in *. rewrite replaceSubDelims_cons, Hs. simpl.
    by injection IH as ->.
Qed.

(** ** URLs and headers *)

Lemma dropSlashes_replicate (n : nat) (s : jsstring) :
  dropSlashes (replicate n 47 ++ s) = dropSlashes s.
Proof. induction n as [|n IH]; [done|]. simpl. exact IH. Qed.

Lemma dropSlashes_head (s : jsstring) : head (dropSlashes s) <> Some 47.
Proof.
  induction s as [|c s IH]; [done|]. simpl.
  destruct (N.eqb_spec c 47) as [->|Hc]; [exact IH|]. simpl. congruence.
Qed.

Lemma rev_replicate (n : nat) (c : N) : rev (replicate n c) = replicate n c.
Proof.
  induction n as [|n IH]; [done|]. simpl. rewrite IH.
  clear IH. induction n as [|n IH]; [done|]. simpl. by rewrite IH.
Qed.

Lemma stripTrailingSlashes_slashes (s : jsstring) (n : nat) :
  stripTrailingSlashes (s ++ replicate n 47) = stripTrailingSlashes s.
Proof.
  unfold stripTrailingSlashes.
  by rewrite rev_app_distr, rev_replicate, dropSlashes_replicate.
Qed.

Lemma stripTrailingSlashes_last (s : jsstring) :
  last (stripTrailingSlashes s) <> Some 47.
Proof.
  unfold stripTrailingSlashes. pose proof (dropSlashes_head (rev s)) as H.
  destruct (dropSlashes (rev s)) as [|c r]; [done|].
  simpl in *. rewrite last_snoc. exact H.
Qed.

Lemma dropSlashes_split (s : jsstring) :
  exists k : nat, s = replicate k 47 ++ dropSlashes s.
Proof.
  induction s as [|x s [k IH]]; [by exists 0%nat|]. simpl.
  destruct (N.eqb_spec x 47) as [->|Hx]; [|by exists 0%nat].
  exists (S k). simpl. by rewrite <- IH.
Qed.

Lemma stripTrailingSlashes_split (s : jsstring) :
  exists k : nat, s = stripTrailingSlashes s ++ replicate k 47.
Proof.
  unfold stripTrailingSlashes.
  destruct (dropSlashes_split (rev s)) as [k E]. exists k.
  rewrite <- (rev_involutive s) at 1. rewrite E at 1.
  by rewrite rev_app_distr, rev_replicate.
Qed.

(** X4. [buildBaseUrl] does not depend on slashes at the end of the
    configured base address: the URL is the base without them, then [/rest],
    the store code if there is a non-empty one, and the endpoint; so no
    double slash appears before [rest]. *)
Theorem buildBaseUrl_trailing_slashes :
  forall (c : MagentoRestClient) (n : nat) (endpoint : jsstring)
         (storeCode : option jsstring),
    buildBaseUrl {| c_baseUrl := c_baseUrl c ++ replicate n 47;
                    c_token := c_token c; c_oauth := c_oauth c |}
      endpoint storeCode
    = buildBaseUrl c endpoint storeCode
    /\ exists (base : jsstring) (k : nat),
         last base <> Some 47
         /\ c_baseUrl c = base ++ replicate k 47
         /\ buildBaseUrl c endpoint storeCode
            = base ++ js "/rest"
              ++ match storeCode with
                 | Some sc => if bool_decide (sc = []) then [] else js "/" ++ sc
                 | None => []
                 end
              ++ endpoint.
Proof.
  intros c n endpoint storeCode. unfold buildBaseUrl. simpl c_baseUrl.
  rewrite stripTrailingSlashes_slashes. split; [done|].
  destruct (stripTrailingSlashes_split (c_baseUrl c)) as [k Hk].
  exists (stripTrailingSlashes (c_baseUrl c)), k.
  split; [apply stripTrailingSlashes_last|]. split; [exact Hk|].
  unfold cat. destruct storeCode as [sc|]; [|done]. simpl.
  by destruct (bool_decide (sc = [])).
Qed.

Lemma percentOctets_Forall (P : N -> Prop) (bs : list N) :
  P 37 -> (forall d, P (hexDigit d)) -> Forall P (percentOctets bs).
Proof.
  intros H37 Hhex. unfold percentOctets.
  induction bs as [|b bs IH]; [constructor|]. cbn [map concat percentOctet app].
  repeat (constructor; [auto|]). exact IH.
Qed.

(** A property of every character [encodeURIComponent] can write. *)
Lemma encodeURIComponent_Forall (P : N -> Prop) (s r : jsstring) :
  (forall c, uriUnreserved c = true -> P c) -> P 37 ->
  (forall d, P (hexDigit d)) ->
  encodeURIComponent s = Some r -> Forall P r.
Proof.
  intros Hu H37 Hhex.
  remember (length s) as n eqn:Hn. revert s r Hn.
  induction n as [n IH] using lt_wf_ind. intros s r ->.
  destruct s as [|c rest]; [intros [= <-]; constructor|]. simpl.
  destruct (uriUnreserved c) eqn:Hc.
  { destruct (encodeURIComponent rest) as [r1|] eqn:Hrest; [|done].
    intros [= <-]. constructor; [by apply Hu|].
    by apply (IH (length rest) ltac:(simpl; lia) rest). }
  destruct (isLowSurrogate c); [done|].
  destruct (isHighSurrogate c).
  - destruct rest as [|d rest']; [done|].
    destruct (isLowSurrogate d); [|done].
    destruct (encodeURIComponent rest') as [r1|] eqn:Hrest; [|done].
    intros [= <-]. apply Forall_app. split; [by apply percentOctets_Forall|].
    by apply (IH (length rest') ltac:(simpl; lia) rest').
  - destruct (encodeURIComponent rest) as [r1|] eqn:Hrest; [|done].
    intros [= <-]. apply Forall_app. split; [by apply percentOctets_Forall|].
    by apply (IH (length rest) ltac:(simpl; lia) rest).
Qed.

Lemma hexDigit_not (x : N) : x < 48 \/ 57 < x < 65 -> forall d, hexDigit d <> x.
Proof.
  intros Hx d. unfold hexDigit. destruct (N.ltb_spec d 10); lia.
Qed.

Lemma encodeURIComponent_no_separator (s r : jsstring) :
  encodeURIComponent s = Some r -> Forall (fun c => c <> 38 /\ c <> 61) r.
Proof.
  apply encodeURIComponent_Forall.
  - intros c Hc. split; intros ->; vm_compute in Hc; discriminate Hc.
  - split; discriminate.
  - intros d. split; apply hexDigit_not; lia.
Qed.

Lemma occurrences_app (c : N) (a b : jsstring) :
  occurrences c (a ++ b) = (occurrences c a + occurrences c b)%nat.
Proof.
  induction a as [|x a IH]; [done|]. simpl. rewrite IH. lia.
Qed.

Lemma occurrences_none (c : N) (s : jsstring) :
  Forall (fun x => x <> c) s -> occurrences c s = 0%nat.
Proof.
  induction 1 as [|x s Hx _ IH]; [done|]. simpl.
  destruct (N.eqb_spec x c); [done|]. by rewrite IH.
Qed.

Lemma occurrences_join (c : N) (sep : jsstring) (parts : list jsstring) (k : nat) :
  Forall (fun p => occurrences c p = k) parts ->
  occurrences c (join sep parts)
  = (k * length parts + occurrences c sep * (length parts - 1))%nat.
Proof.
  induction 1 as [|p parts Hp Hparts IH]; [simpl; lia|].
  destruct parts as [|q parts].
  - simpl. lia.
  - change (join sep (p :: q :: parts)) with (p ++ sep ++ join sep (q :: parts)).
    rewrite !occurrences_app, IH, Hp. cbn [length].
    replace (S (length parts) - 1)%nat with (length parts) by lia.
    replace (S (S (length parts)) - 1)%nat with (S (length parts)) by lia.
    generalize (occurrences c sep) (length parts). intros m n. nia.
Qed.

Lemma traverse_Forall2 {A B} (f : A -> option B) (l : list A) (r : list B) :
  traverse f l = Some r -> Forall2 (fun x y => f x = Some y) l r.
Proof.
  revert r. induction l as [|x l IH]; intros r.
  - intros [= <-]. constructor.
  - cbn [traverse]. destruct (f x) as [y|] eqn:Hx; [|done].
    destruct (traverse f l) as [ys|]; [|done].
    intros [= <-]. constructor; [done|]. by apply IH.
Qed.

(** X5. [appendQueryString] leaves the URL alone when there are no
    parameters; otherwise it appends [?] and a query string in which [&] and
    [=] occur as separators only: one [=] per parameter and one [&] between
    two parameters, whatever the keys and values contain. *)
Theorem appendQueryString_separators :
  forall (baseUrl : jsstring) (params : strmap) (url : jsstring),
    appendQueryString baseUrl None = Some baseUrl
    /\ appendQueryString baseUrl (Some []) = Some baseUrl
    /\ (params <> [] ->
        appendQueryString baseUrl (Some params) = Some url ->
        exists qs : jsstring,
          url = baseUrl ++ js "?" ++ qs
          /\ occurrences 61 qs = length params
          /\ occurrences 38 qs = (length params - 1)%nat).
Proof.
  intros baseUrl params url. split; [done|]. split; [done|].
  intros Hne. destruct params as [|kv ps]; [done|].
  unfold appendQueryString.
  set (enc := fun kv : jsstring * jsstring =>
                ek ← encodeURIComponent kv.1;
                ev ← encodeURIComponent kv.2; Some (ek +++ js "=" +++ ev)).
  assert (Hparts : forall l parts, traverse enc l = Some parts ->
            length parts = length l
            /\ Forall (fun p => occurrences 61 p = 1%nat) parts
            /\ Forall (fun p => occurrences 38 p = 0%nat) parts).
  { intros l parts Ht. apply traverse_Forall2 in Ht.
    induction Ht as [|x p l parts Hx _ (L & E & A)]; [by repeat split|].
    unfold enc in Hx.
    destruct (encodeURIComponent x.1) as [ek|] eqn:Hk; [|done].
    destruct (encodeURIComponent x.2) as [ev|] eqn:Hv; [|done].
    apply (inj Some) in Hx. subst p.
    pose proof (encodeURIComponent_no_separator _ _ Hk) as Fk.
    pose proof (encodeURIComponent_no_separator _ _ Hv) as Fv.
    split; [simpl; lia|]. split; constructor; try done.
    + unfold cat. rewrite !occurrences_app.
      rewrite (occurrences_none 61 ek), (occurrences_none 61 ev); [done| |].
      * eapply Forall_impl; [exact Fv|]. by intros ? [].
      * eapply Forall_impl; [exact Fk|]. by intros ? [].
    + unfold cat. rewrite !occurrences_app.
      rewrite (occurrences_none 38 ek), (occurrences_none 38 ev); [done| |].
      * eapply Forall_impl; [exact Fv|]. by intros ? [].
      * eapply Forall_impl; [exact Fk|]. by intros ? []. }
  destruct (traverse enc (kv :: ps)) as [parts|] eqn:Ht; [|done].
  simpl. intros [= <-]. destruct (Hparts _ _ Ht) as (L & E & A).
  exists (join (js "&") parts). split; [done|].
  rewrite (occurrences_join 61 _ _ 1 E), (occurrences_join 38 _ _ 0 A), L.
  change (occurrences 61 (js "&")) with 0%nat.
  change (occurrences 38 (js "&")) with 1%nat. simpl length. lia.
Qed.

Lemma appendQueryString_witness :
  exists qs : jsstring,
    js "https://shop.example/rest/V1/products?a%26b=1%3D2&c=d"
    = js "https://shop.example/rest/V1/products" ++ js "?" ++ qs
    /\ occurrences 61 qs = 2%nat /\ occurrences 38 qs = 1%nat.
Proof.
  apply (appendQueryString_separators (js "https://shop.example/rest/V1/products")
           [(js "a&b", js "1=2"); (js "c", js "d")]).
  - discriminate.
  - vm_compute. reflexivity.
Defined.

(** X6. [authHeaders] refuses with the "no auth token" error exactly when the
    client has neither OAuth credentials nor a non-empty token. When it
    answers, the headers are the two JSON headers followed by one
    [Authorization] header, which is an [OAuth] header whenever credentials
    are set (also when a token is set too) and [Bearer <token>] otherwise. *)
Theorem authHeaders_scheme :
  forall (hmac : jsstring -> jsstring -> jsstring) (c : MagentoRestClient)
         (nonce timestamp : jsstring) (method : HttpMethod) (baseUrl : jsstring)
         (queryParams : option strmap),
    let r := authHeaders hmac c nonce timestamp method baseUrl queryParams in
    (r = Throw (JsError noAuthMessage)
     <-> c_oauth c = None /\ (c_token c = None \/ c_token c = Some []))
    /\ forall h : strmap,
        r = Ok h ->
        obj_keys h = [js "Content-Type"; js "Accept"; js "Authorization"]
        /\ obj_get (js "Content-Type") h = Some (js "application/json")
        /\ obj_get (js "Accept") h = Some (js "application/json")
        /\ exists a : jsstring,
            obj_get (js "Authorization") h = Some a
            /\ match c_oauth c with
               | Some _ => exists rest, a = js "OAuth " ++ rest
               | None =>
                   exists tok, c_token c = Some tok /\ tok <> []
                               /\ a = js "Bearer " ++ tok
               end.
Proof.
  intros hmac c nonce timestamp method baseUrl queryParams r. subst r.
  unfold authHeaders.
  destruct (c_oauth c) as [credentials|].
  - destruct (buildOAuthHeader _ _ _ _ _ _ _) as [header|] eqn:Hh.
    + split; [split; [discriminate|by intros [? _]]|].
      intros h [= <-]. repeat split. exists header. split; [done|].
      unfold buildOAuthHeader in Hh.
      destruct (authParams _ _ _ _ _ _ _) as [fields|]; [|done].
      unfold renderOAuthHeader in Hh. cbn [mbind option_bind] in Hh.
      destruct (traverse _ fields) as [parts|]; [|done].
      injection Hh as <-. by eexists.
    + split; [split; [discriminate|by intros [? _]]|]. discriminate.
  - destruct (c_token c) as [tok|].
    + unfold truthy. destruct (decide (tok = [])) as [->|Hne].
      * split; [split; [by auto|done]|]. discriminate.
      * rewrite bool_decide_eq_false_2 by done. cbn [negb].
        split; [split; [discriminate|]|].
        { intros [_ [H|H]]; [done|]. by injection H. }
        intros h [= <-]. repeat split. eexists. split; [done|].
        by exists tok.
    + split; [split; [by auto|done]|]. discriminate.
Qed.

(** ** Search parameters *)

Lemma js_inj (s t : string) : js s = js t -> s = t.
Proof.
  unfold js. intros H.
  rewrite <- (string_of_list_ascii_of_string s), <- (string_of_list_ascii_of_string t).
  f_equal. revert H. generalize (list_ascii_of_string s) (list_ascii_of_string t).
  induction l as [|a l IH]; intros [|b l']; simpl; try done.
  intros [= Hab Hl]. f_equal; [|by apply IH].
  by rewrite <- (ascii_N_embedding a), <- (ascii_N_embedding b), Hab.
Qed.

Lemma nat_toString_inj (n m : nat) : nat_toString n = nat_toString m -> n = m.
Proof.
  unfold nat_toString. intros H%js_inj.
  apply Unsigned.to_uint_inj.
  assert (Hnn : forall k, Nat.to_uint k <> Decimal.Nil).
  { intros k. rewrite <- (Unsigned.of_to k) at 1. rewrite Unsigned.to_of.
    apply unorm_nonnil. }
  apply (f_equal DecimalString.NilZero.uint_of_string) in H.
  rewrite !DecimalString.NilZero.usu in H by apply Hnn. by injection H.
Qed.

(** Two digit strings followed by [']'] that agree as wholes agree part by
    part. *)
Lemma digits_split (d1 d2 r1 r2 : jsstring) :
  Forall (fun c => 48 <= c <= 57) d1 -> Forall (fun c => 48 <= c <= 57) d2 ->
  d1 ++ 93 :: r1 = d2 ++ 93 :: r2 -> d1 = d2 /\ r1 = r2.
Proof.
  intros H1. revert d2. induction H1 as [|c d1 Hc _ IH]; intros d2 H2.
  - destruct H2 as [|c' d2 Hc' _]; simpl.
    + by intros [= ->].
    + intros [= <- _]. lia.
  - destruct H2 as [|c' d2 Hc' H2]; simpl.
    + intros [= -> _]. lia.
    + intros [= -> H]. destruct (IH d2 H2 H) as [-> ->]. done.
Qed.

Lemma filterKey_inj (gi fi gi' fi' : nat) (part part' : jsstring) :
  filterKey gi fi part = filterKey gi' fi' part' ->
  gi = gi' /\ fi = fi' /\ part = part'.
Proof.
  unfold filterKey, cat. intros H. apply app_inv_head in H.
  change (js "][filters][") with (93 :: js "[filters][") in H.
  rewrite <- !app_comm_cons in H.
  apply digits_split in H as [Hg H]; try apply nat_toString_digits.
  apply app_inv_head in H.
  change (js "][") with (93 :: js "[") in H.
  rewrite <- !app_comm_cons in H.
  apply digits_split in H as [Hf H]; try apply nat_toString_digits.
  apply app_inv_head, app_inv_tail in H.
  split; [by apply nat_toString_inj|]. split; [by apply nat_toString_inj|done].
Qed.

Lemma sortKey_inj (i i' : nat) (part part' : jsstring) :
  sortKey i part = sortKey i' part' -> i = i' /\ part = part'.
Proof.
  unfold sortKey, cat. intros H. apply app_inv_head in H.
  change (js "][") with (93 :: js "[") in H.
  rewrite <- !app_comm_cons in H.
  apply digits_split in H as [Hi H]; try apply nat_toString_digits.
  apply app_inv_head, app_inv_tail in H.
  split; [by apply nat_toString_inj|done].
Qed.

Lemma filterKey_not_sortKey (gi fi i : nat) (part part' : jsstring) :
  filterKey gi fi part <> sortKey i part'.
Proof.
  unfold filterKey, sortKey, cat.
  generalize (nat_toString gi) (nat_toString fi) (nat_toString i).
  intros a b c H. vm_compute in H. discriminate H.
Qed.

Lemma filterKey_not_page (gi fi : nat) (part : jsstring) :
  filterKey gi fi part <> js "searchCriteria[pageSize]"
  /\ filterKey gi fi part <> js "searchCriteria[currentPage]".
Proof.
  unfold filterKey, cat. generalize (nat_toString gi) (nat_toString fi).
  intros a b. split; intros H; vm_compute in H; discriminate H.
Qed.

Lemma filterKey_not_proto (gi fi : nat) (part : jsstring) :
  filterKey gi fi part <> js "__proto__".
Proof.
  unfold filterKey, cat. generalize (nat_toString gi) (nat_toString fi).
  intros a b H. vm_compute in H. discriminate H.
Qed.

Lemma sortKey_not_proto (i : nat) (part : jsstring) :
  sortKey i part <> js "__proto__".
Proof.
  unfold sortKey, cat. generalize (nat_toString i).
  intros a H. vm_compute in H. discriminate H.
Qed.

Lemma sortKey_not_page (i : nat) (part : jsstring) :
  sortKey i part <> js "searchCriteria[pageSize]"
  /\ sortKey i part <> js "searchCriteria[currentPage]".
Proof.
  unfold sortKey, cat. generalize (nat_toString i).
  intros a. split; intros H; vm_compute in H; discriminate H.
Qed.

(** A [forEach] whose step at index [i] writes only keys of index [i]. *)
Section ForEach.

Context {A : Type} (step : strmap -> nat -> A -> strmap).
Context (touches : nat -> jsstring -> Prop).
Hypothesis step_other : forall p i x K,
  ~ touches i K -> obj_get K (step p i x) = obj_get K p.

Lemma forEachFrom_other (xs : list A) (i : nat) (p : strmap) (K : jsstring) :
  (forall j, (i <= j)%nat -> ~ touches j K) ->
  obj_get K (forEachFrom step i xs p) = obj_get K p.
Proof.
  revert i p. induction xs as [|x xs IH]; intros i p HK; [done|].
  simpl. rewrite IH.
  - apply step_other, HK. lia.
  - intros j Hj. apply HK. lia.
Qed.

Hypothesis touches_inj : forall i j K, touches i K -> touches j K -> i = j.

Lemma forEachFrom_at (xs : list A) (i j : nat) (p : strmap) (x : A)
    (K : jsstring) :
  xs !! j = Some x -> touches (i + j)%nat K ->
  exists p', obj_get K (forEachFrom step i xs p)
             = obj_get K (step p' (i + j)%nat x)
             /\ obj_get K p' = obj_get K p.
Proof.
  revert i j p. induction xs as [|y xs IH]; intros i j p; [done|].
  destruct j as [|j]; simpl.
  - intros [= ->] HK. rewrite Nat.add_0_r in *. exists p. split; [|done].
    apply forEachFrom_other. intros k Hk Hk'.
    pose proof (touches_inj _ _ _ HK Hk'). lia.
  - intros Hx HK. replace (i + S j)%nat with (S i + j)%nat in * by lia.
    destruct (IH (S i) j (step p i y) Hx HK) as (p' & E & E').
    exists p'. split; [done|]. rewrite E'. apply step_other.
    intros Hi. pose proof (touches_inj _ _ _ HK Hi). lia.
Qed.

End ForEach.

Lemma addFilter_other (gi fi : nat) (f : SearchFilter) (p : strmap)
    (K : jsstring) :
  ~ (exists part, K = filterKey gi fi part) ->
  obj_get K (addFilter gi p fi f) = obj_get K p.
Proof.
  intros HK. unfold addFilter.
  assert (Hne : forall part, K <> filterKey gi fi part) by (intros q ->; eauto).
  destruct (f_conditionType f) as [ct|]; [destruct (truthy (JString ct))|];
    by rewrite !obj_get_set_ne by apply Hne.
Qed.

Lemma addGroup_other (gi : nat) (group : list SearchFilter) (p : strmap)
    (K : jsstring) :
  ~ (exists fi part, K = filterKey gi fi part) ->
  obj_get K (addGroup p gi group) = obj_get K p.
Proof.
  intros HK. unfold addGroup.
  apply (forEachFrom_other (addFilter gi)
           (fun fi K => exists part, K = filterKey gi fi part)).
  - intros p0 i x K0. apply addFilter_other.
  - intros j _ [part ->]. eauto.
Qed.

Lemma addSort_other (i : nat) (s : SortOrder) (p : strmap) (K : jsstring) :
  ~ (exists part, K = sortKey i part) ->
  obj_get K (addSort p i s) = obj_get K p.
Proof.
  intros HK. unfold addSort.
  assert (Hne : forall part, K <> sortKey i part) by (intros q ->; eauto).
  by rewrite !obj_get_set_ne by apply Hne.
Qed.

(** What one filter leaves under its three keys. *)
Lemma addFilter_at (gi fi : nat) (f : SearchFilter) (p : strmap) :
  obj_get (filterKey gi fi (js "field")) (addFilter gi p fi f) = Some (f_field f)
  /\ obj_get (filterKey gi fi (js "value")) (addFilter gi p fi f)
     = Some (f_value f)
  /\ obj_get (filterKey gi fi (js "conditionType")) (addFilter gi p fi f)
     = match f_conditionType f with
       | Some ct =>
           if truthy (JString ct) then Some ct
           else obj_get (filterKey gi fi (js "conditionType")) p
       | None => obj_get (filterKey gi fi (js "conditionType")) p
       end.
Proof.
  assert (Hne : forall a b : string, a <> b ->
            filterKey gi fi (js a) <> filterKey gi fi (js b)).
  { intros a b Hab H. apply filterKey_inj in H as (_ & _ & H).
    by apply js_inj in H. }
  unfold addFilter.
  destruct (f_conditionType f) as [ct|]; [destruct (truthy (JString ct))|];
    repeat split;
    rewrite ?obj_get_set_eq by apply filterKey_not_proto; try done;
    repeat (rewrite obj_get_set_ne by (by apply Hne));
    by rewrite ?obj_get_set_eq by apply filterKey_not_proto.
Qed.

(** The filter keys in the parameters after the groups were written. *)
Lemma groups_at (groups : list (list SearchFilter)) (gi fi : nat)
    (group : list SearchFilter) (f : SearchFilter) (part : jsstring) :
  groups !! gi = Some group -> group !! fi = Some f ->
  exists p, obj_get (filterKey gi fi part) (forEachFrom addGroup 0 groups [])
            = obj_get (filterKey gi fi part) (addFilter gi p fi f)
            /\ obj_get (filterKey gi fi part) p = None.
Proof.
  intros Hg Hf.
  destruct (forEachFrom_at addGroup
              (fun gi K => exists fi part, K = filterKey gi fi part)
              (fun p i x K => addGroup_other i x p K)
              ltac:(by intros i j K (? & ? & ->) (? & ? & (? & _)%filterKey_inj))
              groups 0 gi [] group (filterKey gi fi part) Hg
              ltac:(by eexists _, _)) as (p1 & E1 & N1).
  destruct (forEachFrom_at (addFilter gi)
              (fun fi K => exists part, K = filterKey gi fi part)
              (fun p i x K => addFilter_other gi i x p K)
              ltac:(by intros i j K (? & ->) (? & (_ & ? & _)%filterKey_inj))
              group 0 fi p1 f (filterKey gi fi part) Hf
              ltac:(by eexists)) as (p2 & E2 & N2).
  exists p2. split.
  - rewrite E1. exact E2.
  - by rewrite N2, N1.
Qed.

(** X7. Every part of the search criteria can be read back from the
    parameters [buildSearchParams] returns, each under a key of its own: the
    field and the value of the filter at position [fi] of group [gi], its
    condition type when it is a non-empty string (no key at all when it is
    missing or empty), the field and the direction of each sort order, and
    the page size and page number when given. No entry overwrites another. *)
Theorem buildSearchParams_read_back :
  forall (numberToString : float -> jsstring) (criteria : MagentoSearchCriteria),
    let p := buildSearchParams numberToString criteria in
    (forall groups gi group fi f,
        filterGroups criteria = Some groups ->
        groups !! gi = Some group -> group !! fi = Some f ->
        obj_get (filterKey gi fi (js "field")) p = Some (f_field f)
        /\ obj_get (filterKey gi fi (js "value")) p = Some (f_value f)
        /\ obj_get (filterKey gi fi (js "conditionType")) p
           = match f_conditionType f with
             | Some ct => if bool_decide (ct = []) then None else Some ct
             | None => None
             end)
    /\ (forall sorts i s,
           sortOrders criteria = Some sorts -> sorts !! i = Some s ->
           obj_get (sortKey i (js "field")) p = Some (so_field s)
           /\ obj_get (sortKey i (js "direction")) p
              = Some (directionName (so_direction s)))
    /\ obj_get (js "searchCriteria[pageSize]") p
       = numberToString <$> pageSize criteria
    /\ obj_get (js "searchCriteria[currentPage]") p
       = numberToString <$> currentPage criteria.
Proof.
  intros numberToString criteria p.
  set (p1 := match filterGroups criteria with
             | Some groups => forEachFrom addGroup 0 groups []
             | None => []
             end).
  set (p2 := match sortOrders criteria with
             | Some sorts => forEachFrom addSort 0 sorts p1
             | None => p1
             end).
  set (p3 := match pageSize criteria with
             | Some n => obj_set (js "searchCriteria[pageSize]") (numberToString n) p2
             | None => p2
             end).
  assert (Hp : p = match currentPage criteria with
                   | Some n => obj_set (js "searchCriteria[currentPage]")
                                 (numberToString n) p3
                   | None => p3
                   end) by done.
  clearbody p.
  (* keys that are neither page key pass through the last two steps *)
  assert (H32 : forall K, K <> js "searchCriteria[pageSize]" ->
                          K <> js "searchCriteria[currentPage]" ->
                          obj_get K p = obj_get K p2).
  { intros K H1 H2. rewrite Hp. unfold p3.
    destruct (currentPage criteria), (pageSize criteria);
      by rewrite ?obj_get_set_ne by done. }
  (* filter keys pass through the sort orders *)
  assert (H21 : forall gi fi part,
             obj_get (filterKey gi fi part) p = obj_get (filterKey gi fi part) p1).
  { intros gi fi part. destruct (filterKey_not_page gi fi part) as [N1 N2].
    rewrite (H32 _ N1 N2). unfold p2.
    destruct (sortOrders criteria) as [sorts|]; [|done].
    apply (forEachFrom_other addSort (fun i K => exists part, K = sortKey i part)).
    - intros p0 i x K. apply addSort_other.
    - intros j _ [q H]. by apply filterKey_not_sortKey in H. }
  (* sort keys are not written by the groups *)
  assert (H1s : forall i part, obj_get (sortKey i part) p1 = None).
  { intros i part. unfold p1.
    destruct (filterGroups criteria) as [groups|]; [|done].
    rewrite (forEachFrom_other addGroup
               (fun gi K => exists fi part, K = filterKey gi fi part)); [done| |].
    - intros p0 gi x K. apply addGroup_other.
    - intros j _ (fi & q & H). symmetry in H. by apply filterKey_not_sortKey in H. }
  (* the page keys are not written before the last two steps *)
  assert (H2p : forall K, (forall gi fi part, K <> filterKey gi fi part) ->
                          (forall i part, K <> sortKey i part) ->
                          obj_get K p2 = None).
  { intros K Hf Hs. unfold p2.
    assert (obj_get K p1 = None) as H1.
    { unfold p1. destruct (filterGroups criteria) as [groups|]; [|done].
      rewrite (forEachFrom_other addGroup
                 (fun gi K => exists fi part, K = filterKey gi fi part)); [done| |].
      - intros p0 gi x K0. apply addGroup_other.
      - intros j _ (fi & q & H). by apply Hf in H. }
    destruct (sortOrders criteria) as [sorts|]; [|done].
    rewrite (forEachFrom_other addSort (fun i K => exists part, K = sortKey i part));
      [done| |].
    - intros p0 i x K0. apply addSort_other.
    - intros j _ (q & H). by apply Hs in H. }
  split; [|split; [|split]].
  - intros groups gi group fi f Hg Hgi Hfi.
    rewrite !H21. unfold p1. rewrite Hg.
    destruct (groups_at groups gi fi group f (js "field") Hgi Hfi) as (q1 & E1 & _).
    destruct (groups_at groups gi fi group f (js "value") Hgi Hfi) as (q2 & E2 & _).
    destruct (groups_at groups gi fi group f (js "conditionType") Hgi Hfi)
      as (q3 & E3 & N3).
    rewrite E1, E2, E3.
    destruct (addFilter_at gi fi f q1) as (-> & _ & _).
    destruct (addFilter_at gi fi f q2) as (_ & -> & _).
    destruct (addFilter_at gi fi f q3) as (_ & _ & ->).
    rewrite N3. repeat split.
    destruct (f_conditionType f) as [ct|]; [|done].
    unfold truthy. by destruct (bool_decide (ct = [])).
  - intros sorts i s Hs Hi.
    assert (Hk : forall part, obj_get (sortKey i part) p
                              = obj_get (sortKey i part) (forEachFrom addSort 0 sorts p1)).
    { intros part. destruct (sortKey_not_page i part) as [N1 N2].
      rewrite (H32 _ N1 N2). unfold p2. by rewrite Hs. }
    rewrite !Hk.
    assert (Hat : forall part, exists q,
               obj_get (sortKey i part) (forEachFrom addSort 0 sorts p1)
               = obj_get (sortKey i part) (addSort q i s)).
    { intros part.
      destruct (forEachFrom_at addSort (fun i K => exists part, K = sortKey i part)
                  (fun p i x K => addSort_other i x p K)
                  ltac:(by intros a b K (? & ->) (? & (? & _)%sortKey_inj))
                  sorts 0 i p1 s (sortKey i part) Hi ltac:(by eexists))
        as (q & E & _).
      by exists q. }
    destruct (Hat (js "field")) as (q1 & ->).
    destruct (Hat (js "direction")) as (q2 & ->).
    unfold addSort. split.
    + rewrite obj_get_set_ne;
        [by rewrite obj_get_set_eq by apply sortKey_not_proto|].
      by intros (_ & ?%js_inj)%sortKey_inj.
    + by rewrite obj_get_set_eq by apply sortKey_not_proto.
  - assert (obj_get (js "searchCriteria[pageSize]") p
            = obj_get (js "searchCriteria[pageSize]") p3) as ->.
    { rewrite Hp. destruct (currentPage criteria); [|done].
      by rewrite obj_get_set_ne. }
    unfold p3. destruct (pageSize criteria) as [n|]; simpl.
    + by rewrite obj_get_set_eq.
    + apply H2p.
      * intros gi fi part H. symmetry in H. by apply filterKey_not_page in H.
      * intros i part H. symmetry in H. by apply sortKey_not_page in H.
  - rewrite Hp. destruct (currentPage criteria) as [n|]; simpl.
    + by rewrite obj_get_set_eq.
    + assert (obj_get (js "searchCriteria[currentPage]") p3
              = obj_get (js "searchCriteria[currentPage]") p2) as ->.
      { unfold p3. destruct (pageSize criteria); [|done].
        by rewrite obj_get_set_ne. }
      apply H2p.
      * intros gi fi part H. symmetry in H. by apply filterKey_not_page in H.
      * intros i part H. symmetry in H. by apply sortKey_not_page in H.
Qed.

(** ** Guardrails *)

Lemma includes_In (x : jsstring) (xs : list jsstring) :
  includes x xs = true <-> In x xs.
Proof.
  unfold includes. rewrite existsb_exists. split.
  - intros (a & Ha & E). apply bool_decide_eq_true in E. by subst.
  - intros H. exists x. split; [done|]. by apply bool_decide_eq_true.
Qed.

(** X8. [enforceAllowedFields] lets an update through exactly when every
    field it names is on the list of allowed fields. Otherwise it throws a
    [GuardrailError] with code [VALIDATION_ERROR] whose details name the
    fields not allowed, each of them a field of the update that the list
    lacks, in the order of the update, and the whole list of allowed fields. *)
Theorem enforceAllowedFields_whitelist :
  forall (updateFields allowedFields : list jsstring) (context : jsstring),
    (Guards.enforceAllowedFields updateFields allowedFields context = Ok tt
     <-> forall f, In f updateFields -> In f allowedFields)
    /\ (forall e,
           Guards.enforceAllowedFields updateFields allowedFields context = Throw e ->
           exists message disallowed,
             e = GuardrailError VALIDATION_ERROR message
                   (Some (JObject [(js "disallowed", JArray (map JString disallowed));
                                   (js "allowed", JArray (map JString allowedFields))]))
             /\ disallowed <> []
             /\ sublist disallowed updateFields
             /\ forall f, In f disallowed
                          <-> In f updateFields /\ ~ In f allowedFields).
Proof.
  intros updateFields allowedFields context.
  unfold Guards.enforceAllowedFields.
  set (d := Guards.disallowedFields updateFields allowedFields).
  assert (Hd : forall f, In f d <-> In f updateFields /\ ~ In f allowedFields).
  { intros f. unfold d, Guards.disallowedFields. rewrite filter_In.
    rewrite negb_true_iff, <- not_true_iff_false, includes_In. done. }
  destruct d as [|x d'] eqn:Ed; cbn [length Nat.ltb Nat.leb].
  - split; [|discriminate]. split; [|done].
    intros _ f Hf. destruct (includes f allowedFields) eqn:Hi.
    * by apply includes_In.
    * assert (Hn : ~ In f allowedFields).
      { rewrite <- includes_In. by rewrite Hi. }
      by destruct (proj2 (Hd f) (conj Hf Hn)).
  - split.
    + split; [discriminate|]. intros Hall. exfalso.
      destruct (proj1 (Hd x) (or_introl eq_refl)) as [Hx Hn]. by apply Hn, Hall.
    + intros e [= <-]. eexists _, (x :: d'). split; [done|].
      split; [done|]. split; [|exact Hd].
      rewrite <- Ed. unfold d, Guards.disallowedFields.
      clear. induction updateFields as [|f fs IH]; simpl; [constructor|].
      destruct (negb (includes f allowedFields)); by constructor.
Qed.

Lemma member_truthy (props : list (jsstring * JsValue)) (k : jsstring) :
  truthy (member (JObject props) k) = true
  <-> exists v, obj_get k props = Some v /\ truthy v = true.
Proof.
  unfold member. destruct (obj_get k props) as [v|]; simpl.
  - split; [by exists v|]. by intros (? & [= <-] & ?).
  - split; [done|]. by intros (? & ? & ?).
Qed.

(** X9. [requireExplicitScope] accepts the parameters exactly when their
    [scope] is an object in which [website_code], [store_code] or
    [store_view_code] is truthy or [scope] is the string [global]. A scope
    that is not an object is refused whatever it is, the string [global]
    included, and every refusal is a [GuardrailError] with code
    [VALIDATION_ERROR]. *)
Theorem requireExplicitScope_accepts :
  forall params : Params,
    (Guards.requireExplicitScope params = Ok tt
     <-> exists props,
          params !! js "scope" = Some (JObject props)
          /\ ((exists k v,
                  In k [js "website_code"; js "store_code"; js "store_view_code"]
                  /\ obj_get k props = Some v /\ truthy v = true)
              \/ obj_get (js "scope") props = Some (JString (js "global"))))
    /\ (forall e, Guards.requireExplicitScope params = Throw e ->
                  exists message, e = GuardrailError VALIDATION_ERROR message None).
Proof.
  intros params. split.
  - unfold Guards.requireExplicitScope, prop. cbv zeta.
    destruct (params !! js "scope") as [scope|] eqn:Hs;
      cbn [default from_option id];
      [|split; [done|by intros (? & ? & ?)]].
    destruct (truthy scope) eqn:Ht; cbn [negb];
      [|split; [done|intros (props & [= ->] & _); done]].
    destruct (Guards.hasScope scope) eqn:Hh; cbn [negb].
    + split; [intros _|done].
      destruct scope as [| | | | |items|props]; try done.
      exists props. split; [done|].
      unfold Guards.hasScope in Hh.
      apply orb_true_iff in Hh as [Hh|Hh];
        [apply orb_true_iff in Hh as [Hh|Hh];
         [apply orb_true_iff in Hh as [Hh|Hh]|]|].
      * apply member_truthy in Hh as (v & ? & ?). left.
        exists (js "website_code"), v. split; [|done]. by left.
      * apply member_truthy in Hh as (v & ? & ?). left.
        exists (js "store_code"), v. split; [|done]. right. by left.
      * apply member_truthy in Hh as (v & ? & ?). left.
        exists (js "store_view_code"), v. split; [|done]. right. right. by left.
      * right. unfold member in Hh.
        destruct (obj_get (js "scope") props) as [v|]; [|done].
        destruct v; try done. simpl in Hh.
        apply bool_decide_eq_true in Hh. by subst.
    + split; [done|]. intros (props & [= ->] & H). exfalso.
      apply not_true_iff_false in Hh. apply Hh. unfold Guards.hasScope.
      destruct H as [(k & v & Hk & Hv & Hvt)|H].
      * assert (Hm : truthy (member (JObject props) k) = true)
          by (apply member_truthy; eauto).
        destruct Hk as [<-|[<-|[<-|[]]]]; rewrite Hm;
          by rewrite ?orb_true_r.
      * assert (Hm : isStringEq (member (JObject props) (js "scope")) (js "global")
                     = true).
        { unfold member. rewrite H. by apply bool_decide_eq_true. }
        rewrite Hm. by rewrite ?orb_true_r.
  - intros e. unfold Guards.requireExplicitScope. cbv zeta.
    destruct (negb (truthy _)); [intros [= <-]; by eexists|].
    destruct (negb (Guards.hasScope _)); [intros [= <-]; by eexists|done].
Qed.

(** ** Sessions and the clients built from them *)

(** X10. A login decides how the session's requests are authorised. After a
    token login the wrapper lets authenticated actions through exactly when
    the token is not empty, and the client it builds sends [Bearer <token>].
    After an OAuth login the actions pass, and every header set the client
    builds carries the OAuth header made from the stored credentials: the
    placeholder token [oauth] is never sent. After a logout authenticated
    actions are refused, no client can be built, and the other sessions are
    as they were. *)
Theorem session_login_logout :
  forall (hmac : jsstring -> jsstring -> jsstring) (sessions : Sessions)
         (now : Z) (sid baseUrl tok user : jsstring) (creds : OAuthCredentials)
         (nonce timestamp : jsstring) (method : HttpMethod) (url : jsstring)
         (q : option strmap),
    baseUrl <> [] ->
    let afterToken := (SessionStore.create now sid baseUrl tok user sessions).2 in
    let afterOAuth :=
      (SessionStore.createOAuth now sid baseUrl creds user sessions).2 in
    let afterLogout := (SessionStore.destroy sid sessions).2 in
    Dispatcher.authenticated true sid afterToken = negb (bool_decide (tok = []))
    /\ (exists c,
           Dispatcher.getClient sid afterToken = Ok c
           /\ c_baseUrl c = baseUrl
           /\ (tok <> [] ->
               authHeaders hmac c nonce timestamp method url q
               = Ok [ (js "Content-Type", js "application/json");
                      (js "Accept", js "application/json");
                      (js "Authorization", js "Bearer " ++ tok) ]))
    /\ Dispatcher.authenticated true sid afterOAuth = true
    /\ (exists c,
           Dispatcher.getClient sid afterOAuth = Ok c
           /\ c_baseUrl c = baseUrl
           /\ forall h,
               authHeaders hmac c nonce timestamp method url q = Ok h ->
               obj_get (js "Authorization") h
               = buildOAuthHeader hmac creds nonce timestamp method url q)
    /\ Dispatcher.authenticated true sid afterLogout = false
    /\ Dispatcher.getClient sid afterLogout = Throw Dispatcher.noSession
    /\ (forall sid', sid' <> sid ->
                     SessionStore.get sid' afterLogout
                     = SessionStore.get sid' sessions).
Proof.
  intros hmac sessions now sid baseUrl tok user creds nonce timestamp method
    url q Hb afterToken afterOAuth afterLogout.
  assert (Htb : truthy (JString baseUrl) = true).
  { unfold truthy. by rewrite bool_decide_eq_false_2. }
  unfold Dispatcher.authenticated, Dispatcher.getClient,
    SessionStore.getToken, SessionStore.getBaseUrl,
    SessionStore.getOAuthCredentials, SessionStore.get.
  subst afterToken afterOAuth afterLogout.
  unfold SessionStore.create, SessionStore.createOAuth, SessionStore.destroy.
  cbn [snd]. rewrite !lookup_insert_eq, !lookup_delete_eq.
  cbn [fmap option_fmap option_map mbind option_bind s_token s_baseUrl s_oauth].
  rewrite Htb. repeat split.
  - unfold truthy. by destruct (bool_decide (tok = [])).
  - eexists. split; [done|]. split; [done|]. intros Ht.
    unfold authHeaders, newClient, truthy; cbn [c_oauth c_token].
    by rewrite bool_decide_eq_false_2.
  - eexists. split; [done|]. split; [done|]. intros h.
    unfold authHeaders, setOAuth, newClient; cbn [c_oauth].
    destruct (buildOAuthHeader _ _ _ _ _ _ _) as [header|]; [|done].
    intros [= <-]. done.
  - intros sid' Hne. by rewrite lookup_delete_ne.
Qed.

Lemma session_witness :
  exists c,
    Dispatcher.getClient (js "default")
      (SessionStore.create 0 (js "default") (js "https://shop.example")
         (js "t0k3n") (js "admin") ∅).2 = Ok c
    /\ c_baseUrl c = js "https://shop.example"
    /\ (js "t0k3n" <> [] ->
        authHeaders Sample.toyMac c (js "n") (js "1") GET
          (js "https://shop.example/rest/V1/products") None
        = Ok [ (js "Content-Type", js "application/json");
               (js "Accept", js "application/json");
               (js "Authorization", js "Bearer " ++ js "t0k3n") ]).
Proof.
  refine (proj1 (proj2 (session_login_logout Sample.toyMac ∅ 0 (js "default")
            (js "https://shop.example") (js "t0k3n") (js "admin") Sample.creds
            (js "n") (js "1") GET (js "https://shop.example/rest/V1/products")
            None _))).
  discriminate.
Defined.

(** ** The audit log *)

Lemma obj_get_delete {V} (k k' : jsstring) (o : list (jsstring * V)) :
  obj_get k (obj_delete k' o) = if decide (k = k') then None else obj_get k o.
Proof.
  unfold obj_delete. induction o as [|[k0 v0] o IH]; simpl.
  - by destruct (decide (k = k')).
  - destruct (decide (k0 = k')) as [->|Hne]; simpl.
    + rewrite bool_decide_eq_true_2 by done. simpl. rewrite IH.
      destruct (decide (k = k')) as [->|Hk]; [done|].
      by rewrite decide_False.
    + rewrite bool_decide_eq_false_2 by done. simpl. rewrite IH.
      destruct (decide (k0 = k)) as [->|Hk]; [|done].
      by rewrite decide_False.
Qed.

Lemma obj_delete_sublist {V} (k : jsstring) (o : list (jsstring * V)) :
  sublist (obj_delete k o) o.
Proof.
  unfold obj_delete. induction o as [|kv o IH]; simpl; [constructor|].
  destruct (negb _); by constructor.
Qed.

(** X11. What [log] appends to the audit file is one line: the serialised
    copy of the record in which the parameters have lost the properties
    [password] and [token] and nothing else. Every other parameter is written
    as it was given, in the same order, and so are all other fields of the
    record. *)
Theorem audit_log_sanitized :
  forall (stringify : AuditRecord -> jsstring) (record : AuditRecord)
         (file : jsstring),
  exists written : AuditRecord,
    AuditLogger.log stringify record file = file ++ stringify written ++ [10]
    /\ (a_timestamp written, a_username written, a_action written,
        a_scope written, a_result_summary written, a_plan_id written,
        a_reason written)
       = (a_timestamp record, a_username record, a_action record,
          a_scope record, a_result_summary record, a_plan_id record,
          a_reason record)
    /\ match a_params record with
       | None => a_params written = None
       | Some p =>
           exists p',
             a_params written = Some p'
             /\ obj_get (js "password") p' = None
             /\ obj_get (js "token") p' = None
             /\ (forall k, k <> js "password" -> k <> js "token" ->
                           obj_get k p' = obj_get k p)
             /\ sublist p' p
       end.
Proof.
  intros stringify record file. exists (AuditLogger.sanitized record).
  split; [done|]. split; [done|]. cbn [AuditLogger.sanitized a_params].
  destruct (a_params record) as [p|]; [|done].
  eexists. split; [done|]. repeat split.
  - by rewrite !obj_get_delete.
  - by rewrite obj_get_delete.
  - intros k H1 H2. rewrite !obj_get_delete. by rewrite !decide_False.
  - etrans; apply obj_delete_sublist.
Qed.

(** ** The ledger file *)

Lemma load_list_to_map (data : list IdempotencyEntry) :
  LedgerStore.load (EntryArray data)
  = list_to_map (map (fun entry => (key entry, entry)) (rev data)).
Proof.
  unfold LedgerStore.load. rewrite <- fold_left_rev_right.
  induction (rev data) as [|x l IH]; [done|]. simpl. by rewrite IH.
Qed.

Lemma load_keyed (file : LedgerFile) : LedgerStore.keyed (LedgerStore.load file).
Proof.
  unfold LedgerStore.keyed. destruct file as [| | |data];
    try apply map_Forall_empty.
  rewrite load_list_to_map.
  induction (rev data) as [|x l IH]; simpl.
  - apply map_Forall_empty.
  - apply map_Forall_insert_2; done.
Qed.

Lemma record_keyed (entries : Entries) (call : LedgerStore.RecordCall) :
  LedgerStore.keyed entries -> LedgerStore.keyed (LedgerStore.recordCall entries call).
Proof.
  intros H. unfold LedgerStore.recordCall, IdempotencyLedger.record.
  by apply map_Forall_insert_2.
Qed.

Lemma keyed_reload (entries : Entries) (data : list IdempotencyEntry) :
  LedgerStore.keyed entries -> LedgerStore.persisted entries data ->
  LedgerStore.load (EntryArray data) = entries.
Proof.
  intros Hk Hp. rewrite load_list_to_map.
  etrans; [|apply (list_to_map_to_list entries)].
  assert (Hl : map (fun entry => (key entry, entry)) (map_to_list entries).*2
               = map_to_list entries).
  { assert (Hall : Forall (fun kv => key kv.2 = kv.1) (map_to_list entries)).
    { apply Forall_forall. intros [k e] Hin.
      apply elem_of_map_to_list in Hin. by apply Hk in Hin. }
    induction Hall as [|[k e] l Hx _ IH]; [done|].
    rewrite fmap_cons. cbn [map snd fst] in *. by f_equal; [f_equal|]. }
  symmetry. apply list_to_map_proper; [apply NoDup_fst_map_to_list|].
  rewrite <- Hl. apply Permutation_map.
  rewrite <- Permutation_rev. by symmetry.
Qed.



(** ** The purge rate limiter *)

Section RateLimitFacts.

Variable limitToString : Z -> jsstring.
Variable limit : Z.

Lemma passedIn_room (times : list Z) (st : RateLimitState) (w : Z) :
  (passedIn w (limitedCalls limitToString limit times st) <= room limit st w)%nat.
Proof.
  revert st. induction times as [|now rest IH]; intros st;
    [apply Nat.le_0_l|].
  cbn [limitedCalls]. unfold checkRateLimit.
  set (st1 := if (windowMs <? now - windowStart st)%Z
              then {| count := 0; windowStart := now |} else st).
  set (st2 := {| count := S (count st1); windowStart := windowStart st1 |}).
  cbv zeta. fold st1. fold st2.
  assert (Hstep : forall r,
            (passedIn w ({| t_now := now; t_window := windowStart st2;
                            t_passed := r |}
                         :: limitedCalls limitToString limit rest st2)
             = (if (windowStart st2 =? w)%Z && r then 1 else 0)
               + passedIn w (limitedCalls limitToString limit rest st2))%nat).
  { intros r. unfold passedIn. cbn [List.filter t_window t_passed].
    by destruct ((windowStart st2 =? w)%Z && r). }
  specialize (IH st2).
  assert (Hgoal : forall r,
            (r = true -> Z.of_nat (count st2) <= limit)%Z ->
            ((if (windowStart st2 =? w)%Z && r then 1 else 0)
             + passedIn w (limitedCalls limitToString limit rest st2)
             <= room limit st w)%nat).
  { intros r Hr. revert IH. unfold room, st2, st1, windowMs in *.
    cbn [count windowStart] in *.
    destruct (Z.ltb_spec 60000 (now - windowStart st)) as [Hreset|Hkeep];
      cbn [count windowStart] in *;
      destruct (Z.eqb_spec (windowStart st) w), (Z.eqb_spec now w), r;
      cbn [andb]; repeat case_decide; try lia;
      specialize (Hr eq_refl); lia. }
  destruct (limit <? Z.of_nat (count st2))%Z eqn:Hlim; rewrite Hstep.
  - apply Hgoal. discriminate.
  - apply Hgoal. intros _. by apply Z.ltb_ge.
Qed.

Lemma limitedCalls_span (times : list Z) (st : RateLimitState) :
  Forall (fun c => (t_now c - t_window c <= windowMs)%Z)
    (limitedCalls limitToString limit times st).
Proof.
  revert st. induction times as [|now rest IH]; intros st; [constructor|].
  cbn [limitedCalls]. unfold checkRateLimit. cbv zeta.
  destruct (Z.ltb_spec windowMs (now - windowStart st)) as [Hreset|Hkeep];
    cbn [count windowStart];
    destruct (limit <? _)%Z; constructor; try apply IH;
    cbn [t_now t_window windowStart]; unfold windowMs in *; lia.
Qed.

(** One call: the window it is counted in, the count afterwards, and
    whether it is let through. *)
Lemma checkRateLimit_step (now : Z) (st : RateLimitState) :
  let rolled := (windowMs <? now - windowStart st)%Z in
  let run := checkRateLimit limitToString limit now st in
  windowStart run.2 = (if rolled then now else windowStart st)
  /\ count run.2 = S (if rolled then 0%nat else count st)
  /\ run.1 = (if (limit <? Z.of_nat (count run.2))%Z
              then Throw (rateLimitExceeded limitToString limit) else Ok tt).
Proof.
  unfold checkRateLimit. cbv zeta.
  destruct (windowMs <? now - windowStart st)%Z; cbn [count windowStart];
    destruct (limit <? _)%Z eqn:E; cbn [fst snd count windowStart];
    by rewrite ?E.
Qed.

Lemma countedIn_cons (w : Z) (c : LimitedCall) (calls : list LimitedCall) :
  countedIn w (c :: calls)
  = ((if (t_window c =? w)%Z then 1 else 0) + countedIn w calls)%nat.
Proof. unfold countedIn. cbn [List.filter]. by destruct (t_window c =? w)%Z. Qed.

Lemma limitedCalls_cons (now : Z) (rest : list Z) (st : RateLimitState) :
  limitedCalls limitToString limit (now :: rest) st
  = {| t_now := now;
       t_window := windowStart (checkRateLimit limitToString limit now st).2;
       t_passed := match (checkRateLimit limitToString limit now st).1 with
                   | Ok _ => true
                   | Throw _ => false
                   end |}
    :: limitedCalls limitToString limit rest
         (checkRateLimit limitToString limit now st).2.
Proof.
  cbn [limitedCalls].
  by destruct (checkRateLimit limitToString limit now st) as [r st'].
Qed.

(** A call is let through exactly when the calls counted in its window so
    far, itself included, are within the limit. *)
Lemma limitedCalls_passed (times : list Z) (st : RateLimitState)
    (pre post : list LimitedCall) (c : LimitedCall) :
  limitedCalls limitToString limit times st = pre ++ c :: post ->
  (windowStart st <= t_window c)%Z
  /\ t_passed c
     = bool_decide
         (Z.of_nat ((if decide (t_window c = windowStart st) then count st else 0)
                    + countedIn (t_window c) (pre ++ [c])) <= limit)%Z.
Proof.
  revert st pre. induction times as [|now rest IH]; intros st pre.
  { by destruct pre. }
  rewrite limitedCalls_cons.
  destruct (checkRateLimit_step now st) as (Hw & Hn & Hr). cbv zeta in *.
  set (st2 := (checkRateLimit limitToString limit now st).2) in *.
  assert (Hmono : (windowStart st <= windowStart st2)%Z).
  { rewrite Hw. unfold windowMs.
    destruct (Z.ltb_spec 60000 (now - windowStart st)); lia. }
  destruct pre as [|c0 pre]; cbn [app].
  - intros [= <- _]. cbn [t_window t_passed]. split; [done|].
    rewrite Hr. rewrite countedIn_cons. cbn [t_window].
    rewrite Z.eqb_refl. unfold countedIn. cbn [List.filter length].
    rewrite Hn, Hw. unfold windowMs.
    destruct (Z.ltb_spec 60000 (now - windowStart st)).
    + rewrite decide_False by lia.
      destruct (Z.ltb_spec limit (Z.of_nat 1)).
      * by rewrite bool_decide_eq_false_2 by lia.
      * by rewrite bool_decide_eq_true_2 by lia.
    + rewrite decide_True by done.
      destruct (Z.ltb_spec limit (Z.of_nat (S (count st)))).
      * by rewrite bool_decide_eq_false_2 by lia.
      * by rewrite bool_decide_eq_true_2 by lia.
  - intros [= <- Hrest]. destruct (IH st2 pre Hrest) as [Hle Hp].
    split; [lia|]. rewrite Hp. rewrite countedIn_cons. cbn [t_window].
    apply bool_decide_ext. rewrite Hn. revert Hle. rewrite Hw. unfold windowMs.
    destruct (Z.ltb_spec 60000 (now - windowStart st)); intros Hle.
    + rewrite (decide_False (P := t_window c = windowStart st)) by lia.
      destruct (Z.eqb_spec now (t_window c)).
      * rewrite decide_True by done. lia.
      * rewrite decide_False by done. lia.
    + destruct (Z.eqb_spec (windowStart st) (t_window c)).
      * rewrite !decide_True by done. lia.
      * rewrite !decide_False by done. lia.
Qed.

Lemma limitedCalls_windows (times : list Z) (st : RateLimitState) :
  Forall (fun c => (windowStart st <= t_window c)%Z)
    (limitedCalls limitToString limit times st).
Proof.
  apply Forall_forall. intros c Hc.
  apply list_elem_of_split in Hc as (pre & post & Hc).
  by destruct (limitedCalls_passed times st pre post c Hc).
Qed.

(** The counter holds the number of calls made in the window it stands for,
    those that were refused included. *)
Lemma limiterAfter_count (times : list Z) (st : RateLimitState) :
  let st' := limiterAfter limitToString limit times st in
  (windowStart st <= windowStart st')%Z
  /\ count st'
     = ((if decide (windowStart st' = windowStart st) then count st else 0)
        + countedIn (windowStart st')
            (limitedCalls limitToString limit times st))%nat.
Proof.
  revert st. induction times as [|now rest IH]; intros st; cbv zeta.
  { cbn [limiterAfter limitedCalls]. rewrite decide_True by done.
    unfold countedIn. cbn. split; [done|lia]. }
  rewrite limitedCalls_cons. cbn [limiterAfter].
  destruct (checkRateLimit_step now st) as (Hw & Hn & _). cbv zeta in *.
  set (st2 := (checkRateLimit limitToString limit now st).2) in *.
  destruct (IH st2) as [Hle Hc]. cbv zeta in *.
  set (st' := limiterAfter limitToString limit rest st2) in *.
  rewrite countedIn_cons. cbn [t_window]. rewrite Hc, Hn.
  revert Hle. rewrite Hw. unfold windowMs.
  destruct (Z.ltb_spec 60000 (now - windowStart st)); intros Hle.
  - split; [lia|].
    rewrite (decide_False (P := windowStart st' = windowStart st)) by lia.
    destruct (Z.eqb_spec now (windowStart st')).
    + rewrite decide_True by done. lia.
    + rewrite decide_False by done. lia.
  - split; [lia|].
    destruct (Z.eqb_spec (windowStart st) (windowStart st')).
    + rewrite !decide_True by done. lia.
    + rewrite !decide_False by done. lia.
Qed.

End RateLimitFacts.

(** X13. The purge rate limiter lets at most [limit] calls through in one
    window, whatever the clock readings of the calls are (none when the
    limit is negative), and a call is counted in a window only up to 60
    seconds after the window's start. Refused calls count against the
    window as well: every call, let through or refused, adds one to the
    counter of its window, so after any run of calls the counter holds the
    number of all the calls made in the current window; and a call is let
    through exactly when the calls counted in its window so far, itself
    included, do not exceed the limit. *)
Theorem rate_limit_per_window :
  forall (limitToString : Z -> jsstring) (limit start : Z) (times : list Z)
         (w : Z),
    let calls := limitedCalls limitToString limit times
                   {| count := 0; windowStart := start |} in
    let final := limiterAfter limitToString limit times
                   {| count := 0; windowStart := start |} in
    (passedIn w calls <= Z.to_nat limit)%nat
    /\ Forall (fun c => (t_now c - t_window c <= 60000)%Z) calls
    /\ (forall (now : Z) (st : RateLimitState),
          let run := checkRateLimit limitToString limit now st in
          count run.2
          = S (if (60000 <? now - windowStart st)%Z then 0%nat else count st)
          /\ (run.1 = Ok tt <-> (Z.of_nat (count run.2) <= limit)%Z))
    /\ count final = countedIn (windowStart final) calls
    /\ (forall (pre post : list LimitedCall) (c : LimitedCall),
          calls = pre ++ c :: post ->
          t_passed c
          = bool_decide
              (Z.of_nat (countedIn (t_window c) (pre ++ [c])) <= limit)%Z).
Proof.
  intros limitToString limit start times w calls final.
  split; [|split; [|split; [|split]]].
  - etrans; [apply passedIn_room|]. unfold room. cbn [count windowStart].
    repeat case_decide; lia.
  - apply limitedCalls_span.
  - intros now st run.
    destruct (checkRateLimit_step limitToString limit now st) as (_ & Hn & Hr).
    cbv zeta in *. fold run in Hn, Hr. split; [exact Hn|].
    rewrite Hr. destruct (Z.ltb_spec limit (Z.of_nat (count run.2))).
    + split; [discriminate|lia].
    + split; [lia|done].
  - destruct (limiterAfter_count limitToString limit times
                {| count := 0; windowStart := start |}) as [_ H].
    cbv zeta in H. fold final calls in H. rewrite H.
    cbn [count]. by destruct (decide _).
  - intros pre post c Hc.
    destruct (limitedCalls_passed limitToString limit times _ pre post c Hc)
      as [_ ->].
    cbn [count]. by destruct (decide _).
Qed.

(** ** The plan store: [cleanup] *)

Lemma cleanup_lookup (now : Z) (plans : Plans) (planId : jsstring) :
  (PlanStore.cleanup now plans).2 !! planId
  = match plans !! planId with
    | Some plan => if PlanStore.expired now plan then None else Some plan
    | None => None
    end.
Proof.
  unfold PlanStore.cleanup. cbn [snd].
  destruct (plans !! planId) as [plan|] eqn:H.
  - destruct (PlanStore.expired now plan) eqn:E.
    + apply map_lookup_filter_None. right. intros x Hx. simpl.
      rewrite H in Hx. injection Hx as <-. by rewrite E.
    + apply map_lookup_filter_Some. by split.
  - apply map_lookup_filter_None. by left.
Qed.

Lemma cleanup_count (now : Z) (plans : Plans) :
  ((PlanStore.cleanup now plans).1 + size (PlanStore.cleanup now plans).2
   = size plans)%nat.
Proof.
  unfold PlanStore.cleanup. cbn [fst snd].
  set (P := fun kv : jsstring * BulkPlan => PlanStore.expired now kv.2 = true).
  assert (E : filter (fun kv : jsstring * BulkPlan =>
                        PlanStore.expired now kv.2 = false) plans
              = filter (fun kv => ~ P kv) plans).
  { apply map_filter_ext. intros k x _. unfold P. simpl.
    by destruct (PlanStore.expired now x). }
  rewrite E, <- map_size_disj_union by apply map_disjoint_filter_complement.
  by rewrite map_filter_union_complement.
Qed.

(** X14. [cleanup] removes the plans that have expired and no others, and
    returns how many they were. No caller can tell that it ran: at the time
    of the cleanup and at any later time, [get] and [consume] return for
    every plan id what they would have returned without it. *)
Theorem cleanup_invisible :
  forall (now : Z) (plans : Plans),
    let removed := (PlanStore.cleanup now plans).1 in
    let kept := (PlanStore.cleanup now plans).2 in
    (removed + size kept = size plans)%nat
    /\ (forall planId plan,
           kept !! planId = Some plan
           <-> plans !! planId = Some plan /\ (now <= expires_at plan)%Z)
    /\ (forall later planId,
           (now <= later)%Z ->
           (PlanStore.get later planId kept).1 = (PlanStore.get later planId plans).1
           /\ (PlanStore.consume later planId kept).1
              = (PlanStore.consume later planId plans).1).
Proof.
  intros now plans removed kept. split; [apply cleanup_count|]. split.
  - intros planId plan. subst kept. rewrite cleanup_lookup.
    unfold PlanStore.expired.
    destruct (plans !! planId) as [q|]; [|by split; [|intros []]].
    destruct (Z.ltb_spec (expires_at q) now); split;
      try done; try (intros [[= ->] ?]; lia); try (intros [= ->]; split; [done|lia]).
    by intros [[= ->] _].
  - intros later planId Hle.
    assert (Hget : (PlanStore.get later planId kept).1
                   = (PlanStore.get later planId plans).1).
    { unfold PlanStore.get. subst kept. rewrite cleanup_lookup.
      unfold PlanStore.expired.
      destruct (plans !! planId) as [q|]; [|done].
      destruct (Z.ltb_spec (expires_at q) now);
        destruct (Z.ltb_spec (expires_at q) later); try done; lia. }
    split; [done|]. unfold PlanStore.consume.
    destruct (PlanStore.get later planId kept) as [[a|] k1],
             (PlanStore.get later planId plans) as [[b|] k2];
      simpl in *; congruence.
Qed.

(** ** The commit handler when it fails *)

(** X15. A commit that throws has changed the plan store at most by
    removing the plan named in the parameters, and a commit refused by the
    schema or by the confirmation gate changes nothing at all. Apart from
    one case, a commit that throws has sent no request and has left the
    platform, the ledger and its file as they were: so it is for a plan that
    is absent or expired, for a session without a client, and for a consumed
    plan whose payload cannot be read or holds no iterable [skus] (the plan
    of another handler). The one case is the error of the ledger write at
    the end of a run under an idempotency key: then every request of the
    run has been sent, and the entry is in the ledger in memory. *)
Theorem commit_failure_effects :
  forall (isUuid : jsstring -> bool)
         (valueToString cannotRead notIterable : JsValue -> jsstring)
         (World Disk : Type) (persist : Entries -> Disk -> Outcome unit * Disk)
         (config : McpConfig)
         (now nowRecord : Z) (params : Params) (context : ActionContext World)
         (s s' : Server World Disk) (e : Exn),
    commit_bulk_update isUuid valueToString cannotRead notIterable persist config
      now nowRecord params context s
    = (Throw e, s') ->
    (plans s' = plans s
     \/ exists planId,
         prop params (js "plan_id") = JString planId
         /\ plans s' = delete planId (plans s))
    /\ ((exists e0, CommitBulkUpdateSchema_parse isUuid params = Throw e0)
        \/ (exists e0, Guardrails.requireConfirmation config Risk params = Throw e0)
        -> s' = s)
    /\ ((requests s' = requests s /\ world s' = world s
         /\ entries s' = entries s /\ disk s' = disk s)
        \/ exists (v : CommitPlan) (k : jsstring) (plan : BulkPlan)
                  (client : Client World) (records : list JsValue)
                  (summary : jsstring),
            CommitBulkUpdateSchema_parse isUuid params = Ok v
            /\ idempotency_key v = Some k
            /\ (PlanStore.consume now (v_plan_id v) (plans s)).1 = Some plan
            /\ getClient context = Ok client
            /\ iterate (member (payload plan) (js "skus")) = Some records
            /\ persist (IdempotencyLedger.record nowRecord k
                          (js "catalog.commit_bulk_update") summary (entries s))
                 (disk s)
               = (Throw e, disk s')
            /\ entries s'
               = IdempotencyLedger.record nowRecord k
                   (js "catalog.commit_bulk_update") summary (entries s)
            /\ let request :=
                 spec_request valueToString
                   (ownEntries (member (payload plan) (js "updates")))
                   (member (member (payload plan) (js "scope"))
                      (js "store_view_code")) in
               requests s' = requests s ++ spec_requests request records
               /\ world s' = (spec_results client request records (world s)).2).
Proof.
  intros isUuid valueToString cannotRead notIterable World Disk persist config
         now nowRecord params context s s' e.
  rewrite commit_bulk_update_unfold.
  destruct (CommitBulkUpdateSchema_parse isUuid params) as [v|e1] eqn:Hp.
  2:{ intros [= <- <-]. repeat split; auto. }
  destruct (Guardrails.requireConfirmation config Risk params) as [u|e1] eqn:Hg.
  2:{ intros [= <- <-]. repeat split; auto. }
  assert (Hno : (exists e0, @Ok CommitPlan v = Throw e0)
                \/ (exists e0, @Ok unit u = Throw e0) -> s' = s).
  { by intros [[? ?]|[? ?]]. }
  destruct (priorEntry v s); [discriminate|].
  pose proof (parse_Ok _ _ _ Hp) as (Hpid & _).
  assert (Hplans : forall q plans',
            PlanStore.consume now (v_plan_id v) (plans s) = (q, plans') ->
            plans' = plans s
            \/ exists planId, prop params (js "plan_id") = JString planId
                              /\ plans' = delete planId (plans s)).
  { intros q plans'. unfold PlanStore.consume, PlanStore.get.
    destruct (plans s !! v_plan_id v) as [plan|]; [|intros [= _ <-]; by left].
    destruct (PlanStore.expired now plan); intros [= _ <-]; right; eauto. }
  destruct (PlanStore.consume now (v_plan_id v) (plans s)) as [[plan|] plans']
    eqn:Hc.
  2:{ intros [= <- <-]. cbn [requests world entries plans disk].
      split; [eauto|]. split; [done|]. by left. }
  cbv zeta.
  destruct (getClient context) as [client|e1] eqn:Hcl.
  2:{ intros [= <- <-]. cbn [requests world entries plans disk].
      split; [eauto|]. split; [done|]. by left. }
  destruct (storeViewCode cannotRead (payload plan)) as [storeCode|e1] eqn:Hsv.
  2:{ intros [= <- <-]. cbn [requests world entries plans disk].
      split; [eauto|]. split; [done|]. by left. }
  destruct (iterate (member (payload plan) (js "skus"))) as [records|] eqn:Hit.
  2:{ intros [= <- <-]. cbn [requests world entries plans disk].
      split; [eauto|]. split; [done|]. by left. }
  apply storeViewCode_Ok in Hsv. subst storeCode.
  rewrite (loop_results valueToString World client
             (spec_request valueToString
                (ownEntries (member (payload plan) (js "updates")))
                (member (member (payload plan) (js "scope"))
                   (js "store_view_code"))))
    by (intros sku; apply putRequest_spec).
  cbn [p_world successCount errors p_requests app Nat.add].
  match goal with
  | |- context [ledgerWrite persist nowRecord v ?summary (entries s) (disk s)] =>
      set (sm := summary)
  end.
  unfold ledgerWrite, ledgerAfter.
  destruct (idempotency_key v) as [k|] eqn:Hk; [|discriminate].
  destruct (truthy (JString k)); [|discriminate].
  destruct (persist _ (disk s)) as [[[]|e1] d] eqn:Hw; [discriminate|].
  cbn [fst snd]. intros [= <- <-]. cbn [requests world entries plans disk].
  split; [eauto|]. split; [done|]. right.
  exists v, k, plan, client, records, sm.
  rewrite Hc. by repeat split.
Qed.

Lemma commit_failure_witness :
  let run := commit_bulk_update uuidShape Sample.valueToString Sample.cannotRead
               Sample.notIterable Sample.persistFull defaultConfig
               1700000000001 1700000000002
               (Sample.commitParams (js "approved by ops") (Some (js "retry-1")))
               Sample.context Sample.server in
  run.1 = Throw Sample.diskFull
  /\ length (requests run.2) = 3%nat
  /\ is_Some (entries run.2 !! js "retry-1")
  /\ plans run.2 = delete Sample.planId (plans Sample.server).
Proof.
  intros run.
  destruct (commit_failure_effects uuidShape Sample.valueToString
              Sample.cannotRead Sample.notIterable nat nat Sample.persistFull
              defaultConfig 1700000000001 1700000000002
              (Sample.commitParams (js "approved by ops") (Some (js "retry-1")))
              Sample.context Sample.server run.2 Sample.diskFull)
    as (Hplans & _ & Hsent).
  { vm_compute. reflexivity. }
  split; [vm_compute; reflexivity|].
  destruct Hsent as [(Hreq & _)|(v & k & plan & client & records & sm & Hp & Hk
                                 & Hc & Hcl & Hit & Hw & He & Hreq & _)].
  { vm_compute in Hreq. discriminate Hreq. }
  assert (v = {| v_plan_id := Sample.planId; v_reason := js "approved by ops";
                 idempotency_key := Some (js "retry-1") |}) as ->.
  { vm_compute in Hp. by injection Hp as <-. }
  injection Hk as <-.
  assert (plan = Sample.plan) as ->.
  { vm_compute in Hc. by injection Hc as <-. }
  assert (records = [JString (js "A-1"); JString (js "B 2"); JString (js "C-3")])
    as ->.
  { vm_compute in Hit. by injection Hit as <-. }
  split; [|split].
  - rewrite Hreq. vm_compute. reflexivity.
  - rewrite He. unfold IdempotencyLedger.record. rewrite lookup_insert_eq. eauto.
  - destruct Hplans as [H|(planId & Hid & H)].
    + vm_compute in H. discriminate H.
    + vm_compute in Hid. injection Hid as <-. exact H.
Defined.

(** ** Preparing and committing a catalog update *)

Lemma enforceAllowedFields_Ok (fields allowed : list jsstring)
    (context : jsstring) (u : unit) :
  Guards.enforceAllowedFields fields allowed context = Ok u ->
  Forall (fun f => In f allowed) fields.
Proof.
  unfold Guards.enforceAllowedFields, Guards.disallowedFields.
  induction fields as [|f fs IH]; [constructor|]. cbn [List.filter].
  destruct (includes f allowed) eqn:Hf; cbn [negb length Nat.ltb Nat.leb].
  - intros H. constructor; [by apply includes_In|]. by apply IH.
  - discriminate.
Qed.

(** X16. [catalog.prepare_bulk_update] changes nothing but the plan store
    (and whatever the product search does to the platform): it records
    nothing in the ledger and sends no update. When it throws, the plan
    store is as it was, so no plan is stored for an update that names a
    field that is not allowed or that matches more products than the cap.
    When it answers, exactly one plan has been stored, under the id it
    returns: a catalog plan created at the time of the call, every update
    field of which is an allowed one, for no more products than the cap. *)
Theorem prepare_stores_vetted_plans :
  forall (World Disk : Type) (valueToString : JsValue -> jsstring)
         (numberToString : float -> jsstring)
         (parse : Params -> Outcome PrepareBulkUpdate) (config : McpConfig)
         (uuid : jsstring) (now : Z) (params : Params)
         (context : PrepareContext World) (s s' : Server World Disk)
         (r : Outcome PrepareResult),
    prepare_bulk_update valueToString numberToString parse config uuid now
      params context s = (r, s') ->
    entries s' = entries s
    /\ requests s' = requests s
    /\ match r with
       | Throw _ => plans s' = plans s
       | Ok res =>
           exists plan,
             plans s' = <[ uuid := plan ]> (plans s)
             /\ plan_id plan = uuid
             /\ r_plan_id res = uuid
             /\ r_expires_at res = expires_at plan
             /\ created_at plan = now
             /\ action plan = js "catalog.commit_bulk_update"
             /\ vetted plan
             /\ (exists (skus : list jsstring)
                        (updates : list (jsstring * JsValue)) (scope : JsValue),
                   payload plan = catalogPayload skus updates scope
                   /\ PrimFloat.ltb (maxSkusPerBulkCommit config)
                        (floatOfZ (Z.of_nat (length skus))) = false
                   /\ affected_count plan = length skus)
             /\ r_affected_count res = affected_count plan
       end.
Proof.
  intros World Disk valueToString numberToString parse config uuid now params
    context s s' r.
  unfold prepare_bulk_update, bind, lift, ret.
  destruct (parse params) as [validated|e]; [|by intros [= <- <-]].
  destruct (Guards.enforceAllowedFields _ _ _) as [u|e] eqn:Hallowed;
    [|by intros [= <- <-]].
  apply enforceAllowedFields_Ok in Hallowed.
  destruct (p_getClient context) as [client|e]; [|by intros [= <- <-]].
  destruct (resolveMatchingProducts _ _ _ _ _ _ _) as [[products|e] w];
    [|by intros [= <- <-]].
  unfold Guards.enforceBulkSkuCap.
  destruct (PrimFloat.ltb _ _) eqn:Hcap; [by intros [= <- <-]|].
  cbn [plans entries world requests].
  unfold PlanStore_create.
  destruct (timeClip _) as [expires|]; [|by intros [= <- <-]].
  intros [= <- <-]. cbn [plans entries requests]. split; [done|]. split; [done|].
  eexists. split; [done|].
  cbn [plan_id r_plan_id r_expires_at expires_at created_at action payload
       affected_count r_affected_count].
  unfold obj_keys in Hallowed. apply Forall_map in Hallowed.
  repeat (split; [done|]). split; [|split; [|done]].
  - unfold vetted. cbn [payload]. eauto.
  - eexists _, _, _. split; [done|]. by rewrite length_map.
Qed.

Lemma prepare_witness :
  entries SamplePrepare.run.2 = ∅
  /\ requests SamplePrepare.run.2 = []
  /\ match SamplePrepare.run.1 with
     | Throw _ => plans SamplePrepare.run.2 = ∅
     | Ok res =>
         exists plan,
           plans SamplePrepare.run.2
           = <[ js "0b0e7a52-5c1c-4e0e-9f43-0d2f45a1c001" := plan ]> ∅
           /\ plan_id plan = js "0b0e7a52-5c1c-4e0e-9f43-0d2f45a1c001"
           /\ r_plan_id res = js "0b0e7a52-5c1c-4e0e-9f43-0d2f45a1c001"
           /\ r_expires_at res = expires_at plan
           /\ created_at plan = 1700000000000%Z
           /\ action plan = js "catalog.commit_bulk_update"
           /\ vetted plan
           /\ (exists (skus : list jsstring)
                      (updates : list (jsstring * JsValue)) (scope : JsValue),
                 payload plan = catalogPayload skus updates scope
                 /\ PrimFloat.ltb (maxSkusPerBulkCommit defaultConfig)
                      (floatOfZ (Z.of_nat (length skus))) = false
                 /\ affected_count plan = length skus)
           /\ r_affected_count res = affected_count plan
     end.
Proof.
  apply (prepare_stores_vetted_plans nat nat (fun _ => js "?") (fun _ => js "?")
           (fun _ => Ok SamplePrepare.validated) defaultConfig
           (js "0b0e7a52-5c1c-4e0e-9f43-0d2f45a1c001") 1700000000000 ∅
           SamplePrepare.context
           {| plans := ∅; entries := ∅; world := 0%nat; disk := 0%nat;
              requests := [] |}).
  apply surjective_pairing.
Defined.

Lemma prepare_sample_answers :
  exists res, SamplePrepare.run.1 = Ok res
              /\ r_expires_at res = 1700001800000%Z
              /\ r_affected_count res = 2%nat.
Proof. eexists. vm_compute. by repeat split. Qed.

Lemma sku_not_allowed : ~ In (js "sku") allowedCatalogUpdateFields.
Proof.
  intros H. apply includes_In in H. vm_compute in H. discriminate H.
Qed.

(** What the commit handler reads from the payload of a catalog plan. *)
Lemma catalogPayload_members (skus : list jsstring)
    (updates : list (jsstring * JsValue)) (scope : JsValue) :
  member (catalogPayload skus updates scope) (js "skus")
  = JArray (map JString skus)
  /\ member (catalogPayload skus updates scope) (js "updates") = JObject updates
  /\ member (catalogPayload skus updates scope) (js "scope") = scope.
Proof. by repeat split. Qed.

(** The request of one record of a plan whose fields are allowed ones. *)
Lemma spec_request_vetted (valueToString : JsValue -> jsstring)
    (updates : list (jsstring * JsValue)) (storeView : JsValue)
    (sku : jsstring) (req : PutRequest) :
  Forall (fun kv => In (fst kv) allowedCatalogUpdateFields) updates ->
  spec_request valueToString updates storeView (JString sku) = Some req ->
  exists esku fields,
    encodeURIComponent sku = Some esku
    /\ endpoint req = js "/V1/products/" ++ esku
    /\ body req = JObject [(js "product", JObject fields)]
    /\ obj_get (js "sku") fields = Some (JString sku)
    /\ Forall (fun kv => fst kv = js "sku"
                         \/ In (fst kv) allowedCatalogUpdateFields) fields.
Proof.
  intros Hv. unfold spec_request. cbn [toStr].
  destruct (encodeURIComponent sku) as [esku|]; [|done].
  intros [= <-]. eexists _, _. split; [done|]. split; [done|].
  split; [done|]. split.
  - rewrite obj_spread_get_other.
    + unfold obj_get. by rewrite decide_True.
    + eapply Forall_impl; [exact Hv|]. intros [k v] Hk Heq.
      simpl in Hk, Heq. subst k. by apply sku_not_allowed.
  - apply (obj_spread_Forall
             (fun kv => fst kv = js "sku"
                        \/ In (fst kv) allowedCatalogUpdateFields)).
    + constructor; [by left|constructor].
    + eapply Forall_impl; [exact Hv|]. intros kv Hk. by right.
Qed.

Lemma consume_plans (now : Z) (planId : jsstring) (plans : Plans) :
  (PlanStore.consume now planId plans).2 = plans
  \/ (PlanStore.consume now planId plans).2 = delete planId plans.
Proof.
  unfold PlanStore.consume, PlanStore.get.
  destruct (plans !! planId) as [plan|]; [|by left].
  destruct (PlanStore.expired now plan); by right.
Qed.

(** X17. If every plan in the store updates allowed fields only, as the
    plans of [catalog.prepare_bulk_update] do, then every request one call
    of [catalog.commit_bulk_update] sends goes to the product of one SKU,
    carries that same SKU in its body (the updates cannot replace it, since
    [sku] is not an allowed field), and besides the SKU sets allowed fields
    only. The plans left in the store are still of that kind. *)
Theorem commit_sends_vetted_updates :
  forall (isUuid : jsstring -> bool)
         (valueToString cannotRead notIterable : JsValue -> jsstring)
         (World Disk : Type) (persist : Entries -> Disk -> Outcome unit * Disk)
         (config : McpConfig)
         (now nowRecord : Z) (params : Params) (context : ActionContext World)
         (s s' : Server World Disk) (r : Outcome CommitResult),
    (forall planId plan, plans s !! planId = Some plan -> vetted plan) ->
    commit_bulk_update isUuid valueToString cannotRead notIterable persist config
      now nowRecord params context s = (r, s') ->
    (forall planId plan, plans s' !! planId = Some plan -> vetted plan)
    /\ exists sent,
        requests s' = requests s ++ sent
        /\ Forall
             (fun req =>
                exists sku esku fields,
                  encodeURIComponent sku = Some esku
                  /\ endpoint req = js "/V1/products/" ++ esku
                  /\ body req = JObject [(js "product", JObject fields)]
                  /\ obj_get (js "sku") fields = Some (JString sku)
                  /\ Forall (fun kv => fst kv = js "sku"
                                       \/ In (fst kv) allowedCatalogUpdateFields)
                       fields)
             sent.
Proof.
  intros isUuid valueToString cannotRead notIterable World Disk persist config
         now nowRecord params context s s' r Hv.
  rewrite commit_bulk_update_unfold.
  assert (Hnone : (forall planId plan, plans s !! planId = Some plan -> vetted plan)
                  /\ exists sent : list PutRequest,
                      requests s = requests s ++ sent
                      /\ Forall
                           (fun req =>
                              exists sku esku fields,
                                encodeURIComponent sku = Some esku
                                /\ endpoint req = js "/V1/products/" ++ esku
                                /\ body req = JObject [(js "product", JObject fields)]
                                /\ obj_get (js "sku") fields = Some (JString sku)
                                /\ Forall (fun kv => fst kv = js "sku"
                                             \/ In (fst kv) allowedCatalogUpdateFields)
                                     fields)
                           sent).
  { split; [done|]. exists []. by rewrite app_nil_r. }
  destruct (CommitBulkUpdateSchema_parse isUuid params) as [v|e];
    [|by intros [= <- <-]].
  destruct (Guardrails.requireConfirmation config Risk params);
    [|by intros [= <- <-]].
  destruct (priorEntry v s); [by intros [= <- <-]|].
  pose proof (consume_plans now (v_plan_id v) (plans s)) as Hplans.
  destruct (PlanStore.consume now (v_plan_id v) (plans s)) as [q plans'] eqn:Hc.
  cbn [snd] in Hplans.
  assert (Hv' : forall planId plan, plans' !! planId = Some plan -> vetted plan).
  { intros planId plan. destruct Hplans as [->| ->]; [apply Hv|].
    rewrite lookup_delete. case_decide; [done|apply Hv]. }
  destruct q as [plan|].
  2:{ intros [= <- <-]. cbn [plans requests]. split; [done|]. apply Hnone. }
  cbv zeta. destruct (getClient context) as [client|e].
  2:{ intros [= <- <-]. cbn [plans requests]. split; [done|]. apply Hnone. }
  apply consume_Some in Hc as (Hplan & _).
  apply Hv in Hplan. destruct Hplan as (skus & updates & scope & Hpl & Hall).
  destruct (catalogPayload_members skus updates scope) as (Hs & Hu & Hsc).
  rewrite Hpl. unfold catalogPayload at 1. rewrite storeViewCode_object.
  fold (catalogPayload skus updates scope). rewrite Hs. cbn [iterate].
  rewrite (loop_results valueToString World client
             (spec_request valueToString updates
                (member scope (js "store_view_code"))))
    by (intros sku; by rewrite putRequest_spec, Hu, Hsc).
  intros [= <- <-]. cbn [plans requests p_requests]. split; [done|].
  eexists. split; [done|].
  unfold spec_requests. apply Forall_forall. intros req Hin.
  apply list_elem_of_omap in Hin as (x & Hx & Hreq).
  apply list_elem_of_In, in_map_iff in Hx as (sku & <- & _).
  destruct (spec_request_vetted _ _ _ _ _ Hall Hreq) as (esku & fields & H).
  by exists sku, esku, fields.
Qed.

Lemma commit_vetted_witness :
  let run := commit_bulk_update uuidShape Sample.valueToString Sample.cannotRead
               Sample.notIterable Sample.persist defaultConfig 1700000000001
               1700000000002 (Sample.commitParams (js "approved by ops") None)
               Sample.context Sample.server in
  (forall planId plan, plans run.2 !! planId = Some plan -> vetted plan)
  /\ exists sent,
      requests run.2 = requests Sample.server ++ sent
      /\ Forall
           (fun req =>
              exists sku esku fields,
                encodeURIComponent sku = Some esku
                /\ endpoint req = js "/V1/products/" ++ esku
                /\ body req = JObject [(js "product", JObject fields)]
                /\ obj_get (js "sku") fields = Some (JString sku)
                /\ Forall (fun kv => fst kv = js "sku"
                                     \/ In (fst kv) allowedCatalogUpdateFields)
                     fields)
           sent.
Proof.
  intros run.
  apply (commit_sends_vetted_updates uuidShape Sample.valueToString
           Sample.cannotRead Sample.notIterable nat nat Sample.persist
           defaultConfig 1700000000001
           1700000000002 (Sample.commitParams (js "approved by ops") None)
           Sample.context Sample.server run.2 run.1).
  - intros planId plan. unfold Sample.server. cbn [plans].
    rewrite lookup_singleton_Some. intros [_ <-].
    exists [js "A-1"; js "B 2"; js "C-3"], [(js "name", JString (js "Mug"))],
      (JObject [(js "store_view_code", JString (js "default"))]).
    split; [reflexivity|].
    constructor; [|constructor].
    apply includes_In. vm_compute. reflexivity.
  - apply surjective_pairing.
Defined.

(** ** One tool call and its audit record *)


(** ** The requests of the REST client *)

Section RestFacts.

Variable Net : Type.
Variable fetch : FetchRequest -> Net -> Outcome Response * Net.
Variable jsonParse : jsstring -> option JsValue.
Variable jsonStringify : JsValue -> jsstring.
Variable valueToString : JsValue -> jsstring.
Variable hmac : jsstring -> jsstring -> jsstring.

Lemma send_sent (req : FetchRequest) (w : Wire Net) :
  sent (send Net fetch jsonParse valueToString req w).2 = sent w ++ [req].
Proof.
  unfold send. destruct (fetch req (net w)) as [[response|e] n]; done.
Qed.

(** What a request with authorisation does: it is sent with the headers of
    [authHeaders], or nothing is sent and the call rejects. *)
Lemma sendAuthorized_cases (c : MagentoRestClient) (nonce timestamp : jsstring)
    (method : HttpMethod) (baseUrl url : jsstring) (queryParams : option strmap)
    (body : option jsstring) (w : Wire Net) :
  let run := sendAuthorized Net fetch jsonParse valueToString hmac c nonce
               timestamp method baseUrl url queryParams body w in
  match authHeaders hmac c nonce timestamp method baseUrl queryParams with
  | Ok headers =>
      sent run.2 = sent w ++ [{| q_url := url; q_method := method;
                                 q_headers := headers; q_body := body |}]
  | Throw e => run = (Rejected (OtherError e), w)
  end.
Proof.
  unfold sendAuthorized.
  destruct (authHeaders _ _ _ _ _ _ _); [apply send_sent|done].
Qed.

End RestFacts.

(** X19. A call of [get], [post] (with authorisation), [put] or [delete]
    hands at most one request to [fetch]. The request has the method of the
    call and the URL [buildBaseUrl] gives (for [get], followed by the query
    string), and its headers are the two JSON headers and an
    [Authorization] header: with OAuth credentials the OAuth header signed
    over the method, the URL without the query string and the query
    parameters, and otherwise [Bearer <token>] for a token that is not
    empty. A client without credentials sends nothing: the call rejects
    before [fetch] is reached. *)
Theorem requests_are_authorized :
  forall (Net : Type) (fetch : FetchRequest -> Net -> Outcome Response * Net)
         (jsonParse : jsstring -> option JsValue)
         (jsonStringify valueToString : JsValue -> jsstring)
         (hmac : jsstring -> jsstring -> jsstring) (c : MagentoRestClient)
         (nonce timestamp : jsstring) (call : RestCall) (w : Wire Net),
    let run := runCall Net fetch jsonParse jsonStringify valueToString hmac c
                 nonce timestamp call w in
    let baseUrl := buildBaseUrl c (callEndpoint call) (callStore call) in
    ((exists e, run = (Rejected (OtherError e), w))
     \/ exists req,
         sent run.2 = sent w ++ [req]
         /\ q_method req = callMethod call
         /\ appendQueryString baseUrl (callParams call) = Some (q_url req)
         /\ obj_keys (q_headers req)
            = [js "Content-Type"; js "Accept"; js "Authorization"]
         /\ match c_oauth c with
            | Some credentials =>
                exists header,
                  buildOAuthHeader hmac credentials nonce timestamp
                    (callMethod call) baseUrl (callParams call) = Some header
                  /\ obj_get (js "Authorization") (q_headers req) = Some header
            | None =>
                exists tok,
                  c_token c = Some tok /\ tok <> []
                  /\ obj_get (js "Authorization") (q_headers req)
                     = Some (js "Bearer " ++ tok)
            end)
    /\ (c_oauth c = None -> c_token c = None \/ c_token c = Some [] ->
        exists e, run = (Rejected (OtherError e), w)).
Proof.
  intros Net fetch jsonParse jsonStringify valueToString hmac c nonce timestamp
    call w run baseUrl.
  assert (Hauth : forall method url queryParams body,
    appendQueryString baseUrl queryParams = Some url ->
    let r := sendAuthorized Net fetch jsonParse valueToString hmac c nonce
               timestamp method baseUrl url queryParams body w in
    ((exists e, r = (Rejected (OtherError e), w))
     \/ exists req,
         sent r.2 = sent w ++ [req]
         /\ q_method req = method
         /\ Some url = Some (q_url req)
         /\ obj_keys (q_headers req)
            = [js "Content-Type"; js "Accept"; js "Authorization"]
         /\ match c_oauth c with
            | Some credentials =>
                exists header,
                  buildOAuthHeader hmac credentials nonce timestamp method
                    baseUrl queryParams = Some header
                  /\ obj_get (js "Authorization") (q_headers req) = Some header
            | None =>
                exists tok,
                  c_token c = Some tok /\ tok <> []
                  /\ obj_get (js "Authorization") (q_headers req)
                     = Some (js "Bearer " ++ tok)
            end)
    /\ (c_oauth c = None -> c_token c = None \/ c_token c = Some [] ->
        exists e, r = (Rejected (OtherError e), w))).
  { intros method url queryParams body Hurl r.
    pose proof (sendAuthorized_cases Net fetch jsonParse valueToString hmac c
                  nonce timestamp method baseUrl url queryParams body w) as H.
    cbv zeta in H. fold r in H. unfold authHeaders in H |- *.
    destruct (c_oauth c) as [credentials|].
    - split; [|done].
      destruct (buildOAuthHeader _ _ _ _ _ _ _) as [header|]; [|left; eauto].
      right. eexists. split; [exact H|]. cbn [q_method q_url q_headers].
      repeat split. by exists header.
    - destruct (c_token c) as [tok|].
      + destruct (decide (tok = [])) as [->|Hne].
        * change (truthy (JString [])) with false in H. cbv iota in H.
          split; [left; eauto|]. intros _ _. eauto.
        * unfold truthy in H. rewrite bool_decide_eq_false_2 in H by done.
          cbn [negb] in H. split.
          -- right. eexists. split; [exact H|]. cbn [q_method q_url q_headers].
             repeat split. by exists tok.
          -- intros _ [?|[= ?]]; done.
      + split; [left; eauto|]. intros _ _. eauto. }
  subst run. destruct call as [endpoint params storeCode|endpoint body storeCode
                              |endpoint body storeCode|endpoint storeCode];
    cbn [runCall callMethod callParams callEndpoint callStore] in *.
  - unfold rest_get. fold baseUrl.
    destruct (appendQueryString baseUrl params) as [url|] eqn:Hurl.
    + by apply Hauth.
    + split; [left; eauto|]. intros _ _. eauto.
  - unfold rest_post. fold baseUrl. by apply Hauth.
  - unfold rest_put. fold baseUrl. by apply Hauth.
  - unfold rest_delete. fold baseUrl. by apply Hauth.
Qed.

(** ** The commit handler over the REST client *)

Section RestCatalogFacts.

Variable Net : Type.
Variable fetch : FetchRequest -> Net -> Outcome Response * Net.
Variable jsonParse : jsstring -> option JsValue.
Variable jsonStringify : JsValue -> jsstring.
Variable valueToString : JsValue -> jsstring.
Variable hmac : jsstring -> jsstring -> jsstring.
Variable zodMessage : jsstring.
Variable draw : Net -> jsstring * jsstring.
Variable c : MagentoRestClient.
Variable tok : jsstring.
Hypothesis no_oauth : c_oauth c = None.
Hypothesis has_token : c_token c = Some tok.
Hypothesis token_not_empty : tok <> [].

Abbreviation theClient :=
  (restClient Net fetch jsonParse jsonStringify valueToString hmac zodMessage
     draw c).

Lemma bearer_put_sent (req : PutRequest) (w : Wire Net) :
  sent (put theClient req w).2
  = sent w ++ [bearerPut jsonStringify valueToString c tok req].
Proof.
  cbn [put restClient]. destruct (draw (net w)) as [nonce timestamp].
  cbv zeta.
  pose proof (sendAuthorized_cases Net fetch jsonParse valueToString hmac c
                nonce timestamp PUT
                (putUrl valueToString c (endpoint req) (storeCode req))
                (putUrl valueToString c (endpoint req) (storeCode req)) None
                (Some (jsonStringify (body req))) w) as H.
  cbv zeta in H. unfold authHeaders in H. rewrite no_oauth, has_token in H.
  unfold truthy in H at 1. rewrite bool_decide_eq_false_2 in H by done.
  cbn [negb] in H.
  destruct (sendAuthorized _ _ _ _ _ _ _ _ _ _ _ _ _ _) as [[a|e] w'];
    exact H.
Qed.

Lemma bearer_results_sent (request : JsValue -> option PutRequest)
    (records : list JsValue) (w : Wire Net) :
  sent (spec_results theClient request records w).2
  = sent w ++ map (bearerPut jsonStringify valueToString c tok)
                (spec_requests request records).
Proof.
  revert w. induction records as [|sku rest IH]; intros w.
  - simpl. by rewrite app_nil_r.
  - rewrite spec_requests_cons. cbn [spec_results].
    destruct (request sku) as [req|].
    + pose proof (bearer_put_sent req w) as H.
      destruct (put theClient req w) as [r w1]. cbn [snd] in H.
      specialize (IH w1).
      destruct (spec_results theClient request rest w1) as [rs w2].
      cbn [snd] in *. rewrite IH, H. cbn [map]. by rewrite <- app_assoc.
    + specialize (IH w).
      destruct (spec_results theClient request rest w) as [rs w2].
      by cbn [snd] in *.
Qed.

End RestCatalogFacts.

(** X20. When the session's client has a bearer token, every product update
    of [catalog.commit_bulk_update] reaches the network as exactly one
    [fetch], in the order of the updates, and nothing else is sent: a [PUT]
    with the two JSON headers and [Authorization: Bearer <token>], the
    serialised body of the update, and the URL [base/rest[/storeCode]]
    followed by its endpoint. For a consumed catalog plan the requests are,
    in the order of the plan's SKUs and one for each SKU that can be
    encoded, those to [/V1/products/<encoded sku>] in the store view of the
    plan's scope, with the body [{ product: { sku, ...updates } }]. *)
Theorem commit_over_rest :
  forall (Net : Type) (fetch : FetchRequest -> Net -> Outcome Response * Net)
         (jsonParse : jsstring -> option JsValue)
         (jsonStringify valueToString : JsValue -> jsstring)
         (hmac : jsstring -> jsstring -> jsstring) (zodMessage : jsstring)
         (draw : Net -> jsstring * jsstring) (c : MagentoRestClient)
         (tok : jsstring) (isUuid : jsstring -> bool)
         (cannotRead notIterable : JsValue -> jsstring) (Disk : Type)
         (persist : Entries -> Disk -> Outcome unit * Disk) (config : McpConfig)
         (now nowRecord : Z) (params : Params)
         (context : ActionContext (Wire Net)) (s s' : Server (Wire Net) Disk)
         (r : Outcome CommitResult),
    c_oauth c = None -> c_token c = Some tok -> tok <> [] ->
    getClient context
    = Ok (restClient Net fetch jsonParse jsonStringify valueToString hmac
            zodMessage draw c) ->
    commit_bulk_update isUuid valueToString cannotRead notIterable persist config
      now nowRecord params context s = (r, s') ->
    (exists updates : list PutRequest,
       requests s' = requests s ++ updates
       /\ sent (world s')
          = sent (world s)
            ++ map (bearerPut jsonStringify valueToString c tok) updates)
    /\ (forall (v : CommitPlan) (plan : BulkPlan) (plans' : Plans)
               (skus : list jsstring) (updates : list (jsstring * JsValue))
               (scope : JsValue),
          CommitBulkUpdateSchema_parse isUuid params = Ok v ->
          Guardrails.requireConfirmation config Risk params = Ok tt ->
          priorEntry v s = None ->
          PlanStore.consume now (v_plan_id v) (plans s) = (Some plan, plans') ->
          payload plan = catalogPayload skus updates scope ->
          sent (world s')
          = sent (world s)
            ++ omap (fun sku =>
                       match encodeURIComponent sku with
                       | Some esku =>
                           Some (bearerPut jsonStringify valueToString c tok
                                   {| endpoint := js "/V1/products/" ++ esku;
                                      body :=
                                        JObject
                                          [(js "product",
                                            JObject
                                              (obj_spread
                                                 [(js "sku", JString sku)]
                                                 updates))];
                                      storeCode :=
                                        member scope (js "store_view_code") |})
                       | None => None
                       end) skus).
Proof.
  intros Net fetch jsonParse jsonStringify valueToString hmac zodMessage draw c
    tok isUuid cannotRead notIterable Disk persist config now nowRecord params
    context s s' r Ho Ht Hne Hcl.
  rewrite commit_bulk_update_unfold, Hcl.
  assert (Hnone : exists updates : list PutRequest,
            requests s = requests s ++ updates
            /\ sent (world s)
               = sent (world s)
                 ++ map (bearerPut jsonStringify valueToString c tok) updates).
  { exists []. cbn [map]. by rewrite !app_nil_r. }
  destruct (CommitBulkUpdateSchema_parse isUuid params) as [v|e] eqn:Hp.
  2:{ intros [= <- <-]. split; [exact Hnone|]. intros; congruence. }
  destruct (Guardrails.requireConfirmation config Risk params) as [[]|e] eqn:Hg.
  2:{ intros [= <- <-]. split; [exact Hnone|]. intros; congruence. }
  destruct (priorEntry v s) eqn:Hprior.
  { intros [= <- <-]. split; [exact Hnone|]. intros; congruence. }
  destruct (PlanStore.consume now (v_plan_id v) (plans s)) as [[plan|] plans']
    eqn:Hc.
  2:{ intros [= <- <-]. split; [exact Hnone|]. intros; congruence. }
  cbv zeta.
  destruct (storeViewCode cannotRead (payload plan)) as [storeCode|e] eqn:Hsv.
  2:{ intros [= <- <-]. cbn [requests world]. split; [done|].
      intros v0 plan0 plans0 skus updates scope Hp0 _ _ Hc0 Hpl.
      assert (v0 = v) as -> by congruence.
      assert (plan0 = plan) as -> by congruence.
      rewrite Hpl in Hsv. unfold catalogPayload in Hsv.
      by rewrite storeViewCode_object in Hsv. }
  destruct (iterate (member (payload plan) (js "skus"))) as [records|] eqn:Hit.
  2:{ intros [= <- <-]. cbn [requests world]. split; [done|].
      intros v0 plan0 plans0 skus updates scope Hp0 _ _ Hc0 Hpl.
      assert (v0 = v) as -> by congruence.
      assert (plan0 = plan) as -> by congruence.
      rewrite Hpl in Hit. discriminate Hit. }
  apply storeViewCode_Ok in Hsv. subst storeCode.
  rewrite (loop_results valueToString (Wire Net) _
             (spec_request valueToString
                (ownEntries (member (payload plan) (js "updates")))
                (member (member (payload plan) (js "scope"))
                   (js "store_view_code"))))
    by (intros sku; apply putRequest_spec).
  intros [= <- <-]. cbn [requests world p_requests p_world]. split.
  - eexists. split; [done|]. by apply bearer_results_sent.
  - intros v0 plan0 plans0 skus updates scope Hp0 _ _ Hc0 Hpl.
    assert (v0 = v) as -> by congruence.
    assert (plan0 = plan) as -> by congruence.
    rewrite (bearer_results_sent Net fetch jsonParse jsonStringify valueToString
               hmac zodMessage draw c tok Ho Ht Hne).
    f_equal. rewrite Hpl in Hit |- *.
    destruct (catalogPayload_members skus updates scope) as (Hs & Hu & Hsc).
    rewrite Hs in Hit. injection Hit as <-. rewrite Hu, Hsc.
    cbn [ownEntries]. clear.
    induction skus as [|sku rest IH]; [done|].
    cbn [map]. rewrite spec_requests_cons. unfold spec_request at 1.
    cbn [toStr]. simpl omap.
    destruct (encodeURIComponent sku) as [esku|]; cbn [map]; by rewrite IH.
Qed.

Lemma commit_over_rest_witness :
  sent (world SampleRest.run.2)
  = [ {| q_url := js "https://shop.example/rest/default/V1/products/A-1";
         q_method := PUT;
         q_headers := [ (js "Content-Type", js "application/json");
                        (js "Accept", js "application/json");
                        (js "Authorization", js "Bearer t0k3n") ];
         q_body := Some (js "{product A-1}") |};
      {| q_url := js "https://shop.example/rest/default/V1/products/B%202";
         q_method := PUT;
         q_headers := [ (js "Content-Type", js "application/json");
                        (js "Accept", js "application/json");
                        (js "Authorization", js "Bearer t0k3n") ];
         q_body := Some (js "{product B 2}") |};
      {| q_url := js "https://shop.example/rest/default/V1/products/C-3";
         q_method := PUT;
         q_headers := [ (js "Content-Type", js "application/json");
                        (js "Accept", js "application/json");
                        (js "Authorization", js "Bearer t0k3n") ];
         q_body := Some (js "{product C-3}") |} ].
Proof.
  destruct (commit_over_rest nat SampleRest.fetch SampleRest.jsonParse
              SampleRest.jsonStringify Sample.valueToString Sample.toyMac
              (js "invalid") SampleRest.draw SampleRest.session (js "t0k3n")
              uuidShape Sample.cannotRead Sample.notIterable nat Sample.persist
              defaultConfig 1700000000001 1700000000002
              (Sample.commitParams (js "approved by ops") None)
              SampleRest.context SampleRest.server SampleRest.run.2
              SampleRest.run.1) as [_ Hsent].
  - reflexivity.
  - reflexivity.
  - discriminate.
  - reflexivity.
  - apply surjective_pairing.
  - rewrite (Hsent {| v_plan_id := Sample.planId;
                      v_reason := js "approved by ops";
                      idempotency_key := None |}
               Sample.plan ∅ [js "A-1"; js "B 2"; js "C-3"]
               [(js "name", JString (js "Mug"))]
               (JObject [(js "store_view_code", JString (js "default"))]));
      vm_compute; reflexivity.
Defined.

(** ** Purging URLs *)

Section CachePurgeFacts.

Variable Cdn : Type.
Variable purgeUrl : jsstring -> jsstring -> Cdn -> Outcome (bool * JsValue) * Cdn.

Lemma purgeAll_purged (apiToken : jsstring) (urls : list jsstring)
    (st : PurgeState Cdn) :
  let run := purgeAll Cdn purgeUrl apiToken urls st in
  purged run.2 = purged st ++ urls
  /\ limiter run.2 = limiter st
  /\ map (fun r => fst (fst r)) run.1 = urls.
Proof.
  revert st. induction urls as [|url rest IH]; intros st.
  - cbn. by rewrite app_nil_r.
  - cbn [purgeAll]. unfold purgeOne.
    destruct (purgeUrl apiToken url (cdn st)) as [r w].
    specialize (IH {| limiter := limiter st; cdn := w;
                      purged := purged st ++ [url] |}).
    cbv zeta in IH.
    destruct (purgeAll Cdn purgeUrl apiToken rest _) as [results st2].
    cbn [fst snd purged limiter map] in *.
    destruct IH as (-> & -> & ->). rewrite <- app_assoc.
    repeat split. by destruct r as [[ok id]|e].
Qed.

End CachePurgeFacts.


(** ** Making a plan *)

(** X22. [PlanStore.create] either stores one plan or, when the expiry is
    not a valid time, throws and stores nothing. The plan is stored under
    the id it carries, with the action, the payload and the count that were
    passed, and the other plans stay as they are. [consume] hands that very
    plan out at every time up to its expiry and nothing afterwards, and
    either way the id is free again and a second [consume] finds nothing. *)
Theorem plan_create_lifecycle :
  forall (uuid : jsstring) (now : Z) (act : jsstring) (pl : JsValue)
         (affectedCount : nat) (expiryMinutes : float)
         (sampleDiffs : option (list JsValue)) (warns : option (list jsstring))
         (plans : Plans),
    match PlanStore_create uuid now act pl affectedCount expiryMinutes
            sampleDiffs warns plans with
    | (Throw e, plans') => e = invalidTime /\ plans' = plans
    | (Ok plan, plans') =>
        (plan_id plan, action plan, created_at plan, payload plan,
         affected_count plan) = (uuid, act, now, pl, affectedCount)
        /\ plans' !! uuid = Some plan
        /\ (forall planId, planId <> uuid -> plans' !! planId = plans !! planId)
        /\ forall later,
            PlanStore.consume later uuid plans'
            = (if (expires_at plan <? later)%Z then None else Some plan,
               delete uuid plans)
            /\ forall again,
                (PlanStore.consume again uuid
                   (PlanStore.consume later uuid plans').2).1 = None
    end.
Proof.
  intros uuid now act pl affectedCount expiryMinutes sampleDiffs warns plans.
  unfold PlanStore_create.
  destruct (timeClip _) as [expires|]; [|done].
  split; [done|]. split; [by rewrite lookup_insert_eq|].
  split; [intros planId Hne; by rewrite lookup_insert_ne|].
  intros later.
  assert (Hc : PlanStore.consume later uuid
                 (<[uuid := {| plan_id := uuid; action := act; created_at := now;
                               expires_at := expires; payload := pl;
                               affected_count := affectedCount;
                               sample_diffs := sampleDiffs;
                               warnings := warns |}]> plans)
               = (if (expires <? later)%Z then None
                  else Some {| plan_id := uuid; action := act; created_at := now;
                               expires_at := expires; payload := pl;
                               affected_count := affectedCount;
                               sample_diffs := sampleDiffs;
                               warnings := warns |},
                  delete uuid plans)).
  { unfold PlanStore.consume, PlanStore.get, PlanStore.expired.
    rewrite lookup_insert_eq. cbn [expires_at].
    destruct (expires <? later)%Z; cbn [fst snd];
      by rewrite ?delete_insert_eq, ?delete_idemp. }
  cbn [expires_at]. split; [exact Hc|]. intros again. rewrite Hc. cbn [snd].
  rewrite consume_absent; [done|]. apply lookup_delete_eq.
Qed.

(** ** The product search behind a bulk update *)


(** ** The endpoint of a product *)

(** X24. The endpoint of a product keeps the SKU inside one path segment:
    whatever the SKU contains, the endpoint has the three slashes of
    [/V1/products/] and no other, and neither [?] nor [#], so a SKU cannot
    add a path segment, a query or a fragment to the request. It is
    the endpoint of the request the commit handler sends for that SKU. *)
Theorem product_endpoint_one_segment :
  forall (valueToString : JsValue -> jsstring) (payload storeCode : JsValue)
         (sku : jsstring),
    match productEndpoint sku with
    | Some e =>
        occurrences 47 e = 3%nat
        /\ occurrences 63 e = 0%nat
        /\ occurrences 35 e = 0%nat
        /\ exists req,
             putRequest valueToString payload storeCode (JString sku) = Some req
             /\ endpoint req = e
    | None => putRequest valueToString payload storeCode (JString sku) = None
    end.
Proof.
  intros valueToString payload storeCode sku.
  unfold productEndpoint, putRequest. cbn [toStr].
  destruct (encodeURIComponent sku) as [esku|] eqn:He; cbn [mbind option_bind].
  - assert (Hall : Forall (fun c => c <> 47 /\ c <> 63 /\ c <> 35) esku).
    { revert He. apply encodeURIComponent_Forall.
      - intros c Hc. repeat split; intros ->; vm_compute in Hc; discriminate Hc.
      - repeat split; discriminate.
      - intros d. repeat split; apply hexDigit_not; lia. }
    unfold cat. rewrite !occurrences_app.
    rewrite (occurrences_none 47 esku), (occurrences_none 63 esku),
      (occurrences_none 35 esku).
    + repeat split; try done. by eexists.
    + eapply Forall_impl; [exact Hall|]. by intros ? (_ & _ & ?).
    + eapply Forall_impl; [exact Hall|]. by intros ? (_ & ? & _).
    + eapply Forall_impl; [exact Hall|]. by intros ? (? & _ & _).
  - done.
Qed.

(** ** Reading the audit log *)

Lemma log_all (stringify : AuditRecord -> jsstring) (records : list AuditRecord)
    (file : jsstring) :
  fold_left (fun f r => AuditLogger.log stringify r f) records file
  = file ++ concat (map (fun r => stringify (AuditLogger.sanitized r) ++ [10])
                      records).
Proof.
  revert file. induction records as [|r rs IH]; intros file; simpl.
  - by rewrite app_nil_r.
  - rewrite IH. unfold AuditLogger.log, cat. by rewrite <- !app_assoc.
Qed.

Lemma concat_lines (lines : list jsstring) :
  lines <> [] ->
  concat (map (fun l => l ++ [10]) lines) = join [10] lines ++ [10].
Proof.
  induction lines as [|l ls IH]; [done|]. intros _.
  destruct ls as [|l' ls]; [simpl; by rewrite app_nil_r|].
  change (join [10] (l :: l' :: ls)) with (l ++ [10] ++ join [10] (l' :: ls)).
  cbn [map concat]. cbn [map concat] in IH. rewrite IH by done.
  by rewrite <- !app_assoc.
Qed.

Lemma cleanLine_parts (line : jsstring) :
  cleanLine line = true ->
  (exists c s, line = c :: s /\ isWhiteSpace c = false)
  /\ (exists c s, rev line = c :: s /\ isWhiteSpace c = false)
  /\ Forall (fun c => c <> 10) line.
Proof.
  unfold cleanLine. intros H.
  apply andb_true_iff in H as [H H3]. apply andb_true_iff in H as [H1 H2].
  split; [|split].
  - destruct line as [|c s]; [done|]. exists c, s. split; [done|].
    by apply negb_true_iff.
  - destruct (rev line) as [|c s]; [done|]. exists c, s. split; [done|].
    by apply negb_true_iff.
  - apply Forall_forall. intros c Hc.
    rewrite forallb_forall in H3. apply list_elem_of_In in Hc.
    specialize (H3 c Hc). apply negb_true_iff in H3. by apply N.eqb_neq.
Qed.

Lemma splitLines_line (l rest : jsstring) :
  Forall (fun c => c <> 10) l ->
  splitLines (l ++ 10 :: rest) = l :: splitLines rest.
Proof.
  induction 1 as [|c l Hc _ IH]; [done|].
  cbn [app splitLines]. destruct (N.eqb_spec c 10); [done|]. by rewrite IH.
Qed.

Lemma splitLines_last (l : jsstring) :
  Forall (fun c => c <> 10) l -> splitLines l = [l].
Proof.
  induction 1 as [|c l Hc _ IH]; [done|].
  cbn [splitLines]. destruct (N.eqb_spec c 10); [done|]. by rewrite IH.
Qed.

Lemma splitLines_join (lines : list jsstring) :
  lines <> [] -> Forall (fun l => cleanLine l = true) lines ->
  splitLines (join [10] lines) = lines.
Proof.
  induction lines as [|l ls IH]; [done|]. intros _ Hall.
  apply Forall_cons in Hall as [Hl Hls].
  apply cleanLine_parts in Hl as (_ & _ & Hl).
  destruct ls as [|l' ls]; [by apply splitLines_last|].
  change (join [10] (l :: l' :: ls)) with (l ++ 10 :: join [10] (l' :: ls)).
  rewrite splitLines_line by done. by rewrite IH.
Qed.

Lemma join_head (lines : list jsstring) :
  lines <> [] -> Forall (fun l => cleanLine l = true) lines ->
  exists c s, join [10] lines = c :: s /\ isWhiteSpace c = false.
Proof.
  destruct lines as [|l ls]; [done|]. intros _ Hall.
  apply Forall_cons in Hall as [Hl _].
  apply cleanLine_parts in Hl as ((c & s & -> & Hc) & _).
  destruct ls as [|l' ls]; [by exists c, s|].
  change (join [10] ((c :: s) :: l' :: ls))
    with (c :: (s ++ 10 :: join [10] (l' :: ls))).
  by eexists _, _.
Qed.

Lemma join_last (lines : list jsstring) :
  lines <> [] -> Forall (fun l => cleanLine l = true) lines ->
  exists c s, rev (join [10] lines) = c :: s /\ isWhiteSpace c = false.
Proof.
  induction lines as [|l ls IH]; [done|]. intros _ Hall.
  apply Forall_cons in Hall as [Hl Hls].
  destruct ls as [|l' ls].
  - by apply cleanLine_parts in Hl as (_ & H & _).
  - change (join [10] (l :: l' :: ls)) with (l ++ 10 :: join [10] (l' :: ls)).
    destruct (IH ltac:(done) Hls) as (c & s & E & Hc).
    rewrite rev_app_distr. cbn [rev]. rewrite E. cbn [app].
    by eexists _, _.
Qed.

Lemma trim_lines (lines : list jsstring) :
  lines <> [] -> Forall (fun l => cleanLine l = true) lines ->
  trim (join [10] lines ++ [10]) = join [10] lines.
Proof.
  intros Hne Hall. unfold trim.
  destruct (join_head lines Hne Hall) as (c & s & E & Hc).
  destruct (join_last lines Hne Hall) as (d & t & E' & Hd).
  rewrite E. cbn [app trimStart]. rewrite Hc. rewrite <- E.
  change (c :: s ++ [10]) with ((c :: s) ++ [10]). rewrite <- E.
  rewrite rev_app_distr. cbn [rev app trimStart].
  change (isWhiteSpace 10) with true. cbv iota.
  rewrite E'. cbn [trimStart]. rewrite Hd. rewrite <- E'.
  apply rev_involutive.
Qed.

Lemma filter_lines (lines : list jsstring) :
  Forall (fun l => cleanLine l = true) lines ->
  List.filter (fun line => truthy (JString line)) lines = lines.
Proof.
  induction 1 as [|l ls Hl _ IH]; [done|]. cbn [List.filter].
  apply cleanLine_parts in Hl as ((c & s & -> & _) & _).
  by rewrite IH.
Qed.

Lemma traverse_drop {A B C} (parse : B -> option C) (f : A -> B) (g : A -> C)
    (n : nat) (l : list A) :
  Forall (fun a => parse (f a) = Some (g a)) l ->
  traverse parse (drop n (map f l)) = Some (drop n (map g l)).
Proof.
  intros H. revert n. induction H as [|a l Ha _ IH]; intros n.
  - by destruct n.
  - destruct n as [|n]; [|apply IH].
    specialize (IH 0%nat). rewrite !drop_0 in *.
    cbn [map traverse]. rewrite Ha. cbn [mbind option_bind]. by rewrite IH.
Qed.

(** X25. Reading follows writing: when every record was written as a line
    of its own that can be parsed back (as [JSON.stringify] writes it: not
    empty, without a line break or white space at its ends), [readRecent]
    on the file that a series of [log] calls made from nothing returns the
    last [count] records written, oldest first, or all of them when fewer
    were written. Each comes back as it was written, that is without
    [password] and [token]. With a count of 0 it returns every record, not
    none. *)
Theorem audit_read_back :
  forall (stringify : AuditRecord -> jsstring)
         (parse : jsstring -> option AuditRecord) (records : list AuditRecord)
         (count : Z),
    Forall (fun r =>
              cleanLine (stringify (AuditLogger.sanitized r)) = true
              /\ parse (stringify (AuditLogger.sanitized r))
                 = Some (AuditLogger.sanitized r)) records ->
    let file := fold_left (fun f r => AuditLogger.log stringify r f) records [] in
    let written := map AuditLogger.sanitized records in
    readRecent parse count (Some file) = Some (sliceFrom (- count) written)
    /\ (count = 0%Z -> readRecent parse count (Some file) = Some written)
    /\ ((0 < count)%Z ->
        readRecent parse count (Some file)
        = Some (drop (length records - Z.to_nat count) written)).
Proof.
  intros stringify parse records count Hall file written.
  set (lines := map (fun r => stringify (AuditLogger.sanitized r)) records).
  assert (Hclean : Forall (fun l => cleanLine l = true) lines).
  { unfold lines. apply Forall_map. eapply Forall_impl; [exact Hall|].
    by intros r [? _]. }
  assert (Hlines : List.filter (fun line => truthy (JString line))
                     (splitLines (trim file)) = lines).
  { subst file. rewrite log_all. cbn [app].
    replace (map (fun r => stringify (AuditLogger.sanitized r) ++ [10]) records)
      with (map (fun l => l ++ [10]) lines)
      by (unfold lines; by rewrite map_map).
    destruct records as [|r rs]; [done|].
    rewrite concat_lines by done. rewrite trim_lines by done.
    rewrite splitLines_join by done. by apply filter_lines. }
  assert (Hmain : readRecent parse count (Some file)
                  = Some (sliceFrom (- count) written)).
  { unfold readRecent. rewrite Hlines. unfold sliceFrom, lines, written.
    rewrite !length_map.
    replace (map (fun r => stringify (AuditLogger.sanitized r)) records)
      with (map stringify (map AuditLogger.sanitized records))
      by (by rewrite map_map).
    rewrite <- (map_id (map AuditLogger.sanitized records)) at 2.
    apply traverse_drop. apply Forall_map.
    eapply Forall_impl; [exact Hall|]. by intros r [_ ?]. }
  split; [exact Hmain|]. split.
  - intros ->. rewrite Hmain. unfold sliceFrom.
    change (- 0 <? 0)%Z with false. cbv iota.
    rewrite Z.min_l by lia. done.
  - intros Hpos. rewrite Hmain. unfold sliceFrom, written.
    rewrite length_map. destruct (Z.ltb_spec (- count) 0); [|lia].
    f_equal. f_equal. lia.
Qed.

Lemma audit_read_back_witness :
  let file := fold_left (fun f r => AuditLogger.log SampleAudit.stringify r f)
                [SampleAudit.login; SampleAudit.search] [] in
  let written := map AuditLogger.sanitized
                   [SampleAudit.login; SampleAudit.search] in
  readRecent SampleAudit.parse 1 (Some file) = Some (sliceFrom (- 1) written)
  /\ (1%Z = 0%Z -> readRecent SampleAudit.parse 1 (Some file) = Some written)
  /\ ((0 < 1)%Z ->
      readRecent SampleAudit.parse 1 (Some file)
      = Some (drop (length [SampleAudit.login; SampleAudit.search]
                    - Z.to_nat 1) written)).
Proof.
  apply (audit_read_back SampleAudit.stringify SampleAudit.parse
           [SampleAudit.login; SampleAudit.search] 1).
  constructor; [split; vm_compute; reflexivity|].
  constructor; [split; vm_compute; reflexivity|constructor].
Defined.
